(** * teensy_sync.py: discovery and broadcast over serial ports

    A shallow embedding of [teensy_sync.py] and the properties of its
    response parser, endpoint filter, discovery engine, broadcast
    coordinator and entry point.

    Python text ([str]) is a sequence of Unicode code points, bytes are
    [Byte.byte]s.  Exceptions are values of [result]; serial I/O runs in
    a small state-and-exception monad whose state is the chronological
    trace of the calls made on the transports. *)

From Stdlib Require Import NArith ZArith Strings.String Strings.Ascii
  Strings.Byte DecimalString DecimalPos.
From stdpp Require Import base option list gmap sorting.

(** ** Text *)

Module Text.

Local Open Scope N_scope.

(** A Python [str]: its code points. *)
Definition str : Type := list N.

(** A literal of the source, given as its ASCII characters. *)
Definition lit (s : string) : str :=
  map N_of_ascii (list_ascii_of_string s).
Arguments lit s%_string.

(** [str.isspace] on one code point: the characters [str.split()] and
    [str.strip()] treat as whitespace. *)
Definition isspace (c : N) : bool :=
  ((9 <=? c) && (c <=? 13)) || ((28 <=? c) && (c <=? 32))
  || (c =? 133) || (c =? 160) || (c =? 5760)
  || ((8192 <=? c) && (c <=? 8202))
  || (c =? 8232) || (c =? 8233) || (c =? 8239) || (c =? 8287)
  || (c =? 12288).

Fixpoint drop_while (f : N -> bool) (s : str) : str :=
  match s with
  | [] => []
  | c :: s' => if f c then drop_while f s' else s
  end.

(** [s.strip()] *)
Definition strip (s : str) : str :=
  rev (drop_while isspace (rev (drop_while isspace s))).

(** The token being read, closed at a separator or at the end. *)
Definition flush (cur : str) : list str :=
  match cur with
  | [] => []
  | _ => [cur]
  end.

Fixpoint split_acc (cur : str) (s : str) : list str :=
  match s with
  | [] => flush cur
  | c :: s' =>
      if isspace c then flush cur ++ split_acc [] s'
      else split_acc (cur ++ [c]) s'
  end.

(** [s.split()]: the maximal runs of non-whitespace characters. *)
Definition split (s : str) : list str := split_acc [] s.

(** [sep.join(l)] *)
Fixpoint join (sep : str) (l : list str) : str :=
  match l with
  | [] => []
  | [x] => x
  | x :: rest => x ++ sep ++ join sep rest
  end.

(** [s.startswith(p)] *)
Fixpoint startswith (s p : str) {struct p} : bool :=
  match p, s with
  | [], _ => true
  | _ :: _, [] => false
  | a :: p', c :: s' => (a =? c) && startswith s' p'
  end.

(** [sub in s] *)
Fixpoint str_in (sub s : str) : bool :=
  startswith s sub
  || match s with
     | [] => false
     | _ :: s' => str_in sub s'
     end.

Definition is_ascii (c : N) : bool := c <? 128.

Definition ascii_lower (c : N) : N :=
  if (65 <=? c) && (c <=? 90) then c + 32 else c.

(** [s.encode("utf-8")] on one code point; [None] where Python raises
    [UnicodeEncodeError] (a surrogate, U+D800..U+DFFF) and above
    U+10FFFF, which no [str] holds. *)
Definition byte_of (n : N) : byte :=
  match Byte.of_N n with
  | Some b => b
  | None => x00
  end.

Definition utf8_char (c : N) : option (list byte) :=
  if c <? 128 then Some [byte_of c]
  else if c <? 2048 then
    Some [byte_of (192 + c / 64); byte_of (128 + c mod 64)]
  else if (55296 <=? c) && (c <=? 57343) then None
  else if c <? 65536 then
    Some [byte_of (224 + c / 4096); byte_of (128 + (c / 64) mod 64);
          byte_of (128 + c mod 64)]
  else if c <? 1114112 then
    Some [byte_of (240 + c / 262144); byte_of (128 + (c / 4096) mod 64);
          byte_of (128 + (c / 64) mod 64); byte_of (128 + c mod 64)]
  else None.

Fixpoint encode_utf8 (s : str) : option (list byte) :=
  match s with
  | [] => Some []
  | c :: s' =>
      match utf8_char c, encode_utf8 s' with
      | Some bs, Some rest => Some (bs ++ rest)
      | _, _ => None
      end
  end.

(** [raw.decode(errors="ignore")]: UTF-8 decoding that drops every byte
    which does not begin a well-formed sequence.  [decode_at b rest] is the
    code point of the sequence that starts with [b], and the number of
    continuation bytes it takes from [rest]. *)
Definition is_cont (b : N) : bool := (128 <=? b) && (b <=? 191).

Definition second_ok (b b1 : N) : bool :=
  if b =? 224 then (160 <=? b1) && (b1 <=? 191)
  else if b =? 237 then (128 <=? b1) && (b1 <=? 159)
  else if b =? 240 then (144 <=? b1) && (b1 <=? 191)
  else if b =? 244 then (128 <=? b1) && (b1 <=? 143)
  else is_cont b1.

Definition decode_at (b : N) (rest : list N) : option (N * nat) :=
  if b <? 128 then Some (b, 0%nat)
  else if (194 <=? b) && (b <=? 223) then
    match rest with
    | b1 :: _ =>
        if is_cont b1 then Some ((b - 192) * 64 + (b1 - 128), 1%nat)
        else None
    | _ => None
    end
  else if (224 <=? b) && (b <=? 239) then
    match rest with
    | b1 :: b2 :: _ =>
        if second_ok b b1 && is_cont b2
        then Some ((b - 224) * 4096 + (b1 - 128) * 64 + (b2 - 128), 2%nat)
        else None
    | _ => None
    end
  else if (240 <=? b) && (b <=? 244) then
    match rest with
    | b1 :: b2 :: b3 :: _ =>
        if second_ok b b1 && is_cont b2 && is_cont b3
        then Some ((b - 240) * 262144 + (b1 - 128) * 4096
                   + (b2 - 128) * 64 + (b3 - 128), 3%nat)
        else None
    | _ => None
    end
  else None.

Fixpoint decode_go (skip : nat) (bs : list N) : str :=
  match bs with
  | [] => []
  | b :: rest =>
      match skip with
      | S k => decode_go k rest
      | O =>
          match decode_at b rest with
          | Some (c, n) => c :: decode_go n rest
          | None => decode_go 0 rest
          end
      end
  end.

Definition decode_ignore (raw : list byte) : str :=
  decode_go 0 (map Byte.to_N raw).

End Text.

Import Text.

(** The bytes of an ASCII literal. *)
Definition bytes (s : string) : list byte := list_byte_of_string s.
Arguments bytes s%_string.

(** ** Exceptions *)

Inductive exn : Type :=
  | ValueError
  | IndexError
  | TypeError
  | OverflowError
  | UnicodeEncodeError
  | SerialException
  | SerialTimeoutException.

Inductive result (A : Type) : Type :=
  | Ret (a : A)
  | Raise (e : exn).
Arguments Ret {A} a.
Arguments Raise {A} e.

Global Instance exn_eq_dec : EqDecision exn.
Proof. solve_decision. Defined.

Global Instance result_ret : MRet result := @Ret.
Global Instance result_bind : MBind result := fun A B f r =>
  match r with
  | Ret a => f a
  | Raise e => Raise e
  end.

(** [try: body / except E: handler] for one exception class. *)
Definition try_except {A} (body : result A) (E : exn) (handler : result A)
  : result A :=
  match body with
  | Ret a => Ret a
  | Raise e => if bool_decide (e = E) then handler else Raise e
  end.

(** ** Response parser *)

(** [l.index(x)]: the first position of [x], [ValueError] if absent. *)
Fixpoint index (x : str) (l : list str) : result nat :=
  match l with
  | [] => Raise ValueError
  | y :: l' => if bool_decide (y = x) then Ret 0%nat
               else i ← index x l'; Ret (S i)
  end.

(** [l[i]] for a non-negative [i]: [IndexError] out of range. *)
Definition getitem (l : list str) (i : nat) : result str :=
  match l !! i with
  | Some x => Ret x
  | None => Raise IndexError
  end.

Definition Identity : Type := str * str * str.

Definition parse_id_line (line : str) : result (option Identity) :=
  if negb (startswith line (lit "ID ")) then Ret None
  else
    let parts := split line in
    let found :=
      try_except
        (i_fw ← index (lit "FW") parts;
         i_caps ← index (lit "CAPS") parts;
         Ret (Some (i_fw, i_caps)))
        ValueError (Ret None) in
    found ≫= fun o =>
      match o with
      | None => Ret None
      | Some (i_fw, i_caps) =>
          if (length parts <? 2)%nat || (length parts <=? i_fw + 1)%nat
          then Ret None
          else
            board_id ← getitem parts 1;
            fw ← getitem parts (i_fw + 1);
            let caps :=
              if (i_caps + 1 <? length parts)%nat
              then join (lit " ") (drop (i_caps + 1) parts)
              else [] in
            Ret (Some (board_id, fw, caps))
      end.

(** ** Endpoint filter *)

(** Unicode case mapping is a table of the Python runtime; on text that is
    all ASCII, [str.lower()] maps [A-Z] to [a-z] and nothing else. *)
Class UnicodeData : Type := { unicode_lower : str → str }.

(** [s.lower()] *)
Definition lower `{UnicodeData} (s : str) : str :=
  if forallb is_ascii s then map ascii_lower s else unicode_lower s.

(** [serial.tools.list_ports.ListPortInfo]; a field that is [None] (or, for
    [manufacturer], missing) is [None] here. *)
Record ListPortInfo : Type := {
  device : str;
  description : option str;
  hwid : option str;
  manufacturer : option str;
}.

(** [x or ""] *)
Definition or_empty (x : option str) : str :=
  match x with
  | Some s => s
  | None => []
  end.

Definition is_usb_serial_port `{UnicodeData} (p : ListPortInfo) : bool :=
  let desc := lower (or_empty (description p)) in
  let hwid := lower (or_empty (hwid p)) in
  let manuf := lower (or_empty (manufacturer p)) in
  (* Strong accepts *)
  if str_in (lit "teensy") desc || str_in (lit "teensy") manuf
     || str_in (lit "teensy") hwid then true
  else if str_in (lit "usb serial device") desc then true
  else if str_in (lit "usb") desc && negb (str_in (lit "bluetooth") desc)
  then true
  else if str_in (lit "usb") hwid && negb (str_in (lit "bluetooth") hwid)
  then true
  (* Strong rejects *)
  else if str_in (lit "bluetooth") desc || str_in (lit "bluetooth") hwid
  then false
  else if str_in (lit "modem") desc || str_in (lit "modem") hwid then false
  else if str_in (lit "standard serial over bluetooth") desc then false
  else false.

(** The filter with its reject rules deleted: the four accept rules, then
    the default. *)
Definition accept_rules_only `{UnicodeData} (p : ListPortInfo) : bool :=
  let desc := lower (or_empty (description p)) in
  let hwid := lower (or_empty (hwid p)) in
  let manuf := lower (or_empty (manufacturer p)) in
  if str_in (lit "teensy") desc || str_in (lit "teensy") manuf
     || str_in (lit "teensy") hwid then true
  else if str_in (lit "usb serial device") desc then true
  else if str_in (lit "usb") desc && negb (str_in (lit "bluetooth") desc)
  then true
  else if str_in (lit "usb") hwid && negb (str_in (lit "bluetooth") hwid)
  then true
  else false.

(** ** Serial transports *)

(** How one call on a transport ends: it returns, raises
    [serial.SerialTimeoutException], or raises another [Exception]. *)
Inductive outcome : Type := Done | TimedOut | Failed.

(** What one [ser.readline()] gives: bytes (none on a read timeout), or an
    exception. *)
Inductive readline_result : Type :=
  | Line (raw : list byte)
  | ReadError.

(** The behaviour of the transport one [serial.Serial(port=...)] call
    gives: how each call on it ends and, for each [read_lines_for] on it in
    turn, the [readline] results that arrive before that call's deadline. *)
Record Session : Type := {
  s_open : outcome;
  s_reset_input_buffer : outcome;
  s_reset_output_buffer : outcome;
  s_write : outcome;
  s_flush : outcome;
  s_windows : list (list readline_result);
  s_close : outcome;
}.

(** An open [serial.Serial]: [fd] tells the handles of one run apart. *)
Record Serial : Type := {
  fd : nat;
  ser_port : str;
  session : Session;
}.

Inductive message : Type :=
  | WarnCouldNotOpen (board_id port : str)
  | NoPortsCouldBeOpened
  | WarnWriteTimeout (board_id port : str)
  | WarnWriteError (board_id port : str)
  | AckLines (board_id : str) (lines : list str).

(** The calls a run makes, in order. *)
Inductive event : Type :=
  | Open (fd : nat) (port : str)
  | OpenFailed (port : str)
  | ResetInput (fd : nat)
  | ResetOutput (fd : nat)
  | Write (fd : nat) (payload : list byte)
  | Flush (fd : nat)
  | ReadLines (fd : nat)
  | Close (fd : nat)
  | Print (msg : message).

Record world : Type := {
  next_fd : nat;
  trace : list event;
}.

Definition M (A : Type) : Type := world → result A * world.

Global Instance M_ret : MRet M := fun A a w => (Ret a, w).
Global Instance M_bind : MBind M := fun A B f m w =>
  match m w with
  | (Ret a, w') => f a w'
  | (Raise e, w') => (Raise e, w')
  end.

Definition raise {A} (e : exn) : M A := fun w => (Raise e, w).

Definition emit (ev : event) : M unit := fun w =>
  (Ret (), {| next_fd := next_fd w; trace := trace w ++ [ev] |}).

Definition lift {A} (r : result A) : M A := fun w => (r, w).

(** [try: body / except Exception as e: handler e] *)
Definition try_catch {A} (body : M A) (handler : exn → M A) : M A := fun w =>
  match body w with
  | (Ret a, w') => (Ret a, w')
  | (Raise e, w') => handler e w'
  end.

(** [try: body / finally: cleanup] *)
Definition finally {A} (body : M A) (cleanup : M unit) : M A := fun w =>
  match body w with
  | (r, w') =>
      match cleanup w' with
      | (Ret _, w'') => (r, w'')
      | (Raise e, w'') => (Raise e, w'')
      end
  end.

(** [for x in l: body x] *)
Fixpoint for_each {A} (l : list A) (body : A → M unit) : M unit :=
  match l with
  | [] => mret ()
  | x :: l' => body x ;; for_each l' body
  end.

Definition ends (o : outcome) : M unit :=
  match o with
  | Done => mret ()
  | TimedOut => raise SerialTimeoutException
  | Failed => raise SerialException
  end.

Definition open_port (port : str) (s : Session) : M Serial := fun w =>
  match s_open s with
  | Done =>
      (Ret {| fd := next_fd w; ser_port := port; session := s |},
       {| next_fd := S (next_fd w);
          trace := trace w ++ [Open (next_fd w) port] |})
  | o => (emit (OpenFailed port) ;; ends o ;; raise SerialException) w
  end.

Definition reset_input_buffer (ser : Serial) : M unit :=
  emit (ResetInput (fd ser)) ;; ends (s_reset_input_buffer (session ser)).

Definition reset_output_buffer (ser : Serial) : M unit :=
  emit (ResetOutput (fd ser)) ;; ends (s_reset_output_buffer (session ser)).

Definition write (ser : Serial) (payload : list byte) : M unit :=
  emit (Write (fd ser) payload) ;; ends (s_write (session ser)).

Definition flush (ser : Serial) : M unit :=
  emit (Flush (fd ser)) ;; ends (s_flush (session ser)).

Definition close (ser : Serial) : M unit :=
  emit (Close (fd ser)) ;; ends (s_close (session ser)).

(** [time.sleep(d)].  [rejects] is the exception it raises for the delay
    [d], if it raises one: [ValueError] for a negative delay or a NaN,
    [OverflowError] for one too large, [TypeError] for a value that is
    not a number; [None] for a delay it accepts. *)
Definition sleep (rejects : option exn) : M unit :=
  match rejects with
  | None => mret ()
  | Some e => raise e
  end.

(** [s.encode("utf-8")] *)
Definition encode (s : str) : M (list byte) :=
  match encode_utf8 s with
  | Some bs => mret bs
  | None => raise UnicodeEncodeError
  end.

(** The loop of [read_lines_for] over the [readline] results of its
    window; the end of the window is the deadline. *)
Fixpoint read_lines (window : list readline_result) : list str :=
  match window with
  | [] => []
  | ReadError :: _ => []
  | Line raw :: rest =>
      match raw with
      | [] => read_lines rest
      | _ =>
          let line := strip (decode_ignore raw) in
          match line with
          | [] => read_lines rest
          | _ => line :: read_lines rest
          end
      end
  end.

(** The [k]-th [read_lines_for] on a handle reads the [k]-th window of its
    session. *)
Definition read_lines_for (ser : Serial) (k : nat) : M (list str) :=
  emit (ReadLines (fd ser)) ;;
  mret (read_lines (nth k (s_windows (session ser)) [])).

Definition print (msg : message) : M unit := emit (Print msg).

(** ** Discovery engine *)

Record Board : Type := {
  port : str;
  board_id : str;
  fw : str;
  caps : str;
  desc : str;
}.

Definition DISCOVER_CMD : str := lit "DISCOVER?" ++ [10%N].

(** The first line that starts with ["ID "], if any. *)
Definition first_id_line (lines : list str) : option str :=
  List.find (fun ln => startswith ln (lit "ID ")) lines.

(** "Clear buffers": both resets under one [try], failures ignored. *)
Definition clear_buffers (ser : Serial) : M unit :=
  try_catch (reset_input_buffer ser ;; reset_output_buffer ser)
            (fun _ => mret ()).

(** "Ask for ID": [false] where a handler runs [continue]. *)
Definition ask_for_id (ser : Serial) : M bool :=
  try_catch
    (payload ← encode DISCOVER_CMD;
     write ser payload ;; flush ser ;; mret true)
    (fun _ => mret false).

(** "Read responses briefly": [id_line] after the first read, and after
    the second one if the first gave none. *)
Definition read_id_line (ser : Serial) : M (option str) :=
  lines ← read_lines_for ser 0;
  match first_id_line lines with
  | Some ln => mret (Some ln)
  | None =>
      lines2 ← read_lines_for ser 1;
      mret (first_id_line lines2)
  end.

(** The body of the [try ... finally] of one iteration, on the open
    transport [ser]: the boards it appends.  [settle] is the exception
    [time.sleep] raises for [settle_s], if it raises one. *)
Definition probe_body (settle : option exn) (port_name desc : str) (ser : Serial)
  : M (list Board) :=
  clear_buffers ser ;;
  sleep settle ;;
  asked ← ask_for_id ser;
  if (asked : bool) then
    id_line ← read_id_line ser;
    match id_line with
    | Some ln =>
        parsed ← lift (parse_id_line ln);
        match parsed with
        | Some (bid, fw, caps) =>
            mret [ {| port := port_name; board_id := bid; fw := fw;
                      caps := caps; desc := desc |} ]
        | None => mret []
        end
    | None => mret []
    end
  else mret [].

(** One iteration of the loop over the filtered ports, for the port [p]
    whose transport behaves as [s]. *)
Definition probe (settle : option exn) (p : ListPortInfo) (s : Session)
  : M (list Board) :=
  let port_name := device p in
  let desc := or_empty (description p) in
  opened ← try_catch (A:=option Serial)
             (ser ← open_port port_name s; mret (Some ser))
             (fun _ => mret None);
  match opened with
  | None => mret []
  | Some ser =>
      finally (probe_body settle port_name desc ser)
              (try_catch (close ser) (fun _ => mret ()))
  end.

(** The loop over the filtered ports: the list [boards] it builds. *)
Fixpoint scan (settle : option exn) (ports : list (ListPortInfo * Session))
  : M (list Board) :=
  match ports with
  | [] => mret []
  | (p, s) :: rest =>
      found ← probe settle p s;
      more ← scan settle rest;
      mret (found ++ more)
  end.

(** De-dupe by [board_id]: the loop that fills [seen] and [uniq]. *)
Fixpoint dedupe (seen : gset str) (boards : list Board) : list Board :=
  match boards with
  | [] => []
  | b :: rest =>
      if decide (board_id b ∈ seen) then dedupe seen rest
      else b :: dedupe ({[board_id b]} ∪ seen) rest
  end.

(** [[p for p in ports_all if is_usb_serial_port(p)]] *)
Definition in_scope `{UnicodeData} (ports_all : list (ListPortInfo * Session))
  : list (ListPortInfo * Session) :=
  List.filter (fun c => is_usb_serial_port (fst c)) ports_all.

(** [ports_all] is what [list_ports.comports()] enumerates, each port with
    the behaviour of the transport it gives if opened. *)
Definition discover_boards `{UnicodeData} (settle : option exn)
    (ports_all : list (ListPortInfo * Session)) : M (list Board) :=
  let ports := in_scope ports_all in
  boards ← scan settle ports;
  mret (dedupe ∅ boards).

(** ** Broadcast coordinator *)

(** [sers]: a [dict], which keeps its keys in insertion order;
    [sers[k] = v] replaces the value of a key it has, in place. *)
Definition dict : Type := list (str * Serial).

Fixpoint dict_set (k : str) (v : Serial) (d : dict) : dict :=
  match d with
  | [] => [(k, v)]
  | (k', v') :: d' =>
      if decide (k' = k) then (k, v) :: d' else (k', v') :: dict_set k v d'
  end.

(** [sers.get(k)] *)
Fixpoint dict_get (k : str) (d : dict) : option Serial :=
  match d with
  | [] => None
  | (k', v') :: d' => if decide (k' = k) then Some v' else dict_get k d'
  end.

(** The finalizer of a [serial.Serial] that is dropped while it is open
    ([io.IOBase.__del__]): it calls [close()], and an exception raised in
    a finalizer does not propagate. *)
Definition finalize (ser : Serial) : M unit :=
  try_catch (close ser) (fun _ => mret ()).

(** [sers[k] = v].  The table holds the only reference to its handles, and
    CPython frees an object when its last reference goes: the handle that
    [k] had, if any, is dropped by the assignment and finalized at once. *)
Definition store (k : str) (v : Serial) (sers : dict) : M dict :=
  match dict_get k sers with
  | Some old => finalize old ;; mret (dict_set k v sers)
  | None => mret (dict_set k v sers)
  end.

(** One iteration of the loop that opens the ports, for the board [b]
    whose transport behaves as [s]: the table after it. *)
Definition open_one (b : Board) (s : Session) (sers : dict) : M dict :=
  try_catch
    (ser ← open_port (port b) s;
     store (board_id b) ser sers)
    (fun _ =>
       print (WarnCouldNotOpen (board_id b) (port b)) ;;
       mret sers).

(** The loop that opens the ports; an iteration catches every exception,
    so the table its [finally] clause sees is the one built here. *)
Fixpoint open_all (boards : list (Board * Session)) (sers : dict) : M dict :=
  match boards with
  | [] => mret sers
  | (b, s) :: rest =>
      sers' ← open_one b s sers;
      open_all rest sers'
  end.

(** [lines[-8:]] *)
Definition last8 (lines : list str) : list str :=
  drop (length lines - 8) lines.

Definition write_one (payload : list byte) (item : str * Serial) : M unit :=
  let '(bid, ser) := item in
  try_catch (reset_input_buffer ser) (fun _ => mret ()) ;;
  try_catch (write ser payload)
    (fun e =>
       if bool_decide (e = SerialTimeoutException)
       then print (WarnWriteTimeout bid (ser_port ser))
       else print (WarnWriteError bid (ser_port ser))).

Definition flush_one (item : str * Serial) : M unit :=
  try_catch (flush (snd item)) (fun _ => mret ()).

Definition read_one (item : str * Serial) : M unit :=
  let '(bid, ser) := item in
  lines ← try_catch (A:=list str) (read_lines_for ser 0) (fun _ => mret []);
  match lines with
  | [] => mret ()
  | _ => print (AckLines bid (last8 lines))
  end.

Definition close_one (item : str * Serial) : M unit :=
  try_catch (close (snd item)) (fun _ => mret ()).

(** Each board comes with the behaviour of the transport its port gives
    when opened. *)
Definition broadcast_command (boards : list (Board * Session)) (cmd : str)
  : M unit :=
  sers ← open_all boards [];
  finally
    (match sers with
     | [] => print NoPortsCouldBeOpened
     | _ =>
         sleep None ;;
         payload ← encode (strip cmd ++ [10%N]);
         for_each sers (write_one payload) ;;
         for_each sers flush_one ;;
         (* Best-effort ACK read *)
         sleep None ;;
         for_each sers read_one
     end)
    (for_each sers close_one).

Definition start : world := {| next_fd := 0; trace := [] |}.

(** ** Notions the properties are stated with: the parser *)

(** [tok] occurs in [parts] and [i] is its first position. *)
Definition first_at (tok : str) (parts : list str) (i : nat) : Prop :=
  parts !! i = Some tok ∧ ∀ j, (j < i)%nat → parts !! j ≠ Some tok.

Definition has_space (s : str) : bool := existsb isspace s.

(** The identity line of the wire protocol, as the comment in
    [parse_id_line] gives it:
    ["ID <BOARD_ID> FW <FW_VERSION> CAPS <CAPS...>"]. *)
Definition id_line (bid fw caps : str) : str :=
  lit "ID " ++ bid ++ lit " FW " ++ fw ++ lit " CAPS " ++ caps.

(** ** The filter as a decision list *)

(** The three fields the filter reads, lowercased. *)
Definition desc_of `{UnicodeData} (p : ListPortInfo) : str :=
  lower (or_empty (description p)).
Definition hwid_of `{UnicodeData} (p : ListPortInfo) : str :=
  lower (or_empty (hwid p)).
Definition manuf_of `{UnicodeData} (p : ListPortInfo) : str :=
  lower (or_empty (manufacturer p)).

(** The four accept conditions. *)
Definition names_product `{UnicodeData} (p : ListPortInfo) : bool :=
  str_in (lit "teensy") (desc_of p) || str_in (lit "teensy") (manuf_of p)
  || str_in (lit "teensy") (hwid_of p).
Definition usb_serial_device `{UnicodeData} (p : ListPortInfo) : bool :=
  str_in (lit "usb serial device") (desc_of p).
Definition usb_description `{UnicodeData} (p : ListPortInfo) : bool :=
  str_in (lit "usb") (desc_of p) && negb (str_in (lit "bluetooth") (desc_of p)).
Definition usb_hwid `{UnicodeData} (p : ListPortInfo) : bool :=
  str_in (lit "usb") (hwid_of p) && negb (str_in (lit "bluetooth") (hwid_of p)).

(** The three reject conditions. *)
Definition names_bluetooth `{UnicodeData} (p : ListPortInfo) : bool :=
  str_in (lit "bluetooth") (desc_of p) || str_in (lit "bluetooth") (hwid_of p).
Definition names_modem `{UnicodeData} (p : ListPortInfo) : bool :=
  str_in (lit "modem") (desc_of p) || str_in (lit "modem") (hwid_of p).
Definition bluetooth_serial `{UnicodeData} (p : ListPortInfo) : bool :=
  str_in (lit "standard serial over bluetooth") (desc_of p).

(** The rules of a decision list are tried in order; the first whose
    condition holds gives the verdict. *)
Fixpoint first_match (rules : list (bool * bool)) (default : bool) : bool :=
  match rules with
  | [] => default
  | (cond, verdict) :: rest => if cond then verdict else first_match rest default
  end.

Definition ascii_upper (c : N) : N :=
  if ((97 <=? c) && (c <=? 122))%N then (c - 32)%N else c.

(** A port whose three text fields are put in upper case. *)
Definition upper_fields (p : ListPortInfo) : ListPortInfo :=
  {| device := device p;
     description := option_map (map ascii_upper) (description p);
     hwid := option_map (map ascii_upper) (hwid p);
     manufacturer := option_map (map ascii_upper) (manufacturer p) |}.

Definition ascii_text (x : option str) : bool :=
  forallb is_ascii (or_empty x).

(** A port of which only the text fields are given. *)
Definition port_info (description hwid manufacturer : option str)
  : ListPortInfo :=
  {| device := lit "COM1"; description := description; hwid := hwid;
     manufacturer := manufacturer |}.

(** ** Traces *)

(** The world after the calls [evs] have been made. *)
Definition log (w : world) (evs : list event) : world :=
  {| next_fd := next_fd w; trace := trace w ++ evs |}.

(** The handle an event is a call on, if any. *)
Definition fd_of (ev : event) : option nat :=
  match ev with
  | Open n _ | ResetInput n | ResetOutput n | Write n _ | Flush n
  | ReadLines n | Close n => Some n
  | OpenFailed _ | Print _ => None
  end.

(** The calls made on the handle [n], in order. *)
Definition uses (n : nat) (tr : list event) : list event :=
  List.filter (fun ev => bool_decide (fd_of ev = Some n)) tr.

(** The payloads written to the handle [n], in order. *)
Definition writes_to (n : nat) (tr : list event) : list (list byte) :=
  flat_map (fun ev => match ev with
                      | Write m payload => if decide (m = n) then [payload] else []
                      | _ => []
                      end) tr.

Definition is_close (n : nat) (ev : event) : bool :=
  match ev with
  | Close m => bool_decide (m = n)
  | _ => false
  end.

(** Every handle opened in the trace is closed later in it. *)
Fixpoint all_closed (tr : list event) : bool :=
  match tr with
  | [] => true
  | Open n _ :: rest => existsb (is_close n) rest && all_closed rest
  | _ :: rest => all_closed rest
  end.

(** ** A probe, from the behaviour of its transport *)

(** The challenge went out: the write and the flush both returned. *)
Definition asked (s : Session) : bool :=
  match s_write s, s_flush s with
  | Done, Done => true
  | _, _ => false
  end.

(** The identity line found in the first read window, or else in the
    second. *)
Definition id_line_of (s : Session) : option str :=
  match first_id_line (read_lines (nth 0 (s_windows s) [])) with
  | Some ln => Some ln
  | None => first_id_line (read_lines (nth 1 (s_windows s) []))
  end.

(** The boards the port [p] yields when its transport behaves as [s]. *)
Definition identified (p : ListPortInfo) (s : Session) : list Board :=
  match s_open s with
  | Done =>
      if asked s then
        match id_line_of s with
        | Some ln =>
            match parse_id_line ln with
            | Ret (Some (bid, fw, caps)) =>
                [ {| port := device p; board_id := bid; fw := fw;
                     caps := caps; desc := or_empty (description p) |} ]
            | _ => []
            end
        | None => []
        end
      else []
  | _ => []
  end.

Definition clear_events (n : nat) (s : Session) : list event :=
  ResetInput n
  :: match s_reset_input_buffer s with
     | Done => [ResetOutput n]
     | _ => []
     end.

Definition ask_events (n : nat) (s : Session) : list event :=
  Write n (bytes "DISCOVER?" ++ ["010"%byte])
  :: match s_write s with
     | Done => [Flush n]
     | _ => []
     end.

Definition read_id_events (n : nat) (s : Session) : list event :=
  ReadLines n
  :: match first_id_line (read_lines (nth 0 (s_windows s) [])) with
     | Some _ => []
     | None => [ReadLines n]
     end.

(** The calls of the probe of the port [p] with the handle number [n]. *)
Definition probe_events (settle : option exn) (p : ListPortInfo) (s : Session)
    (n : nat) : list event :=
  match s_open s with
  | Done =>
      Open n (device p)
      :: clear_events n s
      ++ match settle with
         | None =>
             ask_events n s ++ (if asked s then read_id_events n s else [])
         | Some _ => []
         end
      ++ [Close n]
  | _ => [OpenFailed (device p)]
  end.

Definition probe_result (settle : option exn) (p : ListPortInfo) (s : Session)
  : result (list Board) :=
  match s_open s with
  | Done =>
      match settle with
      | None => Ret (identified p s)
      | Some e => Raise e
      end
  | _ => Ret []
  end.

(** The number of handles a probe takes. *)
Definition opens (s : Session) : nat :=
  match s_open s with
  | Done => 1
  | _ => 0
  end.

(** The trace of the loop over the ports, which an exception ends. *)
Fixpoint scan_trace (settle : option exn) (ports : list (ListPortInfo * Session))
    (n : nat) : list event :=
  match ports with
  | [] => []
  | (p, s) :: rest =>
      probe_events settle p s n
      ++ match probe_result settle p s with
         | Ret _ => scan_trace settle rest (n + opens s)
         | Raise _ => []
         end
  end.

(** The result of the loop over the ports: the list [boards], or the
    exception that ends it. *)
Fixpoint scan_result (settle : option exn)
    (ports : list (ListPortInfo * Session)) : result (list Board) :=
  match ports with
  | [] => Ret []
  | (p, s) :: rest =>
      match probe_result settle p s with
      | Ret found =>
          match scan_result settle rest with
          | Ret more => Ret (found ++ more)
          | Raise e => Raise e
          end
      | Raise e => Raise e
      end
  end.

(** The boards the ports report, in the order of the ports. *)
Definition reported (ports : list (ListPortInfo * Session)) : list Board :=
  flat_map (fun c => identified c.1 c.2) ports.

(** ** A broadcast, from the behaviour of its transports *)

Definition ids (boards : list (Board * Session)) : list str :=
  (fun bs => board_id bs.1) <$> boards.

(** The boards whose port opens, in order, each with the handle it gets;
    [n] is the first free handle number. *)
Fixpoint opened (boards : list (Board * Session)) (n : nat)
  : list (Board * Serial) :=
  match boards with
  | [] => []
  | (b, s) :: rest =>
      match s_open s with
      | Done =>
          (b, {| fd := n; ser_port := port b; session := s |})
          :: opened rest (S n)
      | _ => opened rest n
      end
  end.

(** The call that storing a handle under the key [k] of the table [sers]
    brings about: the close of the handle it displaces, if there is one. *)
Definition displaced (k : str) (sers : dict) : list event :=
  match dict_get k sers with
  | Some old => [Close (fd old)]
  | None => []
  end.

(** The calls of the opening loop, started with the table [sers]. *)
Fixpoint open_events (boards : list (Board * Session)) (n : nat)
    (sers : dict) : list event :=
  match boards with
  | [] => []
  | (b, s) :: rest =>
      match s_open s with
      | Done =>
          Open n (port b)
          :: displaced (board_id b) sers
          ++ open_events rest (S n)
               (dict_set (board_id b)
                  {| fd := n; ser_port := port b; session := s |} sers)
      | _ =>
          OpenFailed (port b)
          :: Print (WarnCouldNotOpen (board_id b) (port b))
          :: open_events rest n sers
      end
  end.

(** The table after the handles [hs] have been stored under the ids of
    their boards, in order. *)
Definition table (hs : list (Board * Serial)) (sers : dict) : dict :=
  foldl (fun d bh => dict_set (board_id bh.1) bh.2 d) sers hs.

(** The table a broadcast to [boards] builds, and the trace and the result
    of the whole run. *)
Definition sers_of (boards : list (Board * Session)) : dict :=
  table (opened boards 0) [].

(** The warning printed when the write to a board ends as [o]. *)
Definition warn_write (o : outcome) (bid port : str) : list event :=
  match o with
  | Done => []
  | TimedOut => [Print (WarnWriteTimeout bid port)]
  | Failed => [Print (WarnWriteError bid port)]
  end.

(** The calls of the broadcast on one entry of its table, step by step. *)
Definition write_events (payload : list byte) (item : str * Serial)
  : list event :=
  [ResetInput (fd item.2); Write (fd item.2) payload]
  ++ warn_write (s_write (session item.2)) item.1 (ser_port item.2).

Definition flush_events (item : str * Serial) : list event :=
  [Flush (fd item.2)].

Definition read_events (item : str * Serial) : list event :=
  ReadLines (fd item.2)
  :: match read_lines (nth 0 (s_windows (session item.2)) []) with
     | [] => []
     | lines => [Print (AckLines item.1 (last8 lines))]
     end.

Definition close_events (item : str * Serial) : list event :=
  [Close (fd item.2)].

Definition broadcast_trace (boards : list (Board * Session)) (cmd : str)
  : list event :=
  let sers := sers_of boards in
  open_events boards 0 []
  ++ match sers with
     | [] => [Print NoPortsCouldBeOpened]
     | _ =>
         match encode_utf8 (strip cmd ++ [10%N]) with
         | Some payload =>
             flat_map (write_events payload) sers
             ++ flat_map flush_events sers ++ flat_map read_events sers
         | None => []
         end
     end
  ++ flat_map close_events sers.

Definition broadcast_result (boards : list (Board * Session)) (cmd : str)
  : result unit :=
  match sers_of boards with
  | [] => Ret ()
  | _ =>
      match encode_utf8 (strip cmd ++ [10%N]) with
      | Some _ => Ret ()
      | None => Raise UnicodeEncodeError
      end
  end.

(** The handle numbers of a list of handles, and of a table. *)
Definition fds (hs : list (Board * Serial)) : list nat :=
  (fun bh => fd bh.2) <$> hs.

Definition dict_fds (sers : dict) : list nat :=
  (fun item => fd item.2) <$> sers.

(** No later board of [post] has the id of [b]. *)
Definition last_with_id (b : Board) (post : list (Board * Serial)) : Prop :=
  Forall (fun bh => board_id bh.1 ≠ board_id b) post.

Global Instance last_with_id_dec b post : Decision (last_with_id b post).
Proof. unfold last_with_id. apply _. Defined.

(** The calls a broadcast makes on one handle it opened, the handle [n] of
    the port [p]: kept in the table ([live]), it gets the framed command
    [payload], if that could be encoded, before it is closed; displaced
    from the table, it is closed and nothing else. *)
Definition handle_calls (n : nat) (p : str) (payload : option (list byte))
    (live : bool) : list event :=
  Open n p
  :: (if live then
        match payload with
        | Some bs => [ResetInput n; Write n bs; Flush n; ReadLines n]
        | None => []
        end
      else [])
  ++ [Close n].

(** ** Example transports and boards *)

(** A transport on which every call returns and nothing is received. *)
Definition quiet : Session :=
  {| s_open := Done; s_reset_input_buffer := Done;
     s_reset_output_buffer := Done; s_write := Done; s_flush := Done;
     s_windows := []; s_close := Done |}.

(** A transport whose first read window receives the lines [raw]. *)
Definition answers (raw : list (list byte)) : Session :=
  {| s_open := Done; s_reset_input_buffer := Done;
     s_reset_output_buffer := Done; s_write := Done; s_flush := Done;
     s_windows := [map Line raw]; s_close := Done |}.

(** A port that cannot be opened. *)
Definition unopenable : Session :=
  {| s_open := Failed; s_reset_input_buffer := Done;
     s_reset_output_buffer := Done; s_write := Done; s_flush := Done;
     s_windows := []; s_close := Done |}.

(** A transport that opens and whose writes time out. *)
Definition stalled : Session :=
  {| s_open := Done; s_reset_input_buffer := Done;
     s_reset_output_buffer := Done; s_write := TimedOut; s_flush := Done;
     s_windows := []; s_close := Done |}.

Definition board (bid port : string) : Board :=
  {| port := lit port; board_id := lit bid; fw := lit "1.2";
     caps := lit "wave,row0"; desc := lit "USB Serial Device" |}.
Arguments board (bid port)%_string.

Definition handle (n : nat) (port : string) (s : Session) : Serial :=
  {| fd := n; ser_port := lit port; session := s |}.
Arguments handle n port%_string s.

(** A port that the platform describes as a USB serial device. *)
Definition usb_port (name : string) : ListPortInfo :=
  {| device := lit name; description := Some (lit "USB Serial Device");
     hwid := None; manufacturer := None |}.
Arguments usb_port name%_string.

(** ** Notions for the further properties *)

(** No whitespace at either end. *)
Definition tidy (s : str) : bool :=
  match s with
  | [] => true
  | c :: _ => negb (isspace c) && negb (isspace (List.last s c))
  end.

(** A token of [str.split()]: not empty, no whitespace. *)
Definition token (s : str) : Prop := s ≠ [] ∧ has_space s = false.

(** The ports a run tries to open, in order. *)
Definition attempts (tr : list event) : list str :=
  flat_map (fun ev => match ev with
                      | Open _ p | OpenFailed p => [p]
                      | _ => []
                      end) tr.

(** The number of transports open after [tr], with [k] open before it. *)
Fixpoint level (k : nat) (tr : list event) : nat :=
  match tr with
  | [] => k
  | Open _ _ :: rest => level (S k) rest
  | Close _ :: rest => level (pred k) rest
  | _ :: rest => level k rest
  end.

(** The largest number of transports open at one time during [tr], with
    [k] open before it. *)
Fixpoint peak (k : nat) (tr : list event) : nat :=
  match tr with
  | [] => k
  | Open _ _ :: rest => peak (S k) rest
  | Close _ :: rest => Nat.max k (peak (pred k) rest)
  | _ :: rest => peak k rest
  end.

(** The challenge as it goes over the wire. *)
Definition challenge : list byte := bytes "DISCOVER?" ++ ["010"%byte].

(** A runtime whose case mapping leaves text outside ASCII as it is; the
    worked examples use ASCII text only. *)
Definition ascii_case : UnicodeData := {| unicode_lower := fun s => s |}.

(** The step of a broadcast an event belongs to: opening the ports (0),
    clearing and writing (1), flushing (2), reading the acknowledgements
    (3), closing (4). *)
Definition phase (ev : event) : nat :=
  match ev with
  | Open _ _ | OpenFailed _ | Print (WarnCouldNotOpen _ _) => 0
  | ResetInput _ | ResetOutput _ | Write _ _
  | Print NoPortsCouldBeOpened
  | Print (WarnWriteTimeout _ _) | Print (WarnWriteError _ _) => 1
  | Flush _ => 2
  | ReadLines _ | Print (AckLines _ _) => 3
  | Close _ => 4
  end.

(** The calls of an opening loop in which no port opens. *)
Definition failed_opens (boards : list (Board * Session)) : list event :=
  flat_map (fun bs => [OpenFailed (port bs.1);
                       Print (WarnCouldNotOpen (board_id bs.1) (port bs.1))])
           boards.

(** ** Entry point *)

(** What [ap.parse_args()] returns: the subcommand, which is required, with
    its options.  [--delay], [--period], [--speed] and [--map] are
    [int]s; [--only] is [None] when absent and a list, which may be empty,
    when given. *)
Inductive Namespace : Type :=
  | cmd_ports
  | cmd_list
  | cmd_sync_waveall (delay period speed : Z) (only : option (list str))
  | cmd_sync_wave (map delay period speed : Z) (only : option (list str))
  | cmd_sync_row0 (map delay : Z) (only : option (list str))
  | cmd_sync_stop (delay : Z) (only : option (list str)).

(** [getattr(args, "only", None)] *)
Definition only_of (args : Namespace) : option (list str) :=
  match args with
  | cmd_ports | cmd_list => None
  | cmd_sync_waveall _ _ _ only | cmd_sync_wave _ _ _ _ only
  | cmd_sync_row0 _ _ only | cmd_sync_stop _ only => only
  end.

(** [str(n)] of an [int], as an f-string formats it: its decimal digits,
    after a minus sign if it is negative. *)
Definition str_of_int (n : Z) : str :=
  lit (NilZero.string_of_int (Z.to_int n)).

(** The chain of [if args.cmd == ...] that builds [cmd]; [None] is its
    [else] branch. *)
Definition command_of (args : Namespace) : option str :=
  match args with
  | cmd_sync_waveall delay period speed _ =>
      Some (lit "sync waveall " ++ str_of_int delay ++ lit " "
            ++ str_of_int period ++ lit " " ++ str_of_int speed)
  | cmd_sync_wave map delay period speed _ =>
      Some (lit "sync wave " ++ str_of_int map ++ lit " "
            ++ str_of_int delay ++ lit " " ++ str_of_int period ++ lit " "
            ++ str_of_int speed)
  | cmd_sync_row0 map delay _ =>
      Some (lit "sync row0 " ++ str_of_int map ++ lit " " ++ str_of_int delay)
  | cmd_sync_stop delay _ => Some (lit "sync stop " ++ str_of_int delay)
  | cmd_ports | cmd_list => None
  end.

(** What [list_all_ports] and [main] print themselves, line by line; a
    line built from values is given by these values. *)
Inductive console : Type :=
  | NoSerialPortsFound
  | PortLine (device : str) (description hwid : option str)
  | NoBoardsDiscovered
  | TryPorts
  | DiscoveredBoards
  | BoardLine (b : Board)
  | NoMatchingBoards
  | UnknownCommand
  | TargetBoards
  | TargetLine (b : Board)
  | Broadcasting (cmd : str).

(** [ports] is what [list_ports.comports()] enumerates. *)
Definition list_all_ports (ports : list ListPortInfo) : list console :=
  match ports with
  | [] => [NoSerialPortsFound]
  | _ => (fun p => PortLine (device p) (description p) (hwid p)) <$> ports
  end.

(** The end of [main], from the chain that builds [cmd]: the lines it
    prints and its exit status.  [reopen b] is the behaviour of the
    transport that the port of the board [b] gives when the broadcast
    opens it. *)
Definition send (args : Namespace) (boards : list Board)
    (reopen : Board → Session) : M (list console * Z) :=
  match command_of args with
  | None => mret ([UnknownCommand], 2%Z)
  | Some cmd =>
      broadcast_command ((fun b => (b, reopen b)) <$> boards) cmd ;;
      mret (TargetBoards :: (TargetLine <$> boards) ++ [Broadcasting cmd],
            0%Z)
  end.

(** [main], on the arguments [args]: the lines it has printed itself when
    it returns, and its exit status.  Discovery runs with its default
    settle delay, which [time.sleep] accepts. *)
Definition main `{UnicodeData} (args : Namespace)
    (ports_all : list (ListPortInfo * Session)) (reopen : Board → Session)
  : M (list console * Z) :=
  match args with
  | cmd_ports => mret (list_all_ports (fst <$> ports_all), 0%Z)
  | _ =>
      boards ← discover_boards None ports_all;
      match boards with
      | [] => mret ([NoBoardsDiscovered; TryPorts], 2%Z)
      | _ =>
          match args with
          | cmd_list => mret (DiscoveredBoards :: (BoardLine <$> boards), 0%Z)
          | _ =>
              (* Filter by --only *)
              match only_of args with
              | None | Some [] => send args boards reopen
              | Some only =>
                  let want : gset str := list_to_set only in
                  let boards :=
                    List.filter (fun b => bool_decide (board_id b ∈ want))
                                boards in
                  match boards with
                  | [] => mret ([NoMatchingBoards], 2%Z)
                  | _ => send args boards reopen
                  end
              end
          end
      end
  end.

(** ** Notions the properties of the entry point are stated with *)

(** The boards discovery returns, from the behaviour of the transports. *)
Definition discovered `{UnicodeData}
    (ports_all : list (ListPortInfo * Session)) : list Board :=
  dedupe ∅ (reported (in_scope ports_all)).

(** The boards a sync subcommand addresses: all of [boards], or those
    whose id is among the ids given with [--only] if there is one. *)
Definition targets (only : option (list str)) (boards : list Board)
  : list Board :=
  match only with
  | None | Some [] => boards
  | Some ids => List.filter (fun b => bool_decide (board_id b ∈ ids)) boards
  end.

(** A subcommand that broadcasts. *)
Definition is_sync (args : Namespace) : bool :=
  match args with
  | cmd_ports | cmd_list => false
  | _ => true
  end.

(** ASCII text as bytes. *)
Definition ascii_bytes (s : str) : list byte := byte_of <$> s.

(** The calls of a broadcast that starts when [n] handles have been
    opened before it. *)
Definition broadcast_trace_at (n : nat) (boards : list (Board * Session))
    (cmd : str) : list event :=
  let sers := table (opened boards n) [] in
  open_events boards n []
  ++ match sers with
     | [] => [Print NoPortsCouldBeOpened]
     | _ =>
         match encode_utf8 (strip cmd ++ [10%N]) with
         | Some payload =>
             flat_map (write_events payload) sers
             ++ flat_map flush_events sers ++ flat_map read_events sers
         | None => []
         end
     end
  ++ flat_map close_events sers.

(** Every payload written in [tr]. *)
Definition payloads (tr : list event) : list (list byte) :=
  flat_map (fun ev => match ev with
                      | Write _ payload => [payload]
                      | _ => []
                      end) tr.

(** [args] with the value of its [--only] option replaced. *)
Definition with_only (only : option (list str)) (args : Namespace)
  : Namespace :=
  match args with
  | cmd_ports => cmd_ports
  | cmd_list => cmd_list
  | cmd_sync_waveall delay period speed _ =>
      cmd_sync_waveall delay period speed only
  | cmd_sync_wave map delay period speed _ =>
      cmd_sync_wave map delay period speed only
  | cmd_sync_row0 map delay _ => cmd_sync_row0 map delay only
  | cmd_sync_stop delay _ => cmd_sync_stop delay only
  end.

(** The boards whose port opens when the broadcast opens it. *)
Definition reachable (reopen : Board → Session) (boards : list Board)
  : list Board :=
  List.filter (fun b => match s_open (reopen b) with
                        | Done => true
                        | _ => false
                        end) boards.

(** The ports up to and including the first one that opens. *)
Fixpoint until_open (ports : list (ListPortInfo * Session))
  : list (ListPortInfo * Session) :=
  match ports with
  | [] => []
  | (p, s) :: rest =>
      (p, s) :: match s_open s with
                | Done => []
                | _ => until_open rest
                end
  end.

(** * Properties *)

(** ** Text *)

Lemma split_acc_token (tok cur rest : str) :
  has_space tok = false →
  split_acc cur (tok ++ rest) = split_acc (cur ++ tok) rest.
Proof.
  revert cur. induction tok as [|c tok IH]; intros cur Hs; simpl.
  - by rewrite app_nil_r.
  - simpl in Hs. apply orb_false_iff in Hs as [Hc Htok].
    rewrite Hc, IH by done. by rewrite <- app_assoc.
Qed.

Lemma split_token (tok : str) (c : N) (rest : str) :
  tok ≠ [] → has_space tok = false → isspace c = true →
  split (tok ++ c :: rest) = tok :: split rest.
Proof.
  intros Hne Hs Hc. unfold split.
  rewrite split_acc_token by done. simpl. rewrite Hc.
  by destruct tok.
Qed.

Lemma split_space (c : N) (rest : str) :
  isspace c = true → split (c :: rest) = split rest.
Proof. intros Hc. unfold split. simpl. by rewrite Hc. Qed.

(** ** Response parser *)

Section index_facts.
Implicit Types (x : str) (l : list str) (i : nat).

Lemma index_Ret x l i : index x l = Ret i ↔ first_at x l i.
Proof.
  revert i. induction l as [|y l IH]; intros i; simpl.
  - split; [done|]. by intros [? _].
  - case_bool_decide as Hy.
    + subst y. split.
      * intros [= <-]. split; [done|]. intros j Hj. lia.
      * intros [Hi Hmin]. destruct i as [|i]; [done|].
        exfalso. apply (Hmin 0%nat); [lia|done].
    + destruct (index x l) as [k|e] eqn:Hk; simpl.
      * split.
        -- intros [= <-]. destruct (proj1 (IH k) eq_refl) as [Hl Hmin].
           split; [done|]. intros [|j] Hj; simpl.
           ++ congruence.
           ++ apply Hmin. lia.
        -- intros [Hi Hmin]. destruct i as [|i]; simpl in Hi; [congruence|].
           f_equal. assert (Ret (A:=nat) k = Ret i) as [= ->]; [|done].
           apply IH. split; [done|]. intros j Hj. apply (Hmin (S j)). lia.
      * split; [done|]. intros [Hi Hmin].
        destruct i as [|i]; simpl in Hi; [congruence|].
        assert (Raise (A:=nat) e = Ret i); [|done].
        apply IH. split; [done|]. intros j Hj. apply (Hmin (S j)). lia.
Qed.

Lemma index_Raise x l e : index x l = Raise e → e = ValueError ∧ x ∉ l.
Proof.
  induction l as [|y l IH]; simpl.
  - intros [= <-]. split; [done|]. apply not_elem_of_nil.
  - case_bool_decide as Hy; [done|].
    destruct (index x l) as [k|e'] eqn:Hk; simpl; [done|].
    intros [= <-]. destruct IH as [-> Hn]; [done|]. split; [done|].
    rewrite not_elem_of_cons. split; [congruence|done].
Qed.

Lemma index_elem_of x l : x ∈ l → ∃ i, index x l = Ret i.
Proof.
  intros Hin. destruct (index x l) as [i|e] eqn:Hi; [by exists i|].
  by apply index_Raise in Hi as [_ ?].
Qed.

Lemma first_at_elem_of x l i : first_at x l i → x ∈ l.
Proof. intros [Hi _]. by eapply list_elem_of_lookup_2. Qed.

Lemma first_at_lt x l i : first_at x l i → (i < length l)%nat.
Proof. intros [Hi _]. by eapply lookup_lt_Some. Qed.

End index_facts.

(** What [parse_id_line] returns, by cases on the tokens of the line. *)
Lemma parse_id_line_cases (line : str) :
  let parts := split line in
  (parse_id_line line = Ret None ∧
   ¬ (startswith line (lit "ID ") = true ∧
      ∃ i k, first_at (lit "FW") parts i ∧ first_at (lit "CAPS") parts k
             ∧ (i + 1 < length parts)%nat))
  ∨ (∃ i k bid fw,
       startswith line (lit "ID ") = true ∧
       first_at (lit "FW") parts i ∧ first_at (lit "CAPS") parts k ∧
       parts !! 1%nat = Some bid ∧ parts !! (i + 1)%nat = Some fw ∧
       parse_id_line line
       = Ret (Some (bid, fw, join (lit " ") (drop (k + 1) parts)))).
Proof.
  intros parts. unfold parse_id_line. fold parts.
  destruct (startswith line (lit "ID ")) eqn:Hpre; simpl;
    [|left; split; [done|]; by intros [? _]].
  destruct (index (lit "FW") parts) as [i|e] eqn:Hi; simpl.
  2: { apply index_Raise in Hi as [-> Hnot]. simpl. left. split; [done|].
       intros (_ & i & k & Hfw & _). by apply first_at_elem_of in Hfw. }
  destruct (index (lit "CAPS") parts) as [k|e] eqn:Hk; simpl.
  2: { apply index_Raise in Hk as [-> Hnot]. simpl. left. split; [done|].
       intros (_ & i' & k & _ & Hcaps & _).
       by apply first_at_elem_of in Hcaps. }
  apply index_Ret in Hi as Hfw. apply index_Ret in Hk as Hcaps.
  destruct (length parts <? 2)%nat eqn:Hlen2; simpl.
  { left. split; [done|]. intros (_ & i' & k' & Hfw' & _ & Hlt).
    apply Nat.ltb_lt in Hlen2. lia. }
  destruct (length parts <=? i + 1)%nat eqn:Hlen; simpl.
  { left. split; [done|]. intros (_ & i' & k' & Hfw' & _ & Hlt).
    apply index_Ret in Hfw'. rewrite Hi in Hfw'. injection Hfw' as <-.
    apply Nat.leb_le in Hlen. lia. }
  apply Nat.ltb_ge in Hlen2. apply Nat.leb_gt in Hlen.
  destruct (lookup_lt_is_Some_2 parts 1%nat) as [bid Hbid]; [lia|].
  destruct (lookup_lt_is_Some_2 parts (i + 1)%nat) as [fw Hfwv]; [lia|].
  right. exists i, k, bid, fw. unfold getitem. rewrite Hbid, Hfwv. simpl.
  repeat split; try done; try apply Hfw; try apply Hcaps.
  destruct (k + 1 <? length parts)%nat eqn:Hk1; [done|].
  apply Nat.ltb_ge in Hk1. by rewrite drop_ge.
Qed.

(** C2. [parse_id_line] never raises.  It returns an identity exactly when
    the line starts with ["ID "] and its whitespace-separated tokens hold
    both ["FW"] and ["CAPS"], with a token after the first ["FW"]; otherwise
    it returns [None].  The identity it returns has the token at index 1 as
    board id, the token after the first ["FW"] as firmware version, and the
    tokens after the first ["CAPS"] joined by single spaces as capabilities
    (the empty string when ["CAPS"] is the last token).  The lines
    ["ID X FW"], ["HELLO there"] and [""] give [None]. *)
Theorem parse_id_line_spec :
  (∀ line : str,
     let parts := split line in
     ∃ r : option Identity,
       parse_id_line line = Ret r ∧
       (is_Some r ↔
          startswith line (lit "ID ") = true ∧
          lit "FW" ∈ parts ∧ lit "CAPS" ∈ parts ∧
          ∃ i, first_at (lit "FW") parts i ∧ (i + 1 < length parts)%nat) ∧
       (∀ bid fw caps,
          r = Some (bid, fw, caps) →
          parts !! 1%nat = Some bid ∧
          (∃ i, first_at (lit "FW") parts i ∧ parts !! (i + 1)%nat = Some fw) ∧
          (∃ k, first_at (lit "CAPS") parts k ∧
                caps = join (lit " ") (drop (k + 1) parts) ∧
                ((k + 1)%nat = length parts → caps = []))))
  ∧ parse_id_line (lit "ID X FW") = Ret None
  ∧ parse_id_line (lit "HELLO there") = Ret None
  ∧ parse_id_line (lit "") = Ret None.
Proof.
  split; [|by vm_compute].
  intros line. cbv zeta.
  pose proof (parse_id_line_cases line) as Hcases. cbv zeta in Hcases.
  destruct Hcases as
    [[Hnone Hnot] | (i & k & bid & fw & Hpre & Hfw & Hcaps & Hbid & Hfwv & Hsome)].
  - exists None. split; [done|]. split.
    + split; [by intros [? ?]|]. intros (Hpre & _ & Hin & i & Hfw & Hlt).
      exfalso. apply Hnot. split; [done|].
      destruct (index_elem_of _ _ Hin) as [k Hk]. apply index_Ret in Hk.
      by exists i, k.
    + by intros.
  - eexists. split; [exact Hsome|]. split.
    + split; [|by eauto]. intros _. split; [done|].
      split; [by eapply first_at_elem_of|].
      split; [by eapply first_at_elem_of|].
      exists i. split; [done|]. apply lookup_lt_Some in Hfwv. lia.
    + intros bid' fw' caps' [= <- <- <-].
      split; [done|]. split; [by exists i|].
      exists k. split; [done|]. split; [done|].
      intros Hlast. by rewrite drop_ge by lia.
Qed.

Lemma split_id_line (bid fw caps : str) :
  bid ≠ [] → has_space bid = false → fw ≠ [] → has_space fw = false →
  split (id_line bid fw caps)
  = [lit "ID"; bid; lit "FW"; fw; lit "CAPS"] ++ split caps.
Proof.
  intros Hb Hbs Hf Hfs. unfold id_line.
  change (lit "ID " ++ ?X) with (lit "ID" ++ 32%N :: X).
  change (lit " FW " ++ ?X) with (32%N :: (lit "FW" ++ 32%N :: X)).
  change (lit " CAPS " ++ ?X) with (32%N :: (lit "CAPS" ++ 32%N :: X)).
  rewrite (split_token (lit "ID")) by done.
  rewrite (split_token bid) by done.
  rewrite (split_token (lit "FW")) by done.
  rewrite (split_token fw) by done.
  rewrite (split_token (lit "CAPS")) by done.
  done.
Qed.

(** C3, as amended.  For a non-empty board id without whitespace that is
    neither ["FW"] nor ["CAPS"], a non-empty firmware version without
    whitespace that is not ["CAPS"], and any capabilities text,
    [parse_id_line] on the identity line returns the board id, the firmware
    version, and the capabilities with their tokens joined by single
    spaces. *)
Theorem parse_id_line_roundtrip (bid fw caps : str) :
  bid ≠ [] → has_space bid = false →
  bid ≠ lit "FW" → bid ≠ lit "CAPS" →
  fw ≠ [] → has_space fw = false → fw ≠ lit "CAPS" →
  parse_id_line (id_line bid fw caps)
  = Ret (Some (bid, fw, join (lit " ") (split caps))).
Proof.
  intros Hb Hbs Hb1 Hb2 Hf Hfs Hf1. unfold parse_id_line.
  change (startswith (id_line bid fw caps) (lit "ID ")) with true.
  rewrite split_id_line by done. cbn [negb].
  simpl index.
  rewrite (bool_decide_eq_false_2 (bid = lit "FW")) by done.
  rewrite (bool_decide_eq_false_2 (bid = lit "CAPS")) by done.
  rewrite (bool_decide_eq_false_2 (fw = lit "CAPS")) by done.
  simpl. by destruct (split caps).
Qed.

(** C3, the claim as stated fails: an empty board id or firmware version,
    or one that is itself ["FW"] or ["CAPS"], is not recovered. *)
Lemma parse_id_line_roundtrip_counterexample :
  ¬ (∀ bid fw caps : str,
       has_space bid = false → has_space fw = false →
       parse_id_line (id_line bid fw caps)
       = Ret (Some (bid, fw, join (lit " ") (split caps))))
  ∧ parse_id_line (id_line (lit "") (lit "1.2") (lit "wave"))
    = Ret (Some (lit "FW", lit "1.2", lit "wave"))
  ∧ parse_id_line (id_line (lit "FW") (lit "1.2") (lit "wave"))
    = Ret (Some (lit "FW", lit "FW", lit "wave"))
  ∧ parse_id_line (id_line (lit "CAPS") (lit "1.2") (lit "wave"))
    = Ret (Some (lit "CAPS", lit "1.2", lit "FW 1.2 CAPS wave"))
  ∧ parse_id_line (id_line (lit "B1") (lit "") (lit "wave"))
    = Ret (Some (lit "B1", lit "CAPS", lit "wave"))
  ∧ parse_id_line (id_line (lit "B1") (lit "CAPS") (lit "wave"))
    = Ret (Some (lit "B1", lit "CAPS", lit "CAPS wave")).
Proof.
  split; [|by vm_compute].
  intros Hall.
  specialize (Hall (lit "") (lit "1.2") (lit "wave") eq_refl eq_refl).
  vm_compute in Hall. discriminate Hall.
Qed.

Lemma parse_id_line_roundtrip_witness :
  parse_id_line
    (id_line (lit "B1_BACK_LEFT") (lit "1.2") (lit "wave,  row0 x"))
  = Ret (Some (lit "B1_BACK_LEFT", lit "1.2",
               join (lit " ") (split (lit "wave,  row0 x")))).
Proof.
  apply (parse_id_line_roundtrip
           (lit "B1_BACK_LEFT") (lit "1.2") (lit "wave,  row0 x"));
    vm_compute; congruence.
Defined.

(** ** Endpoint filter *)

Section filter.
Context `{UnicodeData}.

Lemma is_usb_serial_port_accepts (p : ListPortInfo) :
  is_usb_serial_port p
  = names_product p || usb_serial_device p || usb_description p || usb_hwid p.
Proof.
  unfold is_usb_serial_port, names_product, usb_serial_device,
    usb_description, usb_hwid, desc_of, hwid_of, manuf_of.
  repeat match goal with
         | |- context [str_in ?a ?b] =>
             let x := fresh "c" in generalize (str_in a b); intros x
         end.
  repeat match goal with c : bool |- _ => destruct c end; reflexivity.
Qed.

Lemma ascii_lower_upper (c : N) : ascii_lower (ascii_upper c) = ascii_lower c.
Proof.
  unfold ascii_lower, ascii_upper.
  destruct (N.leb_spec 97 c), (N.leb_spec c 122); cbn [andb];
    repeat match goal with
           | |- context [(?a <=? ?b)%N] => destruct (N.leb_spec a b)
           end; cbn [andb]; lia.
Qed.

Lemma is_ascii_upper (c : N) : is_ascii (ascii_upper c) = is_ascii c.
Proof.
  unfold is_ascii, ascii_upper.
  destruct (N.leb_spec 97 c), (N.leb_spec c 122); cbn [andb];
    repeat match goal with
           | |- context [(?a <? ?b)%N] => destruct (N.ltb_spec a b)
           end; try reflexivity; lia.
Qed.

Lemma lower_upper (x : option str) :
  ascii_text x = true →
  lower (or_empty (option_map (map ascii_upper) x)) = lower (or_empty x).
Proof.
  unfold ascii_text. destruct x as [s|]; simpl; [|done].
  intros Hs. unfold lower.
  assert (forallb is_ascii (map ascii_upper s) = true) as ->.
  { induction s as [|c s IH]; simpl in *; [done|].
    apply andb_true_iff in Hs as [Hc Hs].
    by rewrite is_ascii_upper, Hc, IH. }
  rewrite Hs. clear Hs.
  induction s as [|c s IH]; simpl; [done|].
  by rewrite ascii_lower_upper, IH.
Qed.

End filter.

(** C7. [is_usb_serial_port] is a function of the lowercased description,
    hardware id and manufacturer of the port: it is the verdict of the first
    rule that matches, in the order product token in any field, 
    "usb serial device" in the description, "usb" without "bluetooth" in the
    description, "usb" without "bluetooth" in the hardware id (accept), then
    the bluetooth, modem and bluetooth-serial rules and the default
    (reject).  Ports whose fields agree up to case get the same verdict.  The
    description "USB Serial Device (COM7)" is accepted whatever the other
    fields; the description "Standard Serial over Bluetooth link (COM4)" and
    a hardware id with "VID_BLUETOOTH", the other fields empty, are
    rejected; a manufacturer with the product token is accepted, also with
    an empty description. *)
Theorem is_usb_serial_port_spec :
  (∀ (U : UnicodeData) (p : ListPortInfo),
     is_usb_serial_port p
     = first_match
         [ (names_product p, true); (usb_serial_device p, true);
           (usb_description p, true); (usb_hwid p, true);
           (names_bluetooth p, false); (names_modem p, false);
           (bluetooth_serial p, false) ] false)
  ∧ (∀ (U : UnicodeData) (p q : ListPortInfo),
       desc_of p = desc_of q → hwid_of p = hwid_of q →
       manuf_of p = manuf_of q →
       is_usb_serial_port p = is_usb_serial_port q)
  ∧ (∀ (U : UnicodeData) (p : ListPortInfo),
       ascii_text (description p) = true → ascii_text (hwid p) = true →
       ascii_text (manufacturer p) = true →
       is_usb_serial_port (upper_fields p) = is_usb_serial_port p)
  ∧ (∀ (U : UnicodeData) (h m : option str),
       is_usb_serial_port
         (port_info (Some (lit "USB Serial Device (COM7)")) h m) = true)
  ∧ (∀ U : UnicodeData,
       is_usb_serial_port
         (port_info (Some (lit "Standard Serial over Bluetooth link (COM4)"))
            None None) = false)
  ∧ (∀ U : UnicodeData,
       is_usb_serial_port
         (port_info None (Some (lit "BTHENUM\VID_BLUETOOTH&PID_0001")) None)
       = false
       ∧ is_usb_serial_port
           (port_info None (Some (lit "USB\VID_BLUETOOTH")) None) = false)
  ∧ (∀ (U : UnicodeData) (p : ListPortInfo),
       str_in (lit "bluetooth") (hwid_of p) = true → usb_hwid p = false)
  ∧ (∀ (U : UnicodeData) (p : ListPortInfo),
       str_in (lit "teensy") (manuf_of p) = true →
       is_usb_serial_port p = true)
  ∧ (∀ (U : UnicodeData) (h : option str),
       is_usb_serial_port (port_info (Some (lit "")) h (Some (lit "Teensyduino")))
       = true).
Proof.
  repeat apply conj.
  - intros U p. reflexivity.
  - intros U p q Hd Hh Hm. rewrite !is_usb_serial_port_accepts.
    unfold names_product, usb_serial_device, usb_description, usb_hwid.
    by rewrite Hd, Hh, Hm.
  - intros U p Hd Hh Hm. rewrite !is_usb_serial_port_accepts.
    unfold names_product, usb_serial_device, usb_description, usb_hwid,
      desc_of, hwid_of, manuf_of, upper_fields. simpl.
    by rewrite !lower_upper.
  - intros U h m. rewrite is_usb_serial_port_accepts.
    assert (usb_serial_device
              (port_info (Some (lit "USB Serial Device (COM7)")) h m) = true)
      as -> by reflexivity.
    by rewrite orb_true_r.
  - intros U. reflexivity.
  - intros U. split; reflexivity.
  - intros U p Hbt. unfold usb_hwid. rewrite Hbt. apply andb_false_r.
  - intros U p Hm. rewrite is_usb_serial_port_accepts. unfold names_product.
    rewrite Hm. by rewrite orb_true_r.
  - intros U h. rewrite is_usb_serial_port_accepts.
    assert (names_product
              (port_info (Some (lit "")) h (Some (lit "Teensyduino"))) = true)
      as ->; [|done].
    unfold names_product.
    assert (str_in (lit "teensy")
              (manuf_of (port_info (Some (lit "")) h (Some (lit "Teensyduino"))))
            = true) as -> by reflexivity.
    by rewrite orb_true_r.
Qed.

(** C9. The reject rules of the filter are redundant: [is_usb_serial_port]
    is true exactly when one of its four accept conditions holds, and it is
    equal, on every port, to the filter with the reject rules deleted. *)
Theorem reject_rules_redundant `{UnicodeData} (p : ListPortInfo) :
  is_usb_serial_port p = accept_rules_only p
  ∧ (is_usb_serial_port p = true ↔
       (str_in (lit "teensy") (desc_of p) = true
        ∨ str_in (lit "teensy") (hwid_of p) = true
        ∨ str_in (lit "teensy") (manuf_of p) = true)
       ∨ str_in (lit "usb serial device") (desc_of p) = true
       ∨ (str_in (lit "usb") (desc_of p) = true
          ∧ str_in (lit "bluetooth") (desc_of p) = false)
       ∨ (str_in (lit "usb") (hwid_of p) = true
          ∧ str_in (lit "bluetooth") (hwid_of p) = false)).
Proof.
  split.
  - unfold is_usb_serial_port, accept_rules_only.
    repeat match goal with
           | |- context [str_in ?a ?b] =>
               let x := fresh "c" in generalize (str_in a b); intros x
           end.
    repeat match goal with c : bool |- _ => destruct c end; reflexivity.
  - rewrite is_usb_serial_port_accepts.
    unfold names_product, usb_serial_device, usb_description, usb_hwid.
    repeat match goal with
           | |- context [str_in ?a ?b] =>
               let x := fresh "c" in generalize (str_in a b); intros x
           end.
    repeat match goal with c : bool |- _ => destruct c end;
      simpl; intuition congruence.
Qed.

(** ** Running the I/O monad *)

Lemma log_nil (w : world) : log w [] = w.
Proof. destruct w. unfold log. simpl. by rewrite app_nil_r. Qed.

Lemma log_log (w : world) (a b : list event) : log (log w a) b = log w (a ++ b).
Proof. unfold log. simpl. by rewrite app_assoc. Qed.

Lemma emit_run (ev : event) (w : world) : emit ev w = (Ret (), log w [ev]).
Proof. reflexivity. Qed.

Lemma bind_run {A B} (m : M A) (f : A → M B) (w w' : world) (a : A) :
  m w = (Ret a, w') → (m ≫= f) w = f a w'.
Proof. intros Hm. unfold mbind, M_bind. by rewrite Hm. Qed.

Lemma bind_raise {A B} (m : M A) (f : A → M B) (w w' : world) (e : exn) :
  m w = (Raise e, w') → (m ≫= f) w = (Raise e, w').
Proof. intros Hm. unfold mbind, M_bind. by rewrite Hm. Qed.

Lemma for_each_run {A} (body : A → M unit) (ev : A → list event) (l : list A) :
  (∀ x w, body x w = (Ret (), log w (ev x))) →
  ∀ w, for_each l body w = (Ret (), log w (flat_map ev l)).
Proof.
  intros Hbody. induction l as [|x l IH]; intros w; simpl.
  - by rewrite log_nil.
  - erewrite bind_run by apply Hbody. by rewrite IH, log_log.
Qed.

(** Runs straight-line I/O code on a world and puts its trace in the form
    [trace w ++ evs]. *)
Ltac run_io :=
  repeat (progress
            (unfold try_catch, finally, mbind, M_bind, mret, M_ret, emit,
               raise, print, ends, lift, sleep, log; simpl));
  rewrite <- ?app_assoc; simpl; try reflexivity.

(** A call under [try ... except Exception: pass] always returns. *)
Lemma guarded_run (ev : event) (o : outcome) (w : world) :
  try_catch (emit ev ;; ends o) (fun _ => mret ()) w = (Ret (), log w [ev]).
Proof. by destruct o. Qed.

Lemma write_one_run payload item w :
  write_one payload item w = (Ret (), log w (write_events payload item)).
Proof.
  destruct item as [bid ser]. unfold write_one, write_events.
  unfold reset_input_buffer. erewrite bind_run by apply guarded_run.
  unfold write. simpl.
  destruct (s_write (session ser)); run_io.
Qed.

Lemma flush_one_run item w :
  flush_one item w = (Ret (), log w (flush_events item)).
Proof. unfold flush_one, flush. apply guarded_run. Qed.

Lemma close_one_run item w :
  close_one item w = (Ret (), log w (close_events item)).
Proof. unfold close_one, close. apply guarded_run. Qed.

Lemma read_one_run item w :
  read_one item w = (Ret (), log w (read_events item)).
Proof.
  destruct item as [bid ser]. unfold read_one, read_events, read_lines_for.
  simpl. destruct (read_lines (nth 0 (s_windows (session ser)) [])); run_io.
Qed.

Lemma finalize_run ser w : finalize ser w = (Ret (), log w [Close (fd ser)]).
Proof. unfold finalize, close. apply guarded_run. Qed.

Lemma store_run k v sers w :
  store k v sers w = (Ret (dict_set k v sers), log w (displaced k sers)).
Proof.
  unfold store, displaced. destruct (dict_get k sers) as [old|].
  - by erewrite bind_run by apply finalize_run.
  - by rewrite log_nil.
Qed.

Lemma open_one_run b s sers w :
  open_one b s sers w
  = match s_open s with
    | Done =>
        (Ret (dict_set (board_id b)
                {| fd := next_fd w; ser_port := port b; session := s |} sers),
         {| next_fd := S (next_fd w);
            trace := trace w ++ Open (next_fd w) (port b)
                             :: displaced (board_id b) sers |})
    | _ =>
        (Ret sers,
         log w [OpenFailed (port b);
                Print (WarnCouldNotOpen (board_id b) (port b))])
    end.
Proof.
  unfold open_one, open_port. destruct (s_open s); [|run_io..].
  unfold try_catch, mbind, M_bind. rewrite store_run.
  unfold log. cbn [next_fd trace]. by rewrite <- app_assoc.
Qed.

Lemma open_all_run boards sers w :
  open_all boards sers w
  = (Ret (table (opened boards (next_fd w)) sers),
     {| next_fd := next_fd w + length (opened boards (next_fd w));
        trace := trace w ++ open_events boards (next_fd w) sers |}).
Proof.
  revert sers w. induction boards as [|[b s] rest IH]; intros sers w; simpl.
  - destruct w. simpl. by rewrite Nat.add_0_r, app_nil_r.
  - unfold mbind, M_bind. rewrite open_one_run.
    destruct (s_open s); rewrite IH; simpl;
      rewrite <- ?app_assoc; simpl; repeat f_equal; lia.
Qed.

Lemma finally_run {A} (body : M A) (cleanup : M unit) (w w1 : world)
    (r : result A) (evs : list event) :
  body w = (r, w1) → (∀ w', cleanup w' = (Ret (), log w' evs)) →
  finally body cleanup w = (r, log w1 evs).
Proof. intros Hb Hc. unfold finally. by rewrite Hb, Hc. Qed.

(** The run of a broadcast from the start: its result and its trace. *)
Lemma broadcast_run boards cmd :
  broadcast_command boards cmd start
  = (broadcast_result boards cmd,
     {| next_fd := length (opened boards 0);
        trace := broadcast_trace boards cmd |}).
Proof.
  unfold broadcast_command, broadcast_result, broadcast_trace.
  erewrite bind_run by apply open_all_run.
  change (table (opened boards (next_fd start)) []) with (sers_of boards).
  cbn [next_fd trace start]. rewrite app_nil_l.
  set (w := {| next_fd := _; trace := _ |}).
  assert (Hclose : ∀ w', for_each (sers_of boards) close_one w'
                         = (Ret (), log w' (flat_map close_events (sers_of boards))))
    by (apply for_each_run, close_one_run).
  destruct (sers_of boards) as [|item sers] eqn:Hsers.
  - erewrite finally_run; [|apply emit_run|apply Hclose].
    subst w. unfold log. cbn [next_fd trace flat_map]. by rewrite app_nil_r.
  - cbv beta iota. remember (item :: sers) as l eqn:Hl. clear Hl.
    unfold encode. destruct (encode_utf8 (strip cmd ++ [10%N])) as [payload|].
    + erewrite finally_run; [| |apply Hclose].
      2: { erewrite bind_run by reflexivity.
           erewrite bind_run by reflexivity.
           erewrite bind_run
             by apply (for_each_run (write_one payload) (write_events payload)),
                      write_one_run.
           erewrite bind_run
             by apply (for_each_run flush_one flush_events), flush_one_run.
           erewrite bind_run by reflexivity.
           apply (for_each_run read_one read_events), read_one_run. }
      rewrite !log_log. subst w. unfold log. cbn [next_fd trace].
      by rewrite <- !app_assoc.
    + erewrite finally_run; [| |apply Hclose].
      2: { erewrite bind_run by reflexivity.
           erewrite bind_raise by reflexivity. reflexivity. }
      subst w. unfold log. cbn [next_fd trace]. by rewrite app_nil_l.
Qed.

(** ** The table of open transports *)

Lemma opened_fds boards n :
  fds (opened boards n) = seq n (length (opened boards n)).
Proof.
  revert n. induction boards as [|[b s] rest IH]; intros n; simpl; [done|].
  destruct (s_open s); simpl; by rewrite ?IH.
Qed.

Lemma opened_NoDup boards n : NoDup (fds (opened boards n)).
Proof. rewrite opened_fds. apply NoDup_seq. Qed.

Lemma opened_inv boards n b ser :
  (b, ser) ∈ opened boards n →
  (b, session ser) ∈ boards ∧ s_open (session ser) = Done
  ∧ ser_port ser = port b.
Proof.
  revert n. induction boards as [|[b' s] rest IH]; intros n; simpl.
  - by intros ?%elem_of_nil.
  - destruct (s_open s) eqn:Ho.
    + intros [[= -> ->]|Hin]%elem_of_cons.
      * simpl. split; [left|done].
      * destruct (IH _ Hin) as (? & ? & ?). split; [by right|done].
    + intros Hin. destruct (IH _ Hin) as (? & ? & ?). split; [by right|done].
    + intros Hin. destruct (IH _ Hin) as (? & ? & ?). split; [by right|done].
Qed.

Lemma opened_complete boards n b s :
  (b, s) ∈ boards → s_open s = Done →
  ∃ ser, (b, ser) ∈ opened boards n ∧ session ser = s.
Proof.
  revert n. induction boards as [|[b' s'] rest IH]; intros n; simpl.
  - by intros ?%elem_of_nil.
  - intros [[= <- <-]|Hin]%elem_of_cons Ho.
    + rewrite Ho. eexists. split; [left|done].
    + destruct (s_open s').
      * destruct (IH (S n) Hin Ho) as (ser & ? & ?).
        exists ser. split; [by right|done].
      * by apply IH.
      * by apply IH.
Qed.

Lemma split_unique {A B} (f : A → B) (l pre pre' post post' : list A)
    (x x' : A) :
  NoDup (map f l) → l = pre ++ x :: post → l = pre' ++ x' :: post' →
  f x = f x' → pre = pre' ∧ x = x' ∧ post = post'.
Proof.
  intros Hnd -> Heq Hf. revert pre' Hnd Heq.
  induction pre as [|a pre IH]; intros [|a' pre'] Hnd Heq; simpl in *.
  - by injection Heq as -> ->.
  - injection Heq as -> ->. exfalso.
    apply NoDup_cons in Hnd as [Hnot _]. apply Hnot. rewrite Hf.
    rewrite fmap_app. apply elem_of_app. right. left.
  - injection Heq as -> <-. exfalso.
    apply NoDup_cons in Hnd as [Hnot _]. apply Hnot. rewrite <- Hf.
    rewrite fmap_app. apply elem_of_app. right. left.
  - injection Heq as -> Heq. apply NoDup_cons in Hnd as [_ Hnd].
    destruct (IH pre' Hnd Heq) as (-> & -> & ->). done.
Qed.

Lemma dict_set_keys k v d : NoDup d.*1 → NoDup (dict_set k v d).*1.
Proof.
  induction d as [|[k0 v0] d IH]; simpl; intros Hnd.
  - apply NoDup_singleton.
  - apply NoDup_cons in Hnd as [Hnot Hnd]. case_decide as Hk; simpl.
    + subst k0. by apply NoDup_cons.
    + apply NoDup_cons. split; [|by apply IH].
      intros Hin. apply Hnot. clear -Hin Hk.
      induction d as [|[k1 v1] d IH]; simpl in *.
      * apply list_elem_of_singleton in Hin. congruence.
      * case_decide; simpl in *.
        -- apply elem_of_cons in Hin as [->|Hin]; [done|by right].
        -- apply elem_of_cons in Hin as [->|Hin]; [left|right; by apply IH].
Qed.

Lemma dict_set_elem k v d k' v' :
  NoDup d.*1 →
  (k', v') ∈ dict_set k v d ↔ (k' = k ∧ v' = v) ∨ (k' ≠ k ∧ (k', v') ∈ d).
Proof.
  induction d as [|[k0 v0] d IH]; simpl; intros Hnd.
  - rewrite list_elem_of_singleton. split.
    + intros [= -> ->]. by left.
    + intros [[-> ->]|[_ ?%elem_of_nil]]; done.
  - apply NoDup_cons in Hnd as [Hnot Hnd]. case_decide as Hk.
    + subst k0. rewrite !elem_of_cons. split.
      * intros [[= -> ->]|Hin]; [by left|]. right. split; [|by right].
        intros ->. apply Hnot. apply list_elem_of_fmap. by exists (k, v').
      * intros [[-> ->]|[Hne [[= -> ->]|Hin]]]; [by left|done|by right].
    + rewrite !elem_of_cons, IH by done. split.
      * intros [[= -> ->]|[[-> ->]|[Hne Hin]]].
        -- right. split; [done|by left].
        -- by left.
        -- right. split; [done|by right].
      * intros [[-> ->]|[Hne [[= -> ->]|Hin]]].
        -- right. by left.
        -- by left.
        -- right. right. done.
Qed.

Lemma dict_set_fresh k v d : k ∉ d.*1 → dict_set k v d = d ++ [(k, v)].
Proof.
  induction d as [|[k0 v0] d IH]; simpl; intros Hk; [done|].
  apply not_elem_of_cons in Hk as [Hne Hk].
  case_decide; [congruence|]. by rewrite IH.
Qed.

Lemma dict_set_fds k v d :
  NoDup (dict_fds d) → fd v ∉ dict_fds d → NoDup (dict_fds (dict_set k v d)).
Proof.
  unfold dict_fds. induction d as [|[k0 v0] d IH]; simpl; intros Hnd Hv.
  - apply NoDup_singleton.
  - apply NoDup_cons in Hnd as [Hnot Hnd].
    apply not_elem_of_cons in Hv as [Hne Hv].
    case_decide; simpl.
    + by apply NoDup_cons.
    + apply NoDup_cons. split; [|by apply IH].
      intros Hin. apply Hnot. clear -Hin Hne.
      induction d as [|[k1 v1] d IH]; simpl in *.
      * apply list_elem_of_singleton in Hin. congruence.
      * case_decide; simpl in *.
        -- apply elem_of_cons in Hin as [Heq|Hin]; [congruence|by right].
        -- apply elem_of_cons in Hin as [->|Hin]; [left|right; by apply IH].
Qed.

Lemma table_snoc hs bh d :
  table (hs ++ [bh]) d = dict_set (board_id bh.1) bh.2 (table hs d).
Proof. unfold table. by rewrite foldl_app. Qed.

Lemma table_keys hs : NoDup (table hs []).*1.
Proof.
  induction hs as [|bh hs IH] using rev_ind; [apply NoDup_nil_2|].
  rewrite table_snoc. by apply dict_set_keys.
Qed.

(** An entry of the table is the handle of the last board with its key. *)
Lemma table_elem hs k v :
  (k, v) ∈ table hs [] ↔
  ∃ pre b post, hs = pre ++ (b, v) :: post ∧ board_id b = k
                ∧ last_with_id b post.
Proof.
  revert k v. induction hs as [|[b0 v0] hs IH] using rev_ind; intros k v.
  - simpl. split; [by intros ?%elem_of_nil|].
    intros (pre & b & post & Heq & _). by destruct pre.
  - rewrite table_snoc, dict_set_elem by apply table_keys. simpl. split.
    + intros [[-> ->]|[Hne Hin]].
      * exists hs, b0, []. split; [done|]. split; [done|]. apply Forall_nil_2.
      * apply IH in Hin as (pre & b & post & -> & <- & Hlast).
        exists pre, b, (post ++ [(b0, v0)]).
        split; [by rewrite <- app_assoc|]. split; [done|].
        apply Forall_app. split; [done|].
        apply Forall_singleton. simpl. congruence.
    + intros (pre & b & post & Heq & <- & Hlast).
      destruct post as [|x post _] using rev_ind.
      * apply app_inj_tail in Heq as [-> [= -> ->]]. by left.
      * rewrite app_comm_cons, app_assoc in Heq.
        apply app_inj_tail in Heq as [-> <-].
        apply Forall_app in Hlast as [Hlast Hx].
        apply Forall_inv in Hx. simpl in Hx.
        right. split; [congruence|]. apply IH. by exists pre, b, post.
Qed.

Lemma table_fds_subset hs n : n ∈ dict_fds (table hs []) → n ∈ fds hs.
Proof.
  unfold dict_fds, fds. intros ([k v] & -> & Hin)%list_elem_of_fmap.
  apply table_elem in Hin as (pre & b & post & -> & _ & _).
  simpl. rewrite fmap_app. apply elem_of_app. right. left.
Qed.

Lemma table_fds_NoDup hs : NoDup (fds hs) → NoDup (dict_fds (table hs [])).
Proof.
  induction hs as [|[b v] hs IH] using rev_ind; intros Hnd.
  - apply NoDup_nil_2.
  - unfold fds in Hnd. rewrite fmap_app in Hnd.
    apply NoDup_app in Hnd as (Hhs & Hdisj & _).
    rewrite table_snoc. simpl. apply dict_set_fds; [by apply IH|].
    intros Hin%table_fds_subset. apply (Hdisj _ Hin). simpl. left.
Qed.

(** The handle of a board is in the table exactly when no later board
    that opened has the same id. *)
Lemma table_live hs pre b ser post :
  NoDup (fds hs) → hs = pre ++ (b, ser) :: post →
  (fd ser ∈ dict_fds (table hs []) ↔ last_with_id b post)
  ∧ (last_with_id b post → (board_id b, ser) ∈ table hs []).
Proof.
  intros Hnd Heq.
  assert (Hlive : last_with_id b post → (board_id b, ser) ∈ table hs []).
  { intros Hlast. apply table_elem. by exists pre, b, post. }
  split; [|done]. split.
  - intros ([k v] & Hfd & Hin)%list_elem_of_fmap. simpl in Hfd.
    apply table_elem in Hin as (pre' & b' & post' & Heq' & _ & Hlast).
    destruct (split_unique (fun bh => fd bh.2) hs pre pre' post post'
                (b, ser) (b', v) Hnd Heq Heq' Hfd) as (_ & [= -> ->] & ->).
    done.
  - intros Hlast. apply list_elem_of_fmap.
    exists (board_id b, ser). split; [done|by apply Hlive].
Qed.

(** With pairwise distinct ids, the table holds every handle, in order. *)
Lemma table_distinct hs :
  NoDup ((fun bh => board_id bh.1) <$> hs) →
  table hs [] = (fun bh => (board_id bh.1, bh.2)) <$> hs.
Proof.
  induction hs as [|[b v] hs IH] using rev_ind; intros Hnd; [done|].
  rewrite fmap_app in Hnd. apply NoDup_app in Hnd as (Hhs & Hdisj & _).
  rewrite table_snoc, IH by done. simpl.
  rewrite dict_set_fresh; [by rewrite fmap_app|].
  rewrite <- list_fmap_compose. intros Hin. apply (Hdisj (board_id b)).
  - done.
  - simpl. left.
Qed.

Lemma opened_ids boards n :
  NoDup (ids boards) →
  NoDup ((fun bh => board_id bh.1) <$> opened boards n).
Proof.
  unfold ids. revert n.
  induction boards as [|[b s] rest IH]; intros n; simpl; [done|].
  intros [Hnot Hnd]%NoDup_cons.
  assert (Hsub : ∀ m k, k ∈ (fun bh => board_id bh.1) <$> opened rest m →
                        k ∈ (fun bs : Board * Session => board_id bs.1) <$> rest).
  { intros m k ([b' ser] & -> & Hin)%list_elem_of_fmap.
    apply opened_inv in Hin as (Hin & _). simpl.
    apply list_elem_of_fmap. by exists (b', session ser). }
  destruct (s_open s); simpl; [|by apply IH..].
  apply NoDup_cons. split; [|by apply IH].
  intros Hin. apply Hnot. by eapply Hsub.
Qed.

(** ** The calls on one handle *)

Lemma uses_app n a b : uses n (a ++ b) = uses n a ++ uses n b.
Proof. unfold uses. apply List.filter_app. Qed.

Lemma uses_items (ev : str * Serial → list event) (E : list event) n sers :
  (∀ item, uses n (ev item) = if decide (fd item.2 = n) then E else []) →
  NoDup (dict_fds sers) →
  uses n (flat_map ev sers) = if decide (n ∈ dict_fds sers) then E else [].
Proof.
  intros Hev. unfold dict_fds.
  induction sers as [|item sers IH]; intros Hnd.
  - rewrite decide_False; [done|]. apply not_elem_of_nil.
  - rewrite fmap_cons in *. apply NoDup_cons in Hnd as [Hnot Hnd].
    cbn [flat_map]. rewrite uses_app, Hev, IH by done.
    destruct (decide (fd item.2 = n)) as [<-|Hne].
    + rewrite (decide_False (P := _ ∈ _ <$> sers)) by done.
      rewrite app_nil_r. rewrite decide_True; [done|left].
    + rewrite app_nil_l.
      destruct (decide (n ∈ (fun item => fd item.2) <$> sers)) as [Hin|Hnin].
      * rewrite decide_True; [done|by right].
      * rewrite decide_False; [done|].
        apply not_elem_of_cons. split; [congruence|done].
Qed.

Lemma uses_write_events payload n item :
  uses n (write_events payload item)
  = if decide (fd item.2 = n) then [ResetInput n; Write n payload] else [].
Proof.
  unfold write_events, uses. rewrite List.filter_app.
  assert (List.filter (fun ev => bool_decide (fd_of ev = Some n))
            (warn_write (s_write (session item.2)) item.1 (ser_port item.2))
          = []) as -> by (by destruct (s_write (session item.2))).
  rewrite app_nil_r. simpl.
  destruct (decide (fd item.2 = n)) as [->|Hne].
  - by rewrite !bool_decide_eq_true_2.
  - by rewrite !bool_decide_eq_false_2 by congruence.
Qed.

Lemma uses_flush_events n item :
  uses n (flush_events item) = if decide (fd item.2 = n) then [Flush n] else [].
Proof.
  unfold flush_events, uses. simpl.
  destruct (decide (fd item.2 = n)) as [->|Hne].
  - by rewrite !bool_decide_eq_true_2.
  - by rewrite !bool_decide_eq_false_2 by congruence.
Qed.

Lemma uses_close_events n item :
  uses n (close_events item) = if decide (fd item.2 = n) then [Close n] else [].
Proof.
  unfold close_events, uses. simpl.
  destruct (decide (fd item.2 = n)) as [->|Hne].
  - by rewrite !bool_decide_eq_true_2.
  - by rewrite !bool_decide_eq_false_2 by congruence.
Qed.

Lemma uses_read_events n item :
  uses n (read_events item)
  = if decide (fd item.2 = n) then [ReadLines n] else [].
Proof.
  unfold read_events, uses.
  destruct (read_lines (nth 0 (s_windows (session item.2)) [])); simpl;
    destruct (decide (fd item.2 = n)) as [->|Hne];
    by rewrite ?bool_decide_eq_true_2, ?bool_decide_eq_false_2 by congruence.
Qed.

Lemma opened_fd_ge boards m b ser :
  (b, ser) ∈ opened boards m → m ≤ fd ser.
Proof.
  intros Hin.
  assert (fd ser ∈ fds (opened boards m)) as Hfd.
  { unfold fds. apply list_elem_of_fmap. by exists (b, ser). }
  rewrite opened_fds in Hfd. apply elem_of_seq in Hfd. lia.
Qed.

Lemma dict_get_elem k v d : dict_get k d = Some v → (k, v) ∈ d.
Proof.
  induction d as [|[k0 v0] d IH]; simpl; [done|].
  case_decide as Hk; [intros [= <-]; subst k0; left|right; by apply IH].
Qed.

Lemma dict_get_key k v d : NoDup d.*1 → (k, v) ∈ d → dict_get k d = Some v.
Proof.
  induction d as [|[k0 v0] d IH]; simpl; [by intros _ ?%elem_of_nil|].
  intros [Hnot Hnd]%NoDup_cons [[= -> ->]|Hin]%elem_of_cons.
  - by rewrite decide_True.
  - rewrite decide_False; [by apply IH|]. intros ->. apply Hnot.
    apply list_elem_of_fmap. by exists (k, v).
Qed.

Lemma dict_set_fds_subset k v d n :
  n ∈ dict_fds (dict_set k v d) → n = fd v ∨ n ∈ dict_fds d.
Proof.
  unfold dict_fds. induction d as [|[k0 v0] d IH]; simpl.
  - intros ->%list_elem_of_singleton. by left.
  - case_decide; simpl; intros [->|Hin]%elem_of_cons.
    + by left.
    + right. by right.
    + right. left.
    + destruct (IH Hin) as [->|?]; [by left|right; by right].
Qed.

Lemma table_fds_bound hs sers n :
  n ∈ dict_fds (table hs sers) → n ∈ dict_fds sers ∨ n ∈ fds hs.
Proof.
  revert sers. induction hs as [|[b v] hs IH]; intros sers; simpl; [by left|].
  intros [Hin|Hin]%IH.
  - apply dict_set_fds_subset in Hin as [->|Hin]; [right; left|by left].
  - right. by right.
Qed.

Lemma opened_fd_lt boards m n : n ∈ fds (opened boards m) → m ≤ n.
Proof. rewrite opened_fds. intros ?%elem_of_seq. lia. Qed.

Lemma NoDup_fd_key (d : dict) k1 v1 k2 v2 :
  NoDup (dict_fds d) → (k1, v1) ∈ d → (k2, v2) ∈ d → fd v1 = fd v2 → k1 = k2.
Proof.
  unfold dict_fds. intros Hnd [i Hi]%list_elem_of_lookup
    [j Hj]%list_elem_of_lookup Hfd.
  assert (i = j) as ->.
  { eapply NoDup_lookup; [exact Hnd| |].
    - by rewrite list_lookup_fmap, Hi.
    - rewrite list_lookup_fmap, Hj. simpl. by rewrite Hfd. }
  congruence.
Qed.

(** The calls of the opening loop on a handle number it neither opens nor
    finds in its table: none. *)
Lemma uses_open_events_none boards m sers n :
  n ∉ fds (opened boards m) → n ∉ dict_fds sers →
  uses n (open_events boards m sers) = [].
Proof.
  revert m sers. induction boards as [|[b s] rest IH]; intros m sers Hn Hs;
    simpl; [done|].
  simpl in Hn. destruct (s_open s); simpl; [|by apply IH..].
  unfold fds in Hn. rewrite fmap_cons in Hn.
  apply not_elem_of_cons in Hn as [Hne Hn]. simpl in Hne.
  rewrite bool_decide_eq_false_2 by congruence.
  change (uses n (displaced (board_id b) sers
                  ++ open_events rest (S m)
                       (dict_set (board_id b)
                          {| fd := m; ser_port := port b; session := s |}
                          sers)) = []).
  rewrite uses_app, IH; [|done|].
  - rewrite app_nil_r. unfold displaced.
    destruct (dict_get (board_id b) sers) as [old|] eqn:Hold; [|done].
    simpl. rewrite bool_decide_eq_false_2; [done|].
    intros [= <-]. apply Hs, list_elem_of_fmap.
    exists (board_id b, old). split; [done|by apply dict_get_elem].
  - intros [->|?]%dict_set_fds_subset; done.
Qed.

(** The calls of the opening loop on a handle of the table it starts
    with: the close of the handle, if the loop displaces it. *)
Lemma uses_open_events_table boards m sers n :
  NoDup sers.*1 → NoDup (dict_fds sers) →
  (∀ k, k ∈ dict_fds sers → k < m) → n ∈ dict_fds sers →
  uses n (open_events boards m sers)
  = if decide (n ∈ dict_fds (table (opened boards m) sers)) then []
    else [Close n].
Proof.
  revert m sers. induction boards as [|[b s] rest IH];
    intros m sers Hkeys Hfds Hlt Hn; simpl.
  - by rewrite decide_True.
  - destruct (s_open s); simpl; [|by apply IH..].
    set (ser0 := {| fd := m; ser_port := port b; session := s |}).
    pose proof (Hlt n Hn) as Hnm.
    rewrite bool_decide_eq_false_2 by (intros [= ?]; lia).
    change (uses n (displaced (board_id b) sers
                    ++ open_events rest (S m)
                         (dict_set (board_id b) ser0 sers))
            = if decide (n ∈ dict_fds (table (opened rest (S m))
                                         (dict_set (board_id b) ser0 sers)))
              then [] else [Close n]).
    rewrite uses_app.
    assert (Hkeys' : NoDup (dict_set (board_id b) ser0 sers).*1)
      by by apply dict_set_keys.
    assert (Hfds' : NoDup (dict_fds (dict_set (board_id b) ser0 sers))).
    { apply dict_set_fds; [done|]. intros Hin%Hlt. simpl in Hin. lia. }
    assert (Hlt' : ∀ k, k ∈ dict_fds (dict_set (board_id b) ser0 sers)
                        → k < S m).
    { intros k [->|Hin%Hlt]%dict_set_fds_subset; simpl; lia. }
    apply list_elem_of_fmap in Hn as ([k1 v1] & Hfd1 & Hin1). simpl in Hfd1.
    destruct (decide (k1 = board_id b)) as [->|Hk1].
    + (* the handle [n] is the one displaced *)
      unfold displaced. rewrite (dict_get_key _ _ _ Hkeys Hin1).
      simpl. rewrite bool_decide_eq_true_2 by (by rewrite Hfd1).
      assert (Hgone : n ∉ dict_fds (dict_set (board_id b) ser0 sers)).
      { intros ([k2 v2] & Hfd2 & Hin2)%list_elem_of_fmap. simpl in Hfd2.
        apply dict_set_elem in Hin2 as [[-> ->]|[Hne Hin2]]; [| |done].
        - simpl in Hfd2. lia.
        - apply Hne. apply (NoDup_fd_key sers k2 v2 (board_id b) v1);
            [done..|congruence]. }
      rewrite uses_open_events_none; [| |done].
      * rewrite decide_False; [by rewrite Hfd1|].
        intros [?|?%opened_fd_lt]%table_fds_bound; [done|lia].
      * intros ?%opened_fd_lt. lia.
    + (* another key: the handle stays *)
      assert (Hkeep : uses n (displaced (board_id b) sers) = []).
      { unfold displaced.
        destruct (dict_get (board_id b) sers) as [old|] eqn:Hold; [|done].
        simpl. rewrite bool_decide_eq_false_2; [done|].
        intros [= Hfd]. apply Hk1.
        apply (NoDup_fd_key sers k1 v1 (board_id b) old);
          [done|done|by apply dict_get_elem|congruence]. }
      rewrite Hkeep. simpl. apply IH; [done..|].
      apply list_elem_of_fmap. exists (k1, v1). split; [done|].
      apply dict_set_elem; [done|]. right. done.
Qed.

(** The calls of the opening loop on a handle it opens: the open, and the
    close of the handle if a later board displaces it. *)
Lemma uses_open_events boards m sers b ser :
  NoDup sers.*1 → NoDup (dict_fds sers) →
  (∀ k, k ∈ dict_fds sers → k < m) →
  (b, ser) ∈ opened boards m →
  uses (fd ser) (open_events boards m sers)
  = Open (fd ser) (port b)
    :: if decide (fd ser ∈ dict_fds (table (opened boards m) sers)) then []
       else [Close (fd ser)].
Proof.
  revert m sers. induction boards as [|[b' s] rest IH];
    intros m sers Hkeys Hfds Hlt; simpl.
  - by intros ?%elem_of_nil.
  - destruct (s_open s) eqn:Ho; simpl; [|by apply IH..].
    set (ser0 := {| fd := m; ser_port := port b'; session := s |}).
    assert (Hkeys' : NoDup (dict_set (board_id b') ser0 sers).*1)
      by by apply dict_set_keys.
    assert (Hfds' : NoDup (dict_fds (dict_set (board_id b') ser0 sers))).
    { apply dict_set_fds; [done|]. intros Hin%Hlt. simpl in Hin. lia. }
    assert (Hlt' : ∀ k, k ∈ dict_fds (dict_set (board_id b') ser0 sers)
                        → k < S m).
    { intros k [->|Hin%Hlt]%dict_set_fds_subset; simpl; lia. }
    assert (Hold : ∀ n, m ≤ n → uses n (displaced (board_id b') sers) = []).
    { intros n Hn. unfold displaced.
      destruct (dict_get (board_id b') sers) as [old|] eqn:Hold; [|done].
      simpl. rewrite bool_decide_eq_false_2; [done|].
      intros [= Hfd].
      assert (fd old < m); [|lia]. apply Hlt, list_elem_of_fmap.
      exists (board_id b', old). split; [done|by apply dict_get_elem]. }
    intros [[= -> ->]|Hin]%elem_of_cons.
    + cbn [fd]. rewrite bool_decide_eq_true_2 by done. f_equal.
      change (uses m (displaced (board_id b') sers
                      ++ open_events rest (S m)
                           (dict_set (board_id b') ser0 sers))
              = if decide (m ∈ dict_fds (table (opened rest (S m))
                                           (dict_set (board_id b') ser0 sers)))
                then [] else [Close m]).
      rewrite uses_app, Hold by done. simpl.
      apply uses_open_events_table; [done..|].
      apply list_elem_of_fmap. exists (board_id b', ser0). split; [done|].
      apply dict_set_elem; [done|]. by left.
    + apply opened_fd_ge in Hin as Hge.
      rewrite bool_decide_eq_false_2 by (intros [= ?]; lia).
      change (uses (fd ser) (displaced (board_id b') sers
                             ++ open_events rest (S m)
                                  (dict_set (board_id b') ser0 sers))
              = Open (fd ser) (port b)
                :: if decide (fd ser ∈ dict_fds
                                (table (opened rest (S m))
                                   (dict_set (board_id b') ser0 sers)))
                   then [] else [Close (fd ser)]).
      rewrite uses_app, Hold by lia. simpl. by apply IH.
Qed.

(** The calls of a broadcast on a handle it opened: all of them if no later
    board that opened has the same id, the open and the close otherwise. *)
Lemma uses_broadcast boards cmd pre b ser post :
  opened boards 0 = pre ++ (b, ser) :: post →
  uses (fd ser) (broadcast_trace boards cmd)
  = handle_calls (fd ser) (port b) (encode_utf8 (strip cmd ++ [10%N]))
      (bool_decide (last_with_id b post)).
Proof.
  intros Heq. unfold broadcast_trace. cbv zeta. rewrite !uses_app.
  rewrite (uses_open_events boards 0 [] b ser);
    [|apply NoDup_nil_2|apply NoDup_nil_2|by intros k ?%elem_of_nil
     |rewrite Heq; apply elem_of_app; right; left].
  fold (sers_of boards).
  pose proof (table_fds_NoDup _ (opened_NoDup boards 0)) as Hnd.
  destruct (table_live _ pre b ser post (opened_NoDup boards 0) Heq)
    as [Hlive _].
  fold (sers_of boards) in Hnd, Hlive.
  rewrite (uses_items close_events [Close (fd ser)])
    by (apply uses_close_events || done).
  unfold handle_calls.
  destruct (decide (fd ser ∈ dict_fds (sers_of boards))) as [Hin|Hnin].
  - rewrite bool_decide_eq_true_2 by by apply Hlive.
    destruct (sers_of boards) as [|item sers] eqn:Hsers;
      [by apply elem_of_nil in Hin|].
    remember (item :: sers) as l eqn:Hl. clear Hl.
    destruct (encode_utf8 (strip cmd ++ [10%N])) as [payload|]; [|done].
    rewrite !uses_app.
    rewrite (uses_items (write_events payload)
               [ResetInput (fd ser); Write (fd ser) payload])
      by (apply uses_write_events || done).
    rewrite (uses_items flush_events [Flush (fd ser)])
      by (apply uses_flush_events || done).
    rewrite (uses_items read_events [ReadLines (fd ser)])
      by (apply uses_read_events || done).
    by rewrite !decide_True by done.
  - rewrite bool_decide_eq_false_2 by (intros ?; by apply Hnin, Hlive).
    destruct (sers_of boards) as [|item sers] eqn:Hsers; [done|].
    remember (item :: sers) as l eqn:Hl. clear Hl.
    destruct (encode_utf8 (strip cmd ++ [10%N])) as [payload|]; [|done].
    rewrite !uses_app.
    rewrite (uses_items (write_events payload)
               [ResetInput (fd ser); Write (fd ser) payload])
      by (apply uses_write_events || done).
    rewrite (uses_items flush_events [Flush (fd ser)])
      by (apply uses_flush_events || done).
    rewrite (uses_items read_events [ReadLines (fd ser)])
      by (apply uses_read_events || done).
    by rewrite !decide_False by done.
Qed.

Lemma elem_of_flat_map {A B} (f : A → list B) (l : list A) (y : B) :
  y ∈ flat_map f l ↔ ∃ x, x ∈ l ∧ y ∈ f x.
Proof.
  rewrite list_elem_of_In, in_flat_map. split.
  - intros (x & Hx & Hy). exists x. by rewrite !list_elem_of_In.
  - intros (x & Hx & Hy). exists x. by rewrite <- !list_elem_of_In.
Qed.

Lemma elem_of_uses n ev tr : ev ∈ uses n tr ↔ ev ∈ tr ∧ fd_of ev = Some n.
Proof.
  unfold uses. by rewrite !list_elem_of_In, filter_In, bool_decide_eq_true.
Qed.

Lemma writes_to_uses n tr : writes_to n tr = writes_to n (uses n tr).
Proof.
  unfold writes_to, uses. induction tr as [|ev tr IH]; [done|].
  simpl. destruct (bool_decide (fd_of ev = Some n)) eqn:Hev; simpl.
  - by rewrite IH.
  - rewrite <- IH. apply bool_decide_eq_false in Hev.
    destruct ev; simpl in *; try done.
    rewrite decide_False; [done|congruence].
Qed.

(** A broadcast makes no call on a handle number it did not open. *)
Lemma uses_broadcast_none boards cmd n :
  n ∉ fds (opened boards 0) → uses n (broadcast_trace boards cmd) = [].
Proof.
  intros Hn. unfold broadcast_trace. cbv zeta. rewrite !uses_app.
  rewrite uses_open_events_none by (done || apply not_elem_of_nil).
  pose proof (table_fds_NoDup _ (opened_NoDup boards 0)) as Hnd.
  assert (Hnot : n ∉ dict_fds (sers_of boards))
    by (intros Hin; by apply Hn, table_fds_subset).
  fold (sers_of boards) in Hnd.
  rewrite (uses_items close_events [Close n])
    by (apply uses_close_events || done).
  rewrite decide_False by done.
  destruct (sers_of boards) as [|item sers] eqn:Hsers; [done|].
  remember (item :: sers) as l eqn:Hl. clear Hl.
  destruct (encode_utf8 (strip cmd ++ [10%N])) as [payload|]; [|done].
  rewrite !uses_app.
  rewrite (uses_items (write_events payload) [ResetInput n; Write n payload])
    by (apply uses_write_events || done).
  rewrite (uses_items flush_events [Flush n])
    by (apply uses_flush_events || done).
  rewrite (uses_items read_events [ReadLines n])
    by (apply uses_read_events || done).
  by rewrite !decide_False by done.
Qed.

Lemma distinct_last boards pre b ser post :
  NoDup (ids boards) → opened boards 0 = pre ++ (b, ser) :: post →
  last_with_id b post.
Proof.
  intros Hnd%(opened_ids _ 0) Heq. rewrite Heq in Hnd.
  rewrite fmap_app, fmap_cons in Hnd.
  apply NoDup_app in Hnd as (_ & _ & [Hnot _]%NoDup_cons).
  apply Forall_forall. intros bh Hin Heq'. apply Hnot.
  simpl. rewrite <- Heq'. apply list_elem_of_fmap. by exists bh.
Qed.

Lemma all_closed_uses tr :
  (∀ n, all_closed (uses n tr) = true) → all_closed tr = true.
Proof.
  induction tr as [|ev tr IH]; [done|]. intros Hall.
  assert (Hrest : ∀ n, all_closed (uses n tr) = true).
  { intros n. specialize (Hall n). unfold uses in *. simpl in Hall.
    case_bool_decide; [|done].
    destruct ev; simpl in Hall; try done.
    by apply andb_true_iff in Hall as [_ ?]. }
  destruct ev as [m p| | | | | | | |]; simpl; try by apply IH.
  apply andb_true_iff. split; [|by apply IH].
  specialize (Hall m). unfold uses in Hall. simpl in Hall.
  rewrite bool_decide_eq_true_2 in Hall by done. simpl in Hall.
  apply andb_true_iff in Hall as [Hex _].
  apply existsb_exists in Hex as (ev & Hin & Hev).
  apply existsb_exists. exists ev. split; [|done].
  apply filter_In in Hin. tauto.
Qed.

(** ** Broadcast coordinator *)

Lemma handle_of_fd boards m n :
  n ∈ fds (opened boards m) →
  ∃ pre b ser post, opened boards m = pre ++ (b, ser) :: post ∧ fd ser = n.
Proof.
  unfold fds. intros ([b ser] & -> & Hin)%list_elem_of_fmap.
  apply list_elem_of_split in Hin as (pre & post & Heq).
  by exists pre, b, ser, post.
Qed.

Lemma dict_lookup_unique (d : dict) k v1 v2 :
  NoDup d.*1 → (k, v1) ∈ d → (k, v2) ∈ d → v1 = v2.
Proof.
  induction d as [|[k0 v0] d IH]; simpl.
  - by intros _ ?%elem_of_nil.
  - intros [Hnot Hnd]%NoDup_cons H1%elem_of_cons H2%elem_of_cons.
    destruct H1 as [H1|H1], H2 as [H2|H2].
    + congruence.
    + injection H1 as -> ->. exfalso. apply Hnot.
      apply list_elem_of_fmap. by exists (k0, v2).
    + injection H2 as -> ->. exfalso. apply Hnot.
      apply list_elem_of_fmap. by exists (k0, v1).
    + by apply IH.
Qed.

Lemma ids_inj boards b s b' s' :
  NoDup (ids boards) → (b, s) ∈ boards → (b', s') ∈ boards →
  board_id b = board_id b' → b = b' ∧ s = s'.
Proof.
  unfold ids. induction boards as [|[b0 s0] rest IH]; simpl.
  - by intros _ ?%elem_of_nil.
  - intros [Hnot Hnd]%NoDup_cons H1%elem_of_cons H2%elem_of_cons Hid.
    destruct H1 as [H1|H1], H2 as [H2|H2].
    + split; congruence.
    + injection H1 as -> ->. exfalso. apply Hnot. simpl. rewrite Hid.
      apply list_elem_of_fmap. by exists (b', s').
    + injection H2 as -> ->. exfalso. apply Hnot. simpl. rewrite <- Hid.
      apply list_elem_of_fmap. by exists (b, s).
    + by apply IH.
Qed.

(** Displacing a handle closes it and does nothing else. *)
Lemma elem_of_displaced ev k sers :
  ev ∈ displaced k sers → ∃ old, (k, old) ∈ sers ∧ ev = Close (fd old).
Proof.
  unfold displaced. destruct (dict_get k sers) as [old|] eqn:Hold;
    [|by intros ?%elem_of_nil].
  intros ->%list_elem_of_singleton. exists old.
  split; [by apply dict_get_elem|done].
Qed.

Lemma warn_in_open_events boards m sers b s :
  (b, s) ∈ boards → s_open s ≠ Done →
  Print (WarnCouldNotOpen (board_id b) (port b)) ∈ open_events boards m sers.
Proof.
  revert m sers. induction boards as [|[b0 s0] rest IH]; intros m sers; simpl.
  - by intros ?%elem_of_nil.
  - intros [[= <- <-]|Hin]%elem_of_cons Ho.
    + destruct (s_open s); [done|right; left..].
    + destruct (s_open s0); [|right; right; by apply IH..].
      right. apply elem_of_app. right. by apply IH.
Qed.

(** The opening loop prints nothing but its warnings. *)
Lemma print_in_open_events boards m sers msg :
  Print msg ∈ open_events boards m sers →
  ∃ bid p, msg = WarnCouldNotOpen bid p.
Proof.
  revert m sers. induction boards as [|[b0 s0] rest IH]; intros m sers; simpl.
  - by intros ?%elem_of_nil.
  - destruct (s_open s0).
    + intros [?|[(old & _ & ?)%elem_of_displaced|Hin]%elem_of_app]%elem_of_cons;
        [done..|]. by eapply IH.
    + intros [?|[[= ->]|Hin]%elem_of_cons]%elem_of_cons; [done|eauto|].
      by eapply IH.
    + intros [?|[[= ->]|Hin]%elem_of_cons]%elem_of_cons; [done|eauto|].
      by eapply IH.
Qed.

Lemma ack_in_open_events boards m sers bid lines :
  Print (AckLines bid lines) ∉ open_events boards m sers.
Proof. by intros (? & ? & ?)%print_in_open_events. Qed.

(** An acknowledgement trace is printed under a key of the table. *)
Lemma ack_in_trace boards cmd bid lines :
  Print (AckLines bid lines) ∈ broadcast_trace boards cmd →
  bid ∈ (sers_of boards).*1.
Proof.
  unfold broadcast_trace. cbv zeta. rewrite !elem_of_app.
  intros [Hin|[Hin|Hin]].
  - by apply ack_in_open_events in Hin.
  - destruct (sers_of boards) as [|item sers] eqn:Hsers.
    { apply list_elem_of_singleton in Hin. done. }
    remember (item :: sers) as l eqn:Hl. clear Hl.
    destruct (encode_utf8 (strip cmd ++ [10%N])) as [payload|];
      [|by apply elem_of_nil in Hin].
    rewrite !elem_of_app, !elem_of_flat_map in Hin.
    destruct Hin as [(it & Hit & Hev)|[(it & Hit & Hev)|(it & Hit & Hev)]].
    + exfalso. unfold write_events in Hev. simpl in Hev.
      rewrite !elem_of_cons in Hev. destruct Hev as [?|[?|Hev]]; [done..|].
      destruct (s_write (session it.2)); simpl in Hev;
        repeat (apply elem_of_cons in Hev as [Hev|Hev]; [done|]);
        by apply elem_of_nil in Hev.
    + exfalso. unfold flush_events in Hev.
      apply list_elem_of_singleton in Hev. done.
    + unfold read_events in Hev. apply elem_of_cons in Hev as [?|Hev]; [done|].
      destruct (read_lines _); [by apply elem_of_nil in Hev|].
      apply list_elem_of_singleton in Hev. injection Hev as -> _.
      apply list_elem_of_fmap. by exists it.
  - exfalso. apply elem_of_flat_map in Hin as (it & _ & Hev).
    unfold close_events in Hev. apply list_elem_of_singleton in Hev. done.
Qed.

Lemma key_in_table hs k :
  k ∈ (table hs []).*1 → ∃ b ser, (b, ser) ∈ hs ∧ board_id b = k.
Proof.
  intros ([k' v] & -> & Hin)%list_elem_of_fmap.
  apply table_elem in Hin as (pre & b & post & -> & <- & _).
  exists b, v. split; [|done]. apply elem_of_app. right. left.
Qed.

(** With distinct ids, one payload goes to every transport that opened. *)
Lemma broadcast_writes boards cmd payload b ser :
  encode_utf8 (strip cmd ++ [10%N]) = Some payload →
  NoDup (ids boards) → (b, ser) ∈ opened boards 0 →
  writes_to (fd ser) (broadcast_trace boards cmd) = [payload].
Proof.
  intros Henc Hnd Hin.
  apply list_elem_of_split in Hin as (pre & post & Heq).
  rewrite writes_to_uses, (uses_broadcast _ _ pre b ser post Heq), Henc.
  rewrite bool_decide_eq_true_2 by by eapply distinct_last.
  unfold handle_calls, writes_to. simpl. by rewrite decide_True.
Qed.

Lemma all_closed_handle_calls n p payload live :
  all_closed (handle_calls n p payload live) = true.
Proof.
  unfold handle_calls. destruct live, payload; simpl;
    by rewrite !bool_decide_eq_true_2.
Qed.

(** A broadcast closes every transport it opened. *)
Lemma broadcast_all_closed boards cmd :
  all_closed (broadcast_trace boards cmd) = true.
Proof.
  apply all_closed_uses. intros n.
  destruct (decide (n ∈ fds (opened boards 0))) as [Hin|Hnin].
  - apply handle_of_fd in Hin as (pre & b & ser & post & Heq & <-).
    rewrite (uses_broadcast _ _ pre b ser post Heq).
    apply all_closed_handle_calls.
  - by rewrite uses_broadcast_none.
Qed.

(** C1, as amended.  For a command whose stripped text can be encoded and
    boards with pairwise distinct ids, a broadcast writes exactly one
    payload to the transport of every board whose port opened: the UTF-8
    encoding of the command stripped of leading and trailing whitespace,
    followed by one newline.  For a command without such whitespace that
    is the command itself followed by a newline; for ["sync stop 200"] it
    is the bytes of ["sync stop 200\n"]. *)
Theorem broadcast_payload (boards : list (Board * Session)) (cmd : str)
    (payload : list byte) (b : Board) (ser : Serial) :
  encode_utf8 (strip cmd ++ [10%N]) = Some payload →
  NoDup (ids boards) →
  (b, ser) ∈ opened boards 0 →
  writes_to (fd ser) (trace (broadcast_command boards cmd start).2)
  = [payload]
  ∧ (strip cmd = cmd → encode_utf8 (cmd ++ [10%N]) = Some payload)
  ∧ (cmd = lit "sync stop 200" →
     payload = bytes "sync stop 200" ++ ["010"%byte]).
Proof.
  intros Henc Hnd Hin. split; [|split].
  - rewrite broadcast_run. cbn [snd trace].
    by apply (broadcast_writes _ _ _ b).
  - intros Hs. by rewrite <- Hs.
  - intros ->. vm_compute in Henc. by injection Henc as <-.
Qed.

Lemma broadcast_payload_witness :
  writes_to 0
    (trace (broadcast_command [(board "B1" "COM7", quiet)]
              (lit "sync stop 200") start).2)
  = [bytes "sync stop 200" ++ ["010"%byte]].
Proof.
  apply (broadcast_payload [(board "B1" "COM7", quiet)] (lit "sync stop 200")
           (bytes "sync stop 200" ++ ["010"%byte])
           (board "B1" "COM7") (handle 0 "COM7" quiet)).
  - reflexivity.
  - apply (bool_decide_unpack _). vm_compute. exact I.
  - simpl. left.
Defined.

(** C1, the claim as stated fails: a command with whitespace around it is
    not transmitted unmodified, and a transport that opened for a board
    whose id a later board shares gets no payload. *)
Lemma broadcast_payload_counterexample :
  ¬ (∀ (boards : list (Board * Session)) (cmd : str) (payload : list byte)
       (b : Board) (ser : Serial),
       encode_utf8 (cmd ++ [10%N]) = Some payload →
       (b, ser) ∈ opened boards 0 →
       writes_to (fd ser) (trace (broadcast_command boards cmd start).2)
       = [payload])
  ∧ (let boards := [(board "B1" "COM7", quiet)] in
     let cmd := lit " sync stop 200 " in
     let tr := trace (broadcast_command boards cmd start).2 in
     (board "B1" "COM7", handle 0 "COM7" quiet) ∈ opened boards 0
     ∧ encode_utf8 (cmd ++ [10%N])
       = Some (bytes " sync stop 200 " ++ ["010"%byte])
     ∧ writes_to 0 tr = [bytes "sync stop 200" ++ ["010"%byte]])
  ∧ (let boards := [(board "B1" "COM7", quiet); (board "B1" "COM8", quiet)] in
     let tr := trace (broadcast_command boards (lit "sync stop 200") start).2 in
     (board "B1" "COM7", handle 0 "COM7" quiet) ∈ opened boards 0
     ∧ encode_utf8 (lit "sync stop 200" ++ [10%N])
       = Some (bytes "sync stop 200" ++ ["010"%byte])
     ∧ writes_to 0 tr = []).
Proof.
  cbv zeta. split; [|split].
  - intros Hall.
    specialize (Hall [(board "B1" "COM7", quiet)] (lit " sync stop 200 ")
                  (bytes " sync stop 200 " ++ ["010"%byte])
                  (board "B1" "COM7") (handle 0 "COM7" quiet) eq_refl).
    assert (Hin : (board "B1" "COM7", handle 0 "COM7" quiet)
                  ∈ opened [(board "B1" "COM7", quiet)] 0) by (simpl; left).
    specialize (Hall Hin). vm_compute in Hall. discriminate Hall.
  - split; [simpl; left|]. split; reflexivity.
  - split; [simpl; left|]. split; reflexivity.
Qed.

(** C6, as amended.  For boards with pairwise distinct ids and a command
    that can be encoded, a broadcast returns normally whatever the outcomes
    of the opens.  A board whose port fails to open is reported with a
    warning and no acknowledgement trace is printed for it; every call of
    the run is on the transport of a board whose port opened; and one
    payload, the framed command, is written to the transport of every board
    whose port opened. *)
Theorem broadcast_partial_failure (boards : list (Board * Session))
    (cmd : str) (payload : list byte) :
  encode_utf8 (strip cmd ++ [10%N]) = Some payload →
  NoDup (ids boards) →
  let run := broadcast_command boards cmd start in
  run.1 = Ret ()
  ∧ (∀ b s, (b, s) ∈ boards → s_open s ≠ Done →
       Print (WarnCouldNotOpen (board_id b) (port b)) ∈ trace run.2
       ∧ ∀ lines, Print (AckLines (board_id b) lines) ∉ trace run.2)
  ∧ (∀ ev n, ev ∈ trace run.2 → fd_of ev = Some n →
       ∃ b ser, (b, ser) ∈ opened boards 0 ∧ fd ser = n
                ∧ (b, session ser) ∈ boards ∧ s_open (session ser) = Done)
  ∧ (∀ b s, (b, s) ∈ boards → s_open s = Done →
       ∃ ser, (b, ser) ∈ opened boards 0 ∧ session ser = s
              ∧ writes_to (fd ser) (trace run.2) = [payload]).
Proof.
  intros Henc Hnd run. subst run. rewrite broadcast_run. cbn [fst snd trace].
  split; [|split; [|split]].
  - unfold broadcast_result. destruct (sers_of boards); [done|].
    by rewrite Henc.
  - intros b s Hin Ho. split.
    + unfold broadcast_trace. apply elem_of_app. left.
      by apply (warn_in_open_events _ _ _ _ s).
    + intros lines Hack. apply ack_in_trace, key_in_table in Hack
        as (b' & ser' & Hin' & Hid).
      apply opened_inv in Hin' as (Hin' & Ho' & _).
      destruct (ids_inj _ _ _ _ _ Hnd Hin' Hin Hid) as [_ <-]. done.
  - intros ev n Hev Hfd.
    destruct (decide (n ∈ fds (opened boards 0))) as [Hin|Hnin].
    + apply handle_of_fd in Hin as (pre & b & ser & post & Heq & <-).
      assert (Hin : (b, ser) ∈ opened boards 0)
        by (rewrite Heq; apply elem_of_app; right; left).
      exists b, ser. split; [done|]. split; [done|].
      apply opened_inv in Hin as (? & ? & _). done.
    + exfalso. assert (ev ∈ uses n (broadcast_trace boards cmd)) as Hin
        by by apply elem_of_uses.
      rewrite uses_broadcast_none in Hin by done. by apply elem_of_nil in Hin.
  - intros b s Hin Ho.
    destruct (opened_complete boards 0 b s Hin Ho) as (ser & Hser & Hs).
    exists ser. split; [done|]. split; [done|].
    by apply (broadcast_writes _ _ _ b).
Qed.

Lemma broadcast_partial_failure_witness :
  let boards := [(board "B1" "COM7", quiet); (board "B2" "COM8", unopenable);
                 (board "B3" "COM9", quiet)] in
  let payload := bytes "sync stop 200" ++ ["010"%byte] in
  let run := broadcast_command boards (lit "sync stop 200") start in
  run.1 = Ret ()
  ∧ (∀ b s, (b, s) ∈ boards → s_open s ≠ Done →
       Print (WarnCouldNotOpen (board_id b) (port b)) ∈ trace run.2
       ∧ ∀ lines, Print (AckLines (board_id b) lines) ∉ trace run.2)
  ∧ (∀ ev n, ev ∈ trace run.2 → fd_of ev = Some n →
       ∃ b ser, (b, ser) ∈ opened boards 0 ∧ fd ser = n
                ∧ (b, session ser) ∈ boards ∧ s_open (session ser) = Done)
  ∧ (∀ b s, (b, s) ∈ boards → s_open s = Done →
       ∃ ser, (b, ser) ∈ opened boards 0 ∧ session ser = s
              ∧ writes_to (fd ser) (trace run.2) = [payload]).
Proof.
  apply (broadcast_partial_failure
           [(board "B1" "COM7", quiet); (board "B2" "COM8", unopenable);
            (board "B3" "COM9", quiet)]
           (lit "sync stop 200") (bytes "sync stop 200" ++ ["010"%byte])).
  - reflexivity.
  - apply (bool_decide_unpack _). vm_compute. exact I.
Defined.

(** C6, the claim as stated fails: the port of the first board opens, the
    second fails, and the third board has the id of the first; the
    transport of the first board is displaced and closed, and nothing is
    written to it. *)
Lemma broadcast_partial_failure_counterexample :
  ¬ (∀ (boards : list (Board * Session)) (cmd : str) (payload : list byte)
       (b : Board) (ser : Serial),
       encode_utf8 (strip cmd ++ [10%N]) = Some payload →
       (b, ser) ∈ opened boards 0 →
       writes_to (fd ser) (trace (broadcast_command boards cmd start).2)
       = [payload])
  ∧ (let boards := [(board "B1" "COM7", quiet);
                    (board "B2" "COM8", unopenable);
                    (board "B1" "COM9", quiet)] in
     let tr := trace (broadcast_command boards (lit "sync stop 200") start).2 in
     (board "B1" "COM7", quiet) ∈ boards
     ∧ s_open quiet = Done
     ∧ opened boards 0
       = [(board "B1" "COM7", handle 0 "COM7" quiet);
          (board "B1" "COM9", handle 1 "COM9" quiet)]
     ∧ uses 0 tr = [Open 0 (lit "COM7"); Close 0]
     ∧ writes_to 0 tr = []).
Proof.
  cbv zeta. split.
  - intros Hall.
    specialize (Hall [(board "B1" "COM7", quiet);
                      (board "B2" "COM8", unopenable);
                      (board "B1" "COM9", quiet)]
                  (lit "sync stop 200") (bytes "sync stop 200" ++ ["010"%byte])
                  (board "B1" "COM7") (handle 0 "COM7" quiet) eq_refl).
    assert (Hin : (board "B1" "COM7", handle 0 "COM7" quiet)
                  ∈ opened [(board "B1" "COM7", quiet);
                            (board "B2" "COM8", unopenable);
                            (board "B1" "COM9", quiet)] 0) by (simpl; left).
    specialize (Hall Hin). vm_compute in Hall. discriminate Hall.
  - split; [left|]. by vm_compute.
Qed.




(** ** Discovery engine *)

Lemma clear_buffers_run ser w :
  clear_buffers ser w = (Ret (), log w (clear_events (fd ser) (session ser))).
Proof.
  unfold clear_buffers, reset_input_buffer, reset_output_buffer, clear_events.
  destruct (s_reset_input_buffer (session ser));
    destruct (s_reset_output_buffer (session ser)); run_io.
Qed.

Lemma ask_for_id_run ser w :
  ask_for_id ser w
  = (Ret (asked (session ser)), log w (ask_events (fd ser) (session ser))).
Proof.
  unfold ask_for_id, write, flush, asked, ask_events, encode.
  change (encode_utf8 DISCOVER_CMD)
    with (Some (bytes "DISCOVER?" ++ ["010"%byte])).
  destruct (s_write (session ser)); destruct (s_flush (session ser)); run_io.
Qed.

Lemma read_id_line_run ser w :
  read_id_line ser w
  = (Ret (id_line_of (session ser)),
     log w (read_id_events (fd ser) (session ser))).
Proof.
  unfold read_id_line, read_lines_for, id_line_of, read_id_events.
  destruct (first_id_line (read_lines (nth 0 (s_windows (session ser)) [])))
    eqn:Hfirst; run_io; rewrite Hfirst; run_io.
Qed.

Lemma probe_body_run settle p s n w :
  s_open s = Done →
  probe_body settle (device p) (or_empty (description p))
    {| fd := n; ser_port := device p; session := s |} w
  = (probe_result settle p s,
     log w (clear_events n s
            ++ match settle with
               | None =>
                   ask_events n s
                   ++ (if asked s then read_id_events n s else [])
               | Some _ => []
               end)).
Proof.
  intros Ho. unfold probe_body, probe_result. rewrite Ho.
  erewrite bind_run by apply clear_buffers_run. cbn [fd session].
  destruct settle as [e|]; [by erewrite bind_raise, app_nil_r by reflexivity|].
  - erewrite bind_run by reflexivity.
    erewrite bind_run by apply ask_for_id_run. cbn [fd session].
    unfold identified. rewrite Ho. rewrite log_log.
    destruct (asked s); [|by rewrite app_nil_r].
    erewrite bind_run by apply read_id_line_run. cbn [fd session].
    rewrite log_log, <- app_assoc.
    destruct (id_line_of s) as [ln|]; [|reflexivity].
    pose proof (parse_id_line_cases ln) as Hcases. cbv zeta in Hcases.
    destruct Hcases as [[-> _]|(i & k & bid & fw & _ & _ & _ & _ & _ & ->)];
      reflexivity.
Qed.

Lemma probe_run settle p s w :
  probe settle p s w
  = (probe_result settle p s,
     {| next_fd := next_fd w + opens s;
        trace := trace w ++ probe_events settle p s (next_fd w) |}).
Proof.
  unfold probe, probe_events, opens, open_port.
  destruct (s_open s) eqn:Ho.
  2,3: unfold probe_result; rewrite Ho; run_io; by rewrite Nat.add_0_r.
  erewrite bind_run by (unfold try_catch, mbind, M_bind; reflexivity).
  cbv beta iota.
  erewrite finally_run;
    [|by apply probe_body_run|intros w'; unfold close; apply guarded_run].
  unfold log. cbn [next_fd trace]. rewrite <- !app_assoc. cbn [app].
  do 2 f_equal. lia.
Qed.

Lemma scan_run settle ports w :
  ∃ n, scan settle ports w
       = (scan_result settle ports,
          {| next_fd := n;
             trace := trace w ++ scan_trace settle ports (next_fd w) |}).
Proof.
  revert w. induction ports as [|[p s] rest IH]; intros w; simpl.
  - exists (next_fd w). destruct w. simpl. by rewrite app_nil_r.
  - unfold mbind at 1, M_bind at 1. rewrite probe_run.
    destruct (probe_result settle p s) as [found|e].
    + destruct (IH {| next_fd := next_fd w + opens s;
                      trace := trace w ++ probe_events settle p s (next_fd w) |})
        as [n Hn].
      exists n. unfold mbind, M_bind. rewrite Hn. simpl.
      rewrite <- app_assoc. by destruct (scan_result settle rest).
    + eexists. by rewrite app_nil_r.
Qed.

Lemma scan_result_settled ports : scan_result None ports = Ret (reported ports).
Proof.
  unfold reported. induction ports as [|[p s] rest IH]; simpl; [done|].
  rewrite IH. unfold probe_result, identified.
  by destruct (s_open s).
Qed.

Lemma scan_result_raise settle ports e :
  scan_result settle ports = Raise e → settle = Some e.
Proof.
  induction ports as [|[p s] rest IH]; simpl; [done|].
  destruct (probe_result settle p s) as [found|e'] eqn:Hp.
  - destruct (scan_result settle rest); [done|].
    intros [= <-]. by apply IH.
  - intros [= <-]. unfold probe_result in Hp.
    destruct (s_open s), settle; try done. by injection Hp as <-.
Qed.

(** The run of a discovery from the start. *)
Lemma discover_run `{UnicodeData} settle ports_all :
  ∃ n, discover_boards settle ports_all start
       = (match scan_result settle (in_scope ports_all) with
          | Ret boards => Ret (dedupe ∅ boards)
          | Raise e => Raise e
          end,
          {| next_fd := n;
             trace := scan_trace settle (in_scope ports_all) 0 |}).
Proof.
  unfold discover_boards. fold (in_scope ports_all).
  destruct (scan_run settle (in_scope ports_all) start) as [n Hn].
  exists n. unfold mbind, M_bind. rewrite Hn.
  by destruct (scan_result settle (in_scope ports_all)).
Qed.

Lemma all_closed_app a b :
  all_closed a = true → all_closed b = true → all_closed (a ++ b) = true.
Proof.
  intros Ha Hb. induction a as [|ev a IH]; [done|].
  destruct ev; simpl in *; try by apply IH.
  apply andb_true_iff in Ha as [Hex Ha].
  rewrite existsb_app, Hex. simpl. by apply IH.
Qed.

Lemma all_closed_probe settle p s n :
  all_closed (probe_events settle p s n) = true.
Proof.
  unfold probe_events, clear_events, ask_events, read_id_events, asked.
  destruct (s_open s); [|done..].
  destruct (s_reset_input_buffer s), settle, (s_write s), (s_flush s),
    (first_id_line (read_lines (nth 0 (s_windows s) [])));
    simpl; by rewrite ?bool_decide_eq_true_2.
Qed.

Lemma all_closed_scan settle ports n :
  all_closed (scan_trace settle ports n) = true.
Proof.
  revert n. induction ports as [|[p s] rest IH]; intros n; simpl; [done|].
  apply all_closed_app; [apply all_closed_probe|].
  by destruct (probe_result settle p s).
Qed.

(** De-duplication keeps, for every id not yet seen, its first board. *)
Lemma dedupe_fresh seen boards b :
  b ∈ dedupe seen boards → board_id b ∉ seen.
Proof.
  revert seen. induction boards as [|x rest IH]; intros seen; simpl.
  - by intros ?%elem_of_nil.
  - case_decide as Hx; [by apply IH|].
    intros [->|Hin]%elem_of_cons; [done|].
    apply IH in Hin. set_solver.
Qed.

Lemma dedupe_NoDup seen boards : NoDup (board_id <$> dedupe seen boards).
Proof.
  revert seen. induction boards as [|x rest IH]; intros seen; simpl.
  - apply NoDup_nil_2.
  - case_decide as Hx; [by apply IH|].
    rewrite fmap_cons. apply NoDup_cons. split; [|by apply IH].
    intros (b & Hid & Hin)%list_elem_of_fmap.
    apply dedupe_fresh in Hin. set_solver.
Qed.

Lemma dedupe_sublist seen boards : sublist (dedupe seen boards) boards.
Proof.
  revert seen. induction boards as [|x rest IH]; intros seen; simpl.
  - constructor.
  - case_decide; [apply sublist_cons|apply sublist_skip]; apply IH.
Qed.

Lemma dedupe_first seen boards b :
  b ∈ boards → board_id b ∉ seen →
  ∃ b' pre post, boards = pre ++ b' :: post ∧ board_id b' = board_id b
                 ∧ Forall (fun x => board_id x ≠ board_id b) pre
                 ∧ b' ∈ dedupe seen boards.
Proof.
  revert seen. induction boards as [|x rest IH]; intros seen; simpl.
  - by intros ?%elem_of_nil.
  - intros Hin Hb. case_decide as Hx.
    + assert (Hne : board_id x ≠ board_id b) by (intros Heq; congruence).
      apply elem_of_cons in Hin as [->|Hin]; [done|].
      destruct (IH seen Hin Hb) as (b' & pre & post & -> & Hid & Hpre & Hd).
      exists b', (x :: pre), post. split; [done|]. split; [done|].
      split; [by apply Forall_cons|done].
    + destruct (decide (board_id x = board_id b)) as [Heq|Hne].
      * exists x, [], rest. split; [done|]. split; [done|].
        split; [apply Forall_nil_2|left].
      * apply elem_of_cons in Hin as [->|Hin]; [done|].
        assert (Hb' : board_id b ∉ ({[board_id x]} ∪ seen : gset str)).
        { apply not_elem_of_union. split; [|done].
          apply not_elem_of_singleton. congruence. }
        destruct (IH ({[board_id x]} ∪ seen) Hin Hb') as
          (b' & pre & post & -> & Hid & Hpre & Hd).
        exists b', (x :: pre), post. split; [done|]. split; [done|].
        split; [by apply Forall_cons|by right].
Qed.

Lemma identified_none p s :
  s_open s ≠ Done ∨ s_write s ≠ Done → identified p s = [].
Proof.
  unfold identified, asked. intros [Ho|Hw].
  - by destruct (s_open s).
  - destruct (s_open s); [|done..]. by destruct (s_write s).
Qed.

Lemma reported_app l1 l2 : reported (l1 ++ l2) = reported l1 ++ reported l2.
Proof. unfold reported. apply flat_map_app. Qed.

Lemma in_scope_app `{UnicodeData} l1 l2 :
  in_scope (l1 ++ l2) = in_scope l1 ++ in_scope l2.
Proof. unfold in_scope. apply List.filter_app. Qed.

(** C4. The boards a discovery returns have pairwise distinct ids.  They
    are taken, in order, from the boards the in-scope ports report; for
    every id that is reported, the one board of the result with that id is
    the first reported with it. *)
Theorem discover_boards_unique `{UnicodeData}
    (ports_all : list (ListPortInfo * Session)) :
  let ports := in_scope ports_all in
  ∃ boards : list Board,
    (scan None ports start).1 = Ret (reported ports)
    ∧ (discover_boards None ports_all start).1 = Ret boards
    ∧ NoDup (board_id <$> boards)
    ∧ sublist boards (reported ports)
    ∧ (∀ b, b ∈ reported ports →
         ∃ b' pre post,
           reported ports = pre ++ b' :: post
           ∧ board_id b' = board_id b
           ∧ Forall (fun x => board_id x ≠ board_id b) pre
           ∧ b' ∈ boards
           ∧ ∀ b'', b'' ∈ boards → board_id b'' = board_id b → b'' = b').
Proof.
  intros ports. exists (dedupe ∅ (reported ports)).
  destruct (scan_run None ports start) as [n Hscan].
  destruct (discover_run None ports_all) as [m Hrun].
  fold ports in Hrun. rewrite scan_result_settled in Hscan, Hrun.
  rewrite Hscan, Hrun. cbn [fst].
  split; [done|]. split; [done|].
  split; [apply dedupe_NoDup|]. split; [apply dedupe_sublist|].
  intros b Hb.
  destruct (dedupe_first ∅ (reported ports) b Hb) as
    (b' & pre & post & Heq & Hid & Hpre & Hin); [apply not_elem_of_empty|].
  exists b', pre, post. repeat split; try done.
  intros b'' Hin'' Hid''.
  pose proof (dedupe_NoDup ∅ (reported ports)) as Hnd.
  apply list_elem_of_lookup in Hin as [i Hi].
  apply list_elem_of_lookup in Hin'' as [j Hj].
  assert (i = j) as ->.
  { eapply NoDup_lookup; [exact Hnd| |].
    - by rewrite list_lookup_fmap, Hi.
    - rewrite list_lookup_fmap, Hj. simpl. congruence. }
  congruence.
Qed.

(** C5. A discovery with a settle delay that [time.sleep] accepts returns
    normally for every list of ports and every behaviour of their
    transports, with the boards it identified.  A port whose open fails or
    whose write does not complete yields no board, and leaving it out of
    the enumeration does not change the boards returned. *)
Theorem discover_boards_resilient :
  (∀ (U : UnicodeData) (ports_all : list (ListPortInfo * Session)),
     (discover_boards None ports_all start).1
     = Ret (dedupe ∅ (reported (in_scope ports_all))))
  ∧ (∀ (p : ListPortInfo) (s : Session) (w : world),
       s_open s ≠ Done ∨ s_write s ≠ Done →
       (probe None p s w).1 = Ret [])
  ∧ (∀ (U : UnicodeData) (l1 l2 : list (ListPortInfo * Session))
       (p : ListPortInfo) (s : Session),
       s_open s ≠ Done ∨ s_write s ≠ Done →
       (discover_boards None (l1 ++ (p, s) :: l2) start).1
       = (discover_boards None (l1 ++ l2) start).1).
Proof.
  assert (Hrun : ∀ (U : UnicodeData) ports_all,
            (discover_boards None ports_all start).1
            = Ret (dedupe ∅ (reported (in_scope ports_all)))).
  { intros U ports_all. destruct (discover_run None ports_all) as [n ->].
    by rewrite scan_result_settled. }
  split; [done|]. split.
  - intros p s w Hfail. rewrite probe_run. cbn [fst].
    unfold probe_result. rewrite identified_none by done.
    by destruct (s_open s).
  - intros U l1 l2 p s Hfail. rewrite !Hrun. do 2 f_equal.
    rewrite !in_scope_app, !reported_app. f_equal.
    change ((p, s) :: l2) with ([(p, s)] ++ l2).
    rewrite in_scope_app, reported_app.
    assert (reported (in_scope [(p, s)]) = []) as ->; [|done].
    unfold in_scope, reported. simpl.
    destruct (is_usb_serial_port p); [|done]. simpl.
    by rewrite identified_none.
Qed.

(** C8.  On every path of a discovery (normal completion, a skipped port,
    an exception raised under the [try]) every transport it opened is
    closed before it returns, and no failure of a close is propagated: the
    only exception that leaves a discovery is the one [time.sleep] raises
    for the settle delay.  The same holds for a broadcast, on every path
    (normal completion, no port opened, an exception raised under the
    [try]) and for every list of boards: the handles of the table are
    closed by the cleanup loop, a handle displaced from the table was
    closed when it was displaced, and the only exception that leaves a
    broadcast is the [UnicodeEncodeError] of a command that cannot be
    encoded. *)
Theorem transports_closed :
  (∀ (U : UnicodeData) (settle : option exn)
     (ports_all : list (ListPortInfo * Session)),
     let run := discover_boards settle ports_all start in
     all_closed (trace run.2) = true
     ∧ ∀ e, run.1 = Raise e → settle = Some e)
  ∧ (∀ (boards : list (Board * Session)) (cmd : str),
       let run := broadcast_command boards cmd start in
       all_closed (trace run.2) = true
       ∧ ∀ e, run.1 = Raise e →
              e = UnicodeEncodeError
              ∧ encode_utf8 (strip cmd ++ [10%N]) = None).
Proof.
  split.
  - intros U settle ports_all run. subst run.
    destruct (discover_run settle ports_all) as [n ->]. cbn [fst snd trace].
    split; [apply all_closed_scan|].
    intros e. destruct (scan_result settle (in_scope ports_all)) eqn:Hres;
      [done|].
    intros [= <-]. by eapply scan_result_raise.
  - intros boards cmd run. subst run. rewrite broadcast_run.
    cbn [fst snd trace]. split; [by apply broadcast_all_closed|].
    intros e. unfold broadcast_result. destruct (sers_of boards); [done|].
    destruct (encode_utf8 (strip cmd ++ [10%N])); [done|]. by intros [= <-].
Qed.

(** ** The scenarios of the specification *)

(** Two ports are enumerated; only the USB one is probed, it answers the
    challenge, and the broadcast that follows reaches it alone. *)
Example end_to_end `{UnicodeData} :
  let E1 := {| device := lit "COM7";
               description := Some (lit "USB Serial Device (COM7)");
               hwid := Some (lit "USB VID:PID=16C0:0483");
               manufacturer := None |} in
  let E2 := {| device := lit "COM4";
               description := Some (lit "Standard Serial over Bluetooth link (COM4)");
               hwid := Some (lit "BTHENUM\VID_BLUETOOTH");
               manufacturer := None |} in
  let B1 := {| port := lit "COM7"; board_id := lit "B1_BACK_LEFT";
               fw := lit "1.2"; caps := lit "wave,row0";
               desc := lit "USB Serial Device (COM7)" |} in
  discover_boards None
    [(E2, quiet);
     (E1, answers [bytes "HELLO";
                   bytes "ID B1_BACK_LEFT FW 1.2 CAPS wave,row0"])] start
  = (Ret [B1],
     {| next_fd := 1;
        trace := [Open 0 (lit "COM7"); ResetInput 0; ResetOutput 0;
                  Write 0 (bytes "DISCOVER?" ++ ["010"%byte]); Flush 0;
                  ReadLines 0; Close 0] |})
  ∧ broadcast_command [(B1, answers [bytes "OK stop"])] (lit "sync stop 200")
      start
    = (Ret (),
       {| next_fd := 1;
          trace := [Open 0 (lit "COM7"); ResetInput 0;
                    Write 0 (bytes "sync stop 200" ++ ["010"%byte]); Flush 0;
                    ReadLines 0;
                    Print (AckLines (lit "B1_BACK_LEFT") [lit "OK stop"]);
                    Close 0] |}).
Proof. by vm_compute. Qed.

(** Two ports answer with the same id: the board of the first is kept. *)
Example duplicate_id `{UnicodeData} :
  (discover_boards None
     [(usb_port "COM7", answers [bytes "ID B1 FW 1.2 CAPS wave"]);
      (usb_port "COM8", answers [bytes "ID B1 FW 1.3 CAPS row0"])] start).1
  = Ret [ {| port := lit "COM7"; board_id := lit "B1"; fw := lit "1.2";
             caps := lit "wave"; desc := lit "USB Serial Device" |} ].
Proof. by vm_compute. Qed.

(** A broadcast to no board opens nothing and reports it. *)
Example no_targets (cmd : str) :
  broadcast_command [] cmd start
  = (Ret (), {| next_fd := 0; trace := [Print NoPortsCouldBeOpened] |}).
Proof. reflexivity. Qed.

(** The two ways an exception leaves a run: a settle delay that
    [time.sleep] rejects, and a command that has no UTF-8 encoding.  The
    transport that was open is closed on the way out. *)
Example exceptions_propagate `{UnicodeData} :
  discover_boards (Some OverflowError) [(usb_port "COM7", quiet)] start
  = (Raise OverflowError,
     {| next_fd := 1;
        trace := [Open 0 (lit "COM7"); ResetInput 0; ResetOutput 0; Close 0] |})
  ∧ broadcast_command [(board "B1" "COM7", quiet)] [55296%N] start
    = (Raise UnicodeEncodeError,
       {| next_fd := 1; trace := [Open 0 (lit "COM7"); Close 0] |}).
Proof. by vm_compute. Qed.

(** A port that opens and whose write times out yields no board; the
    port after it is still identified. *)
Example write_timeout_skipped `{UnicodeData} :
  discover_boards None
    [(usb_port "COM7", stalled);
     (usb_port "COM8", answers [bytes "ID B2 FW 1.2 CAPS wave"])] start
  = (Ret [ {| port := lit "COM8"; board_id := lit "B2"; fw := lit "1.2";
              caps := lit "wave"; desc := lit "USB Serial Device" |} ],
     {| next_fd := 2;
        trace := [Open 0 (lit "COM7"); ResetInput 0; ResetOutput 0;
                  Write 0 (bytes "DISCOVER?" ++ ["010"%byte]); Close 0;
                  Open 1 (lit "COM8"); ResetInput 1; ResetOutput 1;
                  Write 1 (bytes "DISCOVER?" ++ ["010"%byte]); Flush 1;
                  ReadLines 1; Close 1] |}).
Proof. by vm_compute. Qed.

(** * Further properties *)

(** ** Text *)

Lemma drop_while_nonspace (s : str) :
  match drop_while isspace s with
  | [] => True
  | c :: _ => isspace c = false
  end.
Proof.
  induction s as [|c s IH]; simpl; [done|].
  destruct (isspace c) eqn:Hc; [done|]. done.
Qed.

Lemma drop_while_suffix (s : str) :
  ∃ pre, s = pre ++ drop_while isspace s.
Proof.
  induction s as [|c s [pre IH]]; simpl; [by exists []|].
  destruct (isspace c); [|by exists []].
  exists (c :: pre). simpl. by f_equal.
Qed.

Lemma last_snoc (s : str) (c d : N) : List.last (s ++ [c]) d = c.
Proof. apply List.last_last. Qed.

Lemma strip_tidy (s : str) : tidy (strip s) = true.
Proof.
  unfold strip.
  pose proof (drop_while_nonspace s) as Hhead.
  set (a := drop_while isspace s) in *.
  pose proof (drop_while_nonspace (rev a)) as Hlast.
  destruct (drop_while_suffix (rev a)) as [pre Hpre].
  set (r := drop_while isspace (rev a)) in *.
  assert (Ha : a = rev r ++ rev pre).
  { rewrite <- (rev_involutive a), Hpre, rev_app_distr. done. }
  destruct r as [|c t]; [done|].
  simpl rev in *. rewrite Ha in Hhead. unfold tidy.
  destruct (rev t) as [|x y]; simpl in *.
  - by rewrite Hlast.
  - rewrite Hhead. simpl.
    destruct (y ++ [c]) as [|z w] eqn:Hyc; [by destruct y|].
    by rewrite <- Hyc, last_snoc, Hlast.
Qed.

Lemma strip_id (s : str) : tidy s = true → strip s = s.
Proof.
  unfold tidy, strip. destruct s as [|c t]; [done|].
  intros [Hc Hl]%andb_true_iff.
  apply negb_true_iff in Hc, Hl.
  cbn [drop_while]. rewrite Hc.
  destruct (exists_last (l := c :: t)) as (t' & c' & Heq); [done|].
  rewrite Heq in Hl |- *. rewrite last_snoc in Hl.
  rewrite rev_app_distr. cbn [rev app drop_while]. rewrite Hl.
  cbn [rev]. by rewrite rev_involutive.
Qed.

Lemma split_acc_tokens (cur s tok : str) :
  has_space cur = false → tok ∈ split_acc cur s → token tok.
Proof.
  revert cur. induction s as [|c s IH]; intros cur Hcur; simpl.
  - destruct cur; simpl; [by intros ?%elem_of_nil|].
    intros ->%list_elem_of_singleton. by split.
  - destruct (isspace c) eqn:Hc.
    + rewrite elem_of_app. intros [Hin|Hin]; [|by apply (IH [])].
      destruct cur; simpl in Hin; [by apply elem_of_nil in Hin|].
      apply list_elem_of_singleton in Hin as ->. by split.
    + apply IH. unfold has_space in *. rewrite existsb_app, Hcur. simpl.
      by rewrite Hc.
Qed.

Lemma split_tokens (s tok : str) : tok ∈ split s → token tok.
Proof. by apply split_acc_tokens. Qed.

Lemma split_token_end (tok : str) : token tok → split tok = [tok].
Proof.
  intros [Hne Hs]. unfold split.
  rewrite <- (app_nil_r tok) at 1. rewrite split_acc_token by done.
  simpl. by destruct tok.
Qed.

(** Joining tokens with single spaces and splitting again gives the
    tokens back. *)
Lemma split_join (toks : list str) :
  Forall token toks → split (join (lit " ") toks) = toks.
Proof.
  induction toks as [|t toks IH]; [done|].
  intros [Ht Htoks]%Forall_cons. destruct toks as [|t' toks].
  - simpl. by apply split_token_end.
  - change (join (lit " ") (t :: t' :: toks))
      with (t ++ 32%N :: join (lit " ") (t' :: toks)).
    destruct Ht. rewrite split_token by done. by rewrite IH.
Qed.

Lemma join_split (s : str) : split (join (lit " ") (split s)) = split s.
Proof. apply split_join. apply Forall_forall. apply split_tokens. Qed.

(** ** Reading lines *)

(** X1. Every line that [read_lines_for] collects is the stripped decoding
    of a non-empty read, is not empty, and has no whitespace at either
    end. *)
Theorem read_lines_stripped (window : list readline_result) (line : str) :
  line ∈ read_lines window →
  line ≠ [] ∧ tidy line = true
  ∧ ∃ raw, Line raw ∈ window ∧ raw ≠ [] ∧ line = strip (decode_ignore raw).
Proof.
  induction window as [|r window IH]; simpl.
  - by intros ?%elem_of_nil.
  - destruct r as [raw|]; [|by intros ?%elem_of_nil].
    assert (Hrest : line ∈ read_lines window →
                    line ≠ [] ∧ tidy line = true
                    ∧ ∃ raw', Line raw' ∈ Line raw :: window ∧ raw' ≠ []
                              ∧ line = strip (decode_ignore raw')).
    { intros Hin. destruct (IH Hin) as (? & ? & raw' & ? & ? & ?).
      split; [done|]. split; [done|]. exists raw'. split; [by right|done]. }
    destruct raw as [|b raw]; [done|].
    destruct (strip (decode_ignore (b :: raw))) as [|c t] eqn:Hline; [done|].
    intros [->|Hin]%elem_of_cons; [|by apply Hrest].
    split; [done|]. split; [rewrite <- Hline; apply strip_tidy|].
    exists (b :: raw). split; [left|done].
Qed.

Lemma read_lines_stripped_witness :
  lit "OK stop" ≠ [] ∧ tidy (lit "OK stop") = true
  ∧ ∃ raw, Line raw ∈ [Line []; Line (bytes "  OK stop ")]
           ∧ raw ≠ [] ∧ lit "OK stop" = strip (decode_ignore raw).
Proof.
  apply (read_lines_stripped [Line []; Line (bytes "  OK stop ")]).
  vm_compute. left.
Defined.

(** X2. A read that raises ends the collection: the lines read before it
    are returned and the reads after it are not made.  A read that times
    out, or whose text is blank, changes nothing. *)
Theorem read_lines_error_and_blank :
  (∀ a b : list readline_result,
     read_lines (a ++ ReadError :: b) = read_lines a)
  ∧ (∀ (a b : list readline_result) (raw : list byte),
       strip (decode_ignore raw) = [] →
       read_lines (a ++ Line raw :: b) = read_lines (a ++ b)).
Proof.
  split.
  - intros a b. induction a as [|r a IH]; simpl; [done|].
    destruct r as [raw|]; [|done]. by rewrite IH.
  - intros a b raw Hblank. induction a as [|r a IH]; simpl.
    + destruct raw; [done|]. by rewrite Hblank.
    + destruct r as [raw'|]; [|done]. by rewrite IH.
Qed.

(** ** Response parser *)

(** X3. The board id and the firmware version that [parse_id_line] returns
    are tokens: not empty and free of whitespace.  The capabilities it
    returns are normalised: splitting them and joining the tokens with
    single spaces gives them back. *)
Theorem parse_id_line_tokens (line bid fw caps : str) :
  parse_id_line line = Ret (Some (bid, fw, caps)) →
  token bid ∧ token fw ∧ join (lit " ") (split caps) = caps.
Proof.
  intros Hparse.
  pose proof (parse_id_line_cases line) as Hcases. cbv zeta in Hcases.
  destruct Hcases as
    [[Hnone _]|(i & k & bid' & fw' & _ & _ & _ & Hbid & Hfw & Hsome)];
    [congruence|].
  rewrite Hsome in Hparse. injection Hparse as <- <- <-.
  split; [|split].
  - eapply split_tokens, list_elem_of_lookup_2, Hbid.
  - eapply split_tokens, list_elem_of_lookup_2, Hfw.
  - rewrite split_join; [done|].
    apply Forall_forall. intros tok Hin. apply (split_tokens line).
    apply list_elem_of_lookup in Hin as [j Hj].
    rewrite lookup_drop in Hj. by eapply list_elem_of_lookup_2.
Qed.

Lemma parse_id_line_tokens_witness :
  token (lit "B1") ∧ token (lit "1.2")
  ∧ join (lit " ") (split (lit "wave row0")) = lit "wave row0".
Proof.
  apply (parse_id_line_tokens (lit "ID  B1 FW 1.2  CAPS wave   row0 ")).
  reflexivity.
Defined.

(** ** Discovery engine *)

Lemma uses_probe_events settle p s m n :
  uses n (probe_events settle p s m)
  = if decide (n = m) then
      match s_open s with
      | Done => probe_events settle p s m
      | _ => []
      end
    else [].
Proof.
  unfold probe_events, clear_events, ask_events, read_id_events, asked, uses.
  destruct (decide (n = m)) as [->|Hne].
  - destruct (s_open s); [|done..].
    destruct (s_reset_input_buffer s), settle, (s_write s), (s_flush s),
      (first_id_line (read_lines (nth 0 (s_windows s) [])));
      simpl; by rewrite ?bool_decide_eq_true_2.
  - destruct (s_open s); [|done..].
    destruct (s_reset_input_buffer s), settle, (s_write s), (s_flush s),
      (first_id_line (read_lines (nth 0 (s_windows s) [])));
      simpl; by rewrite ?bool_decide_eq_false_2 by congruence.
Qed.

Lemma uses_scan_lt settle ports m n :
  n < m → uses n (scan_trace settle ports m) = [].
Proof.
  revert m. induction ports as [|[p s] rest IH]; intros m Hlt; simpl; [done|].
  rewrite uses_app, uses_probe_events, decide_False by lia.
  destruct (probe_result settle p s); [|done]. apply IH. lia.
Qed.

(** The calls of a discovery on one handle are those of one probe. *)
Lemma uses_scan settle ports m n :
  uses n (scan_trace settle ports m) = []
  ∨ ∃ p s, (p, s) ∈ ports ∧ s_open s = Done
           ∧ uses n (scan_trace settle ports m)
             = probe_events settle p s n.
Proof.
  revert m. induction ports as [|[p s] rest IH]; intros m; simpl; [by left|].
  rewrite uses_app, uses_probe_events.
  destruct (decide (n = m)) as [->|Hne].
  - assert (Hrest : uses m match probe_result settle p s with
                           | Ret _ => scan_trace settle rest (m + opens s)
                           | Raise _ => []
                           end = []
                    ∨ s_open s ≠ Done).
    { unfold opens. destruct (s_open s) eqn:Ho; [|by right..]. left.
      destruct (probe_result settle p s); [|done].
      apply uses_scan_lt. lia. }
    destruct (s_open s) eqn:Ho.
    + destruct Hrest as [->|?]; [|done]. right. exists p, s.
      split; [left|]. split; [done|]. by rewrite app_nil_r.
    + simpl. unfold probe_result, opens. rewrite Ho, Nat.add_0_r.
      destruct (IH m) as [Hnil|(p' & s' & Hin & Ho' & Heq)]; [by left|].
      right. exists p', s'. split; [by right|done].
    + simpl. unfold probe_result, opens. rewrite Ho, Nat.add_0_r.
      destruct (IH m) as [Hnil|(p' & s' & Hin & Ho' & Heq)]; [by left|].
      right. exists p', s'. split; [by right|done].
  - simpl. destruct (probe_result settle p s); [|by left].
    destruct (IH (m + opens s)) as [Hnil|(p' & s' & Hin & Ho' & Heq)];
      [by left|].
    right. exists p', s'. split; [by right|done].
Qed.

Lemma writes_to_probe_events settle p s n :
  writes_to n (probe_events settle p s n) = []
  ∨ writes_to n (probe_events settle p s n) = [challenge].
Proof.
  unfold probe_events, clear_events, ask_events, read_id_events, asked,
    writes_to, challenge.
  destruct (s_open s); [|by left..].
  destruct (s_reset_input_buffer s), settle, (s_write s), (s_flush s),
    (first_id_line (read_lines (nth 0 (s_windows s) [])));
    simpl; rewrite ?decide_True by done; auto.
Qed.

(** X4. A discovery writes nothing but the challenge: to each transport
    at most once, and then exactly the bytes of ["DISCOVER?\n"]. *)
Theorem discover_writes_challenge `{UnicodeData} (settle : option exn)
    (ports_all : list (ListPortInfo * Session)) (n : nat) :
  let tr := trace (discover_boards settle ports_all start).2 in
  writes_to n tr = [] ∨ writes_to n tr = [challenge].
Proof.
  cbv zeta. destruct (discover_run settle ports_all) as [m ->].
  cbn [snd trace]. rewrite writes_to_uses.
  destruct (uses_scan settle (in_scope ports_all) 0 n)
    as [->|(p & s & _ & _ & ->)]; [by left|].
  apply writes_to_probe_events.
Qed.

Lemma attempts_app a b : attempts (a ++ b) = attempts a ++ attempts b.
Proof. unfold attempts. apply flat_map_app. Qed.

Lemma attempts_probe settle p s n :
  attempts (probe_events settle p s n) = [device p].
Proof.
  unfold probe_events, clear_events, ask_events, read_id_events, asked,
    attempts.
  destruct (s_open s); [|done..].
  by destruct (s_reset_input_buffer s), settle, (s_write s), (s_flush s),
    (first_id_line (read_lines (nth 0 (s_windows s) []))).
Qed.

(** X5. The ports a discovery tries to open are ports the filter
    accepts, each once and in the order of the enumeration; a port the
    filter rejects is not opened.  When [time.sleep] accepts the settle
    delay they are all the ports the filter accepts.  When it rejects the
    delay, its exception ends the run at the first port that opens: the
    ports tried are those up to and including that one. *)
Theorem discover_opens_in_scope `{UnicodeData} (settle : option exn)
    (ports_all : list (ListPortInfo * Session)) :
  let tr := trace (discover_boards settle ports_all start).2 in
  attempts tr
  = (fun c => device c.1)
    <$> match settle with
        | None => in_scope ports_all
        | Some _ => until_open (in_scope ports_all)
        end.
Proof.
  cbv zeta. destruct (discover_run settle ports_all) as [m ->].
  cbn [snd trace]. generalize 0. generalize (in_scope ports_all).
  intros ports. induction ports as [|[p s] rest IH]; intros n; simpl.
  - by destruct settle.
  - rewrite attempts_app, attempts_probe. unfold probe_result.
    specialize (IH (n + opens s)).
    destruct settle as [e|], (s_open s); simpl; by rewrite ?IH.
Qed.

Lemma peak_ge k tr : k ≤ peak k tr.
Proof.
  revert k. induction tr as [|ev tr IH]; intros k; simpl; [done|].
  destruct ev; try apply IH; [|lia].
  specialize (IH (S k)). lia.
Qed.

Lemma level_app k a b : level k (a ++ b) = level (level k a) b.
Proof.
  revert k. induction a as [|ev a IH]; intros k; simpl; [done|].
  destruct ev; apply IH.
Qed.

Lemma peak_app k a b :
  peak k (a ++ b) = Nat.max (peak k a) (peak (level k a) b).
Proof.
  revert k. induction a as [|ev a IH]; intros k; simpl.
  - pose proof (peak_ge k b). lia.
  - destruct ev; rewrite ?IH; lia.
Qed.

Lemma level_peak_probe settle p s n k :
  level k (probe_events settle p s n) = k
  ∧ peak k (probe_events settle p s n) ≤ S k.
Proof.
  unfold probe_events, clear_events, ask_events, read_id_events, asked.
  destruct (s_open s); [|simpl; lia..].
  destruct (s_reset_input_buffer s), settle, (s_write s), (s_flush s),
    (first_id_line (read_lines (nth 0 (s_windows s) [])));
    simpl; lia.
Qed.

Lemma scan_sequential settle ports n :
  peak 0 (scan_trace settle ports n) ≤ 1
  ∧ level 0 (scan_trace settle ports n) = 0.
Proof.
  revert n. induction ports as [|[p s] rest IH]; intros n; simpl.
  - lia.
  - rewrite peak_app, level_app.
    destruct (level_peak_probe settle p s n 0) as [-> Hpeak].
    destruct (probe_result settle p s).
    + destruct (IH (n + opens s)). lia.
    + simpl. lia.
Qed.

(** X6. A discovery is sequential: at no time is more than one transport
    open, and none is open when it returns or raises. *)
Theorem discover_sequential `{UnicodeData} (settle : option exn)
    (ports_all : list (ListPortInfo * Session)) :
  let tr := trace (discover_boards settle ports_all start).2 in
  peak 0 tr ≤ 1 ∧ level 0 tr = 0.
Proof.
  cbv zeta. destruct (discover_run settle ports_all) as [m ->].
  cbn [snd trace]. apply scan_sequential.
Qed.

Lemma elem_of_reported b ports :
  b ∈ reported ports → ∃ p s, (p, s) ∈ ports ∧ b ∈ identified p s.
Proof.
  unfold reported. intros ([p s] & Hin & Hb)%elem_of_flat_map.
  by exists p, s.
Qed.

Lemma first_id_line_prefix lines ln :
  first_id_line lines = Some ln → startswith ln (lit "ID ") = true.
Proof.
  unfold first_id_line. intros Hfind. by apply find_some in Hfind as [_ ?].
Qed.

(** X7. A board is returned only for a port that the filter accepts, that
    opened, took the challenge (write and flush returned) and answered, in
    one of the two read passes, with a line that starts with ["ID "] and
    that [parse_id_line] accepts.  The board carries the device name and
    the description of that port and the fields parsed from that line; its
    id and firmware version are not empty and free of whitespace. *)
Theorem discover_boards_provenance `{UnicodeData}
    (ports_all : list (ListPortInfo * Session)) (boards : list Board)
    (b : Board) :
  (discover_boards None ports_all start).1 = Ret boards →
  b ∈ boards →
  ∃ p s ln,
    (p, s) ∈ ports_all ∧ is_usb_serial_port p = true
    ∧ s_open s = Done ∧ s_write s = Done ∧ s_flush s = Done
    ∧ id_line_of s = Some ln ∧ startswith ln (lit "ID ") = true
    ∧ parse_id_line ln = Ret (Some (board_id b, fw b, caps b))
    ∧ port b = device p ∧ desc b = or_empty (description p)
    ∧ token (board_id b) ∧ token (fw b).
Proof.
  destruct (discover_run None ports_all) as [m ->]. cbn [fst].
  rewrite scan_result_settled. intros [= <-] Hin.
  eapply elem_of_sublist in Hin; [|apply dedupe_sublist].
  apply elem_of_reported in Hin as (p & s & Hps & Hb).
  unfold in_scope in Hps. apply list_elem_of_In, filter_In in Hps as [Hps Hok].
  apply list_elem_of_In in Hps. simpl in Hok.
  unfold identified, asked in Hb.
  destruct (s_open s) eqn:Ho; [|by apply elem_of_nil in Hb..].
  destruct (s_write s) eqn:Hw; [|by apply elem_of_nil in Hb..].
  destruct (s_flush s) eqn:Hf; [|by apply elem_of_nil in Hb..].
  destruct (id_line_of s) as [ln|] eqn:Hln; [|by apply elem_of_nil in Hb].
  destruct (parse_id_line ln) as [[[[bid fw'] caps']|]|] eqn:Hparse;
    [|by apply elem_of_nil in Hb..].
  apply list_elem_of_singleton in Hb as ->. simpl.
  assert (Hpre : startswith ln (lit "ID ") = true).
  { unfold id_line_of in Hln.
    destruct (first_id_line (read_lines (nth 0 (s_windows s) []))) eqn:H0.
    - injection Hln as ->. by eapply first_id_line_prefix.
    - by eapply first_id_line_prefix. }
  pose proof (parse_id_line_cases ln) as Hcases. cbv zeta in Hcases.
  destruct Hcases as
    [[Hnone _]|(i & k & bid0 & fw0 & _ & _ & _ & Hbid & Hfw & Hsome)];
    [congruence|].
  assert (Htb : token bid0)
    by (eapply split_tokens, list_elem_of_lookup_2, Hbid).
  assert (Htf : token fw0)
    by (eapply split_tokens, list_elem_of_lookup_2, Hfw).
  rewrite Hsome in Hparse. injection Hparse as <- <- <-.
  exists p, s, ln. by rewrite Hsome.
Qed.

Lemma discover_boards_provenance_witness :
  ∃ p s ln,
    (p, s) ∈ [(usb_port "COM7", answers [bytes "ID B1 FW 1.2 CAPS wave"])]
    ∧ @is_usb_serial_port ascii_case p = true
    ∧ s_open s = Done ∧ s_write s = Done ∧ s_flush s = Done
    ∧ id_line_of s = Some ln ∧ startswith ln (lit "ID ") = true
    ∧ parse_id_line ln = Ret (Some (lit "B1", lit "1.2", lit "wave"))
    ∧ lit "COM7" = device p
    ∧ lit "USB Serial Device" = or_empty (description p)
    ∧ token (lit "B1") ∧ token (lit "1.2").
Proof.
  apply (discover_boards_provenance (H:=ascii_case)
           [(usb_port "COM7", answers [bytes "ID B1 FW 1.2 CAPS wave"])]
           [ {| port := lit "COM7"; board_id := lit "B1"; fw := lit "1.2";
                caps := lit "wave"; desc := lit "USB Serial Device" |} ]
           {| port := lit "COM7"; board_id := lit "B1"; fw := lit "1.2";
              caps := lit "wave"; desc := lit "USB Serial Device" |}).
  - reflexivity.
  - left.
Defined.

Lemma dedupe_distinct seen boards :
  NoDup (board_id <$> boards) →
  (∀ b, b ∈ boards → board_id b ∉ seen) →
  dedupe seen boards = boards.
Proof.
  revert seen. induction boards as [|x rest IH]; intros seen; [done|].
  rewrite fmap_cons. intros [Hnot Hnd]%NoDup_cons Hseen. simpl.
  rewrite decide_False by (apply Hseen; left).
  f_equal. apply IH; [done|]. intros b Hb.
  apply not_elem_of_union. split; [|apply Hseen; by right].
  apply not_elem_of_singleton. intros Heq. apply Hnot. rewrite <- Heq.
  by apply list_elem_of_fmap_2.
Qed.

(** X8. When the boards the in-scope ports report have pairwise distinct
    ids, a discovery returns every one of them, in the order of the
    ports: the de-duplication removes nothing. *)
Theorem discover_boards_distinct `{UnicodeData}
    (ports_all : list (ListPortInfo * Session)) :
  NoDup (board_id <$> reported (in_scope ports_all)) →
  (discover_boards None ports_all start).1
  = Ret (reported (in_scope ports_all)).
Proof.
  intros Hnd. destruct (discover_run None ports_all) as [m ->]. cbn [fst].
  rewrite scan_result_settled, dedupe_distinct; [done|done|].
  intros b _. apply not_elem_of_empty.
Qed.

Lemma discover_boards_distinct_witness :
  (@discover_boards ascii_case None
     [(usb_port "COM7", answers [bytes "ID B1 FW 1.2 CAPS wave"]);
      (usb_port "COM8", answers [bytes "ID B2 FW 1.2 CAPS wave"])] start).1
  = Ret (reported
           (@in_scope ascii_case
              [(usb_port "COM7", answers [bytes "ID B1 FW 1.2 CAPS wave"]);
               (usb_port "COM8", answers [bytes "ID B2 FW 1.2 CAPS wave"])])).
Proof.
  apply (discover_boards_distinct (H:=ascii_case)).
  apply (bool_decide_unpack _). vm_compute. exact I.
Defined.

(** ** Broadcast coordinator *)

Lemma nothing_opens boards n sers :
  Forall (fun bs : Board * Session => s_open bs.2 ≠ Done) boards →
  opened boards n = [] ∧ open_events boards n sers = failed_opens boards.
Proof.
  unfold failed_opens. induction boards as [|[b s] rest IH]; [done|].
  intros [Ho Hrest]%Forall_cons. simpl in *.
  destruct (IH Hrest) as [-> ->]. by destruct (s_open s).
Qed.

(** X9. When no port opens, a broadcast warns about each board, reports
    that no port could be opened and returns: it does not encode the
    command or write, flush or read anything, so it returns normally even
    for a command that has no UTF-8 encoding. *)
Theorem broadcast_nothing_opens (boards : list (Board * Session)) (cmd : str) :
  Forall (fun bs : Board * Session => s_open bs.2 ≠ Done) boards →
  broadcast_command boards cmd start
  = (Ret (),
     {| next_fd := 0;
        trace := failed_opens boards ++ [Print NoPortsCouldBeOpened] |}).
Proof.
  intros Hfail. rewrite broadcast_run.
  unfold broadcast_result, broadcast_trace, sers_of.
  by destruct (nothing_opens boards 0 [] Hfail) as [-> ->].
Qed.

Lemma broadcast_nothing_opens_witness :
  broadcast_command
    [(board "B1" "COM7", unopenable); (board "B2" "COM8", unopenable)]
    [55296%N] start
  = (Ret (),
     {| next_fd := 0;
        trace := failed_opens
                   [(board "B1" "COM7", unopenable);
                    (board "B2" "COM8", unopenable)]
                 ++ [Print NoPortsCouldBeOpened] |}).
Proof.
  apply (broadcast_nothing_opens
           [(board "B1" "COM7", unopenable); (board "B2" "COM8", unopenable)]
           [55296%N]).
  repeat constructor; discriminate.
Defined.

Lemma sorted_constant (k : nat) (tr : list event) :
  Forall (fun ev => phase ev = k) tr → StronglySorted le (phase <$> tr).
Proof.
  induction 1 as [|ev tr Hev Htr IH]; [constructor|].
  rewrite fmap_cons. constructor; [done|].
  rewrite Hev. apply Forall_fmap. eapply Forall_impl; [exact Htr|].
  intros ev' Hev'. unfold compose. by rewrite Hev'.
Qed.

Lemma phase_flat_map {A} (f : A → list event) (l : list A) (k : nat) :
  (∀ x, Forall (fun ev => phase ev = k) (f x)) →
  Forall (fun ev => phase ev = k) (flat_map f l).
Proof.
  intros Hf. induction l as [|x l IH]; simpl; [constructor|].
  apply Forall_app. by split.
Qed.

Lemma displaced_fresh k sers : k ∉ sers.*1 → displaced k sers = [].
Proof.
  intros Hk. unfold displaced.
  destruct (dict_get k sers) as [old|] eqn:Hold; [|done].
  destruct Hk. apply list_elem_of_fmap. exists (k, old).
  split; [done|by apply dict_get_elem].
Qed.

(** The opening loop on boards with pairwise distinct ids, none of them a
    key of the table it starts with, displaces no handle. *)
Lemma phase_open_events boards n sers :
  NoDup (sers.*1 ++ ids boards) →
  Forall (fun ev => phase ev = 0) (open_events boards n sers).
Proof.
  revert n sers. induction boards as [|[b s] rest IH]; intros n sers Hnd;
    simpl; [constructor|].
  unfold ids in Hnd. rewrite fmap_cons in Hnd. simpl in Hnd.
  assert (Hrest : NoDup (sers.*1 ++ ids rest)).
  { apply NoDup_app in Hnd as (? & Hdisj & [_ ?]%NoDup_cons).
    apply NoDup_app. split; [done|]. split; [|done].
    intros k Hk Hin. apply (Hdisj k Hk). by right. }
  destruct (s_open s); [|repeat constructor; by apply IH..].
  assert (Hfresh : board_id b ∉ sers.*1).
  { apply NoDup_app in Hnd as (_ & Hdisj & _).
    intros Hin. apply (Hdisj _ Hin). left. }
  rewrite (displaced_fresh _ _ Hfresh). constructor; [done|].
  apply IH. rewrite (dict_set_fresh _ _ _ Hfresh), fmap_app.
  rewrite <- app_assoc. simpl. exact Hnd.
Qed.

Lemma sorted_segments (a b : list event) (k : nat) :
  Forall (fun ev => phase ev = k) a →
  StronglySorted le (phase <$> b) →
  Forall (fun ev => k ≤ phase ev) b →
  StronglySorted le (phase <$> (a ++ b)).
Proof.
  intros Ha Hb Hle. rewrite fmap_app. apply StronglySorted_app.
  split; [|split; [by eapply sorted_constant|done]].
  intros x y Hx Hy.
  apply list_elem_of_fmap in Hx as (ev & -> & Hev).
  apply list_elem_of_fmap in Hy as (ev' & -> & Hev').
  rewrite Forall_forall in Ha, Hle. rewrite (Ha ev Hev). by apply Hle.
Qed.

(** X10. The steps of a broadcast to boards with pairwise distinct ids do
    not interleave: every port is opened before the first write, every
    write is issued before the first flush, every flush before the first
    read, and every read before the first close.  (With a repeated id a
    handle is closed while the ports are being opened: the one
    displaced.) *)
Theorem broadcast_phases (boards : list (Board * Session)) (cmd : str) :
  NoDup (ids boards) →
  StronglySorted le
    (phase <$> trace (broadcast_command boards cmd start).2).
Proof.
  intros Hids. rewrite broadcast_run. cbn [snd trace]. unfold broadcast_trace. cbv zeta.
  assert (Hw : ∀ payload item,
            Forall (fun ev => phase ev = 1) (write_events payload item)).
  { intros payload item. unfold write_events.
    destruct (s_write (session item.2)); repeat constructor. }
  assert (Hf : ∀ item, Forall (fun ev => phase ev = 2) (flush_events item))
    by (intros; repeat constructor).
  assert (Hr : ∀ item, Forall (fun ev => phase ev = 3) (read_events item)).
  { intros item. unfold read_events.
    destruct (read_lines _); repeat constructor. }
  assert (Hc : ∀ item, Forall (fun ev => phase ev = 4) (close_events item))
    by (intros; repeat constructor).
  pose proof (phase_flat_map close_events (sers_of boards) 4 Hc) as Hclose.
  assert (Hmono : ∀ (k j : nat) (l : list event),
            k ≤ j → Forall (fun ev => phase ev = j) l →
            Forall (fun ev => k ≤ phase ev) l).
  { intros k j l Hkj Hl. eapply Forall_impl; [exact Hl|].
    intros ev Hev. simpl in Hev. lia. }
  apply (sorted_segments _ _ 0); [by apply phase_open_events| |].
  2: { apply Forall_forall. intros. lia. }
  destruct (sers_of boards) as [|item sers] eqn:Hsers.
  - simpl. repeat constructor.
  - remember (item :: sers) as l eqn:Hl. clear Hl.
    destruct (encode_utf8 (strip cmd ++ [10%N])) as [payload|].
    + rewrite <- !app_assoc.
      apply (sorted_segments _ _ 1); [by apply phase_flat_map| |].
      * apply (sorted_segments _ _ 2); [by apply phase_flat_map| |].
        -- apply (sorted_segments _ _ 3); [by apply phase_flat_map| |].
           ++ by eapply sorted_constant.
           ++ apply (Hmono 3 4); [lia|done].
        -- apply Forall_app. split.
           ++ apply (Hmono 2 3); [lia|by apply phase_flat_map].
           ++ apply (Hmono 2 4); [lia|done].
      * rewrite !Forall_app. repeat split.
        -- apply (Hmono 1 2); [lia|by apply phase_flat_map].
        -- apply (Hmono 1 3); [lia|by apply phase_flat_map].
        -- apply (Hmono 1 4); [lia|done].
    + simpl. by eapply sorted_constant.
Qed.

Lemma broadcast_phases_witness :
  StronglySorted le
    (phase <$> trace (broadcast_command
                        [(board "B1" "COM7", quiet);
                         (board "B2" "COM8", unopenable);
                         (board "B3" "COM9", answers [bytes "OK stop"])]
                        (lit "sync stop 200") start).2).
Proof.
  apply (broadcast_phases
           [(board "B1" "COM7", quiet); (board "B2" "COM8", unopenable);
            (board "B3" "COM9", answers [bytes "OK stop"])]
           (lit "sync stop 200")).
  apply (bool_decide_unpack _). vm_compute. exact I.
Defined.

Lemma in_sers_distinct boards b ser :
  NoDup (ids boards) → (b, ser) ∈ opened boards 0 →
  (board_id b, ser) ∈ sers_of boards
  ∧ ∀ ser', (board_id b, ser') ∈ sers_of boards → ser' = ser.
Proof.
  intros Hnd Hin. assert (Hb : (board_id b, ser) ∈ sers_of boards).
  { apply list_elem_of_split in Hin as (pre & post & Heq).
    apply (table_live _ pre b ser post (opened_NoDup boards 0) Heq).
    by eapply distinct_last. }
  split; [done|]. intros ser' Hin'.
  by apply (dict_lookup_unique _ _ _ _ (table_keys _) Hin' Hb).
Qed.

(** Where a broadcast prints a warning about a write. *)
Lemma write_warning_in_trace boards cmd payload msg :
  encode_utf8 (strip cmd ++ [10%N]) = Some payload →
  (∃ bid p, msg = WarnWriteTimeout bid p ∨ msg = WarnWriteError bid p) →
  Print msg ∈ broadcast_trace boards cmd ↔
  ∃ item, item ∈ sers_of boards
          ∧ Print msg ∈ warn_write (s_write (session item.2)) item.1
                          (ser_port item.2).
Proof.
  intros Henc Hmsg. unfold broadcast_trace. cbv zeta. rewrite Henc.
  assert (Hopen : Print msg ∉ open_events boards 0 []).
  { intros (bid' & p' & ->)%print_in_open_events.
    by destruct Hmsg as (bid & p & [?|?]). }
  assert (Hclose : Print msg ∉ flat_map close_events (sers_of boards)).
  { intros (it & _ & Hev)%elem_of_flat_map.
    by apply list_elem_of_singleton in Hev. }
  rewrite !elem_of_app. split.
  - intros [Hin|[Hin|Hin]]; [by apply Hopen in Hin| |done].
    destruct (sers_of boards) as [|item sers] eqn:Hsers.
    { apply list_elem_of_singleton in Hin.
      destruct Hmsg as (bid & p & [-> | ->]); done. }
    remember (item :: sers) as l eqn:Hl. clear Hl.
    rewrite !elem_of_app, !elem_of_flat_map in Hin.
    destruct Hin as [(it & Hit & Hev)|[(it & Hit & Hev)|(it & Hit & Hev)]].
    + exists it. split; [done|]. unfold write_events in Hev.
      apply elem_of_app in Hev as [Hev|Hev]; [|done].
      repeat (apply elem_of_cons in Hev as [Hev|Hev]; [done|]).
      by apply elem_of_nil in Hev.
    + by apply list_elem_of_singleton in Hev.
    + unfold read_events in Hev. apply elem_of_cons in Hev as [?|Hev]; [done|].
      destruct (read_lines _); [by apply elem_of_nil in Hev|].
      apply list_elem_of_singleton in Hev.
      destruct Hmsg as (bid & p & [-> | ->]); done.
  - intros (it & Hit & Hev). right. left.
    destruct (sers_of boards) as [|item sers] eqn:Hsers;
      [by apply elem_of_nil in Hit|].
    remember (item :: sers) as l eqn:Hl. clear Hl.
    apply elem_of_app. left. apply elem_of_flat_map. exists it.
    split; [done|]. unfold write_events. apply elem_of_app. by right.
Qed.

(** X11. For boards with pairwise distinct ids and a command that can be
    encoded: a board whose port opened is warned about with the timeout
    warning exactly when its write times out, and with the error warning
    exactly when its write fails otherwise; either way its transport is
    still flushed, read from and closed. *)
Theorem broadcast_write_failures (boards : list (Board * Session))
    (cmd : str) (payload : list byte) (b : Board) (ser : Serial) :
  encode_utf8 (strip cmd ++ [10%N]) = Some payload →
  NoDup (ids boards) →
  (b, ser) ∈ opened boards 0 →
  let tr := trace (broadcast_command boards cmd start).2 in
  (Print (WarnWriteTimeout (board_id b) (port b)) ∈ tr
   ↔ s_write (session ser) = TimedOut)
  ∧ (Print (WarnWriteError (board_id b) (port b)) ∈ tr
     ↔ s_write (session ser) = Failed)
  ∧ Flush (fd ser) ∈ tr ∧ ReadLines (fd ser) ∈ tr ∧ Close (fd ser) ∈ tr.
Proof.
  intros Henc Hnd Hin tr. subst tr. rewrite broadcast_run. cbn [snd trace].
  destruct (in_sers_distinct boards b ser Hnd Hin) as [Hb Huniq].
  destruct (opened_inv _ _ _ _ Hin) as (_ & _ & Hport).
  assert (Hwarn : ∀ msg,
            (∃ bid p, msg = WarnWriteTimeout bid p ∨ msg = WarnWriteError bid p) →
            Print msg ∈ broadcast_trace boards cmd ↔
            ∃ item, item ∈ sers_of boards
                    ∧ Print msg ∈ warn_write (s_write (session item.2)) item.1
                                    (ser_port item.2))
    by (intros; by eapply write_warning_in_trace).
  split; [|split].
  - rewrite Hwarn by eauto. split.
    + intros ([k ser'] & Hit & Hev). simpl in Hev.
      destruct (s_write (session ser')) eqn:Hw; simpl in Hev;
        [by apply elem_of_nil in Hev| |];
        apply list_elem_of_singleton in Hev; [|done].
      injection Hev as <- _. by rewrite <- (Huniq ser' Hit).
    + intros Hw. exists (board_id b, ser). split; [done|]. simpl.
      rewrite Hw, Hport. apply list_elem_of_singleton. done.
  - rewrite Hwarn by eauto. split.
    + intros ([k ser'] & Hit & Hev). simpl in Hev.
      destruct (s_write (session ser')) eqn:Hw; simpl in Hev;
        [by apply elem_of_nil in Hev| |];
        apply list_elem_of_singleton in Hev; [done|].
      injection Hev as <- _. by rewrite <- (Huniq ser' Hit).
    + intros Hw. exists (board_id b, ser). split; [done|]. simpl.
      rewrite Hw, Hport. apply list_elem_of_singleton. done.
  - apply list_elem_of_split in Hin as (pre & post & Heq).
    pose proof (uses_broadcast boards cmd pre b ser post Heq) as Huses.
    rewrite Henc, bool_decide_eq_true_2 in Huses by by eapply distinct_last.
    assert (Hcall : ∀ ev, ev ∈ handle_calls (fd ser) (port b) (Some payload) true
                          → ev ∈ broadcast_trace boards cmd).
    { intros ev Hev. rewrite <- Huses in Hev. by apply elem_of_uses in Hev as [? _]. }
    unfold handle_calls in Hcall. simpl in Hcall.
    repeat split; apply Hcall; rewrite !elem_of_cons; auto 10.
Qed.

Lemma broadcast_write_failures_witness :
  let tr := trace (broadcast_command
                     [(board "B1" "COM7", stalled); (board "B2" "COM8", quiet)]
                     (lit "sync stop 200") start).2 in
  (Print (WarnWriteTimeout (lit "B1") (lit "COM7")) ∈ tr
   ↔ s_write stalled = TimedOut)
  ∧ (Print (WarnWriteError (lit "B1") (lit "COM7")) ∈ tr
     ↔ s_write stalled = Failed)
  ∧ Flush 0 ∈ tr ∧ ReadLines 0 ∈ tr ∧ Close 0 ∈ tr.
Proof.
  apply (broadcast_write_failures
           [(board "B1" "COM7", stalled); (board "B2" "COM8", quiet)]
           (lit "sync stop 200") (bytes "sync stop 200" ++ ["010"%byte])
           (board "B1" "COM7") (handle 0 "COM7" stalled)).
  - reflexivity.
  - apply (bool_decide_unpack _). vm_compute. exact I.
  - simpl. left.
Defined.

Lemma last8_facts (lines : list str) :
  lines ≠ [] →
  last8 lines ≠ [] ∧ length (last8 lines) ≤ 8
  ∧ last8 lines `suffix_of` lines.
Proof.
  intros Hne. unfold last8. split; [|split].
  - intros Hnil. apply (f_equal length) in Hnil.
    rewrite length_drop in Hnil. destruct lines; [done|]. simpl in *. lia.
  - rewrite length_drop. lia.
  - apply suffix_drop.
Qed.

(** Where a broadcast prints an acknowledgement trace. *)
Lemma ack_lines_in_trace boards cmd bid lines :
  Print (AckLines bid lines) ∈ broadcast_trace boards cmd →
  ∃ item, item ∈ sers_of boards ∧ item.1 = bid
          ∧ read_lines (nth 0 (s_windows (session item.2)) []) ≠ []
          ∧ lines = last8 (read_lines (nth 0 (s_windows (session item.2)) [])).
Proof.
  unfold broadcast_trace. cbv zeta. rewrite !elem_of_app.
  intros [Hin|[Hin|Hin]].
  - by apply ack_in_open_events in Hin.
  - destruct (sers_of boards) as [|item sers] eqn:Hsers.
    { apply list_elem_of_singleton in Hin. done. }
    remember (item :: sers) as l eqn:Hl. clear Hl.
    destruct (encode_utf8 (strip cmd ++ [10%N])) as [payload|];
      [|by apply elem_of_nil in Hin].
    rewrite !elem_of_app, !elem_of_flat_map in Hin.
    destruct Hin as [(it & Hit & Hev)|[(it & Hit & Hev)|(it & Hit & Hev)]].
    + exfalso. unfold write_events in Hev. simpl in Hev.
      rewrite !elem_of_cons in Hev. destruct Hev as [?|[?|Hev]]; [done..|].
      destruct (s_write (session it.2)); simpl in Hev;
        repeat (apply elem_of_cons in Hev as [Hev|Hev]; [done|]);
        by apply elem_of_nil in Hev.
    + exfalso. unfold flush_events in Hev.
      apply list_elem_of_singleton in Hev. done.
    + unfold read_events in Hev. apply elem_of_cons in Hev as [?|Hev]; [done|].
      exists it. split; [done|].
      destruct (read_lines (nth 0 (s_windows (session it.2)) []));
        [by apply elem_of_nil in Hev|].
      apply list_elem_of_singleton in Hev. by injection Hev as -> ->.
  - exfalso. apply elem_of_flat_map in Hin as (it & _ & Hev).
    unfold close_events in Hev. apply list_elem_of_singleton in Hev. done.
Qed.

Lemma read_lines_clean (window : list readline_result) (line : str) :
  line ∈ read_lines window → line ≠ [] ∧ tidy line = true.
Proof.
  induction window as [|r w IHw]; simpl; [by intros ?%elem_of_nil|].
  destruct r as [raw|]; [|by intros ?%elem_of_nil].
  destruct raw as [|b0 raw]; [done|].
  destruct (strip (decode_ignore (b0 :: raw))) as [|c t] eqn:Hs; [done|].
  intros [->|Hin]%elem_of_cons; [|by apply IHw].
  split; [done|]. rewrite <- Hs. apply strip_tidy.
Qed.

(** X12. Every acknowledgement trace a broadcast prints is for a board
    whose port opened, and shows the last lines read from its transport:
    at least one and at most eight, each not empty and without whitespace
    at either end. *)
Theorem broadcast_ack_lines (boards : list (Board * Session)) (cmd : str)
    (bid : str) (lines : list str) :
  Print (AckLines bid lines) ∈ trace (broadcast_command boards cmd start).2 →
  ∃ b ser,
    (b, ser) ∈ opened boards 0 ∧ board_id b = bid
    ∧ lines = last8 (read_lines (nth 0 (s_windows (session ser)) []))
    ∧ lines `suffix_of` read_lines (nth 0 (s_windows (session ser)) [])
    ∧ 1 ≤ length lines ≤ 8
    ∧ Forall (fun line => line ≠ [] ∧ tidy line = true) lines.
Proof.
  rewrite broadcast_run. cbn [snd trace].
  intros ([k ser] & Hit & <- & Hne & ->)%ack_lines_in_trace.
  apply table_elem in Hit as (pre & b & post & Heq & Hid & _).
  exists b, ser. simpl.
  simpl in Hne. destruct (last8_facts _ Hne) as (Hne8 & Hlen & Hsuf).
  split; [rewrite Heq; apply elem_of_app; right; left|].
  split; [done|]. split; [done|]. split; [done|]. split.
  - split; [|done]. destruct (last8 _); [done|]. simpl. lia.
  - apply Forall_forall. intros line Hline.
    apply (read_lines_clean (nth 0 (s_windows (session ser)) [])).
    destruct Hsuf as [pre' Hpre]. rewrite Hpre. apply elem_of_app. by right.
Qed.

Lemma broadcast_ack_lines_witness :
  ∃ b ser,
    (b, ser) ∈ opened [(board "B1" "COM7", answers [bytes "OK stop"])] 0
    ∧ board_id b = lit "B1"
    ∧ [lit "OK stop"]
      = last8 (read_lines (nth 0 (s_windows (session ser)) []))
    ∧ [lit "OK stop"]
        `suffix_of` read_lines (nth 0 (s_windows (session ser)) [])
    ∧ 1 ≤ length [lit "OK stop"] ≤ 8
    ∧ Forall (fun line => line ≠ [] ∧ tidy line = true) [lit "OK stop"].
Proof.
  apply (broadcast_ack_lines [(board "B1" "COM7", answers [bytes "OK stop"])]
           (lit "sync stop 200")).
  apply list_elem_of_In. vm_compute. auto 10.
Defined.

(** ** Entry point *)

Lemma string_of_uint_digits (d : Decimal.uint) :
  Forall (fun c => c ∈ lit "0123456789") (lit (NilEmpty.string_of_uint d)).
Proof.
  induction d; [by constructor|..];
    (apply Forall_cons; split;
     [apply list_elem_of_In; vm_compute; tauto|exact IHd]).
Qed.

Lemma str_of_int_chars (n : Z) :
  str_of_int n ≠ [] ∧ Forall (fun c => c ∈ lit "-0123456789") (str_of_int n).
Proof.
  assert (Hsub : ∀ c, c ∈ lit "0123456789" → c ∈ lit "-0123456789")
    by (intros c Hc; by right).
  assert (Huint : ∀ d, lit (NilZero.string_of_uint d) ≠ []
                       ∧ Forall (fun c => c ∈ lit "-0123456789")
                                (lit (NilZero.string_of_uint d))).
  { intros d. split; [by destruct d|].
    destruct d;
      [by repeat constructor
      |eapply Forall_impl; [apply (string_of_uint_digits (_ d))|exact Hsub]..]. }
  unfold str_of_int. destruct n as [|p|p]; simpl Z.to_int.
  - split; [done|]. by repeat constructor.
  - apply Huint.
  - destruct (Huint (Pos.to_uint p)) as [_ Hall]. split; [done|].
    apply Forall_cons. split; [left|exact Hall].
Qed.

Lemma decimal_not_space (c : N) : c ∈ lit "-0123456789" → isspace c = false.
Proof.
  intros Hc%list_elem_of_In. vm_compute in Hc.
  repeat (destruct Hc as [<-|Hc]; [reflexivity|]). done.
Qed.

Lemma decimal_is_ascii (c : N) : c ∈ lit "-0123456789" → is_ascii c = true.
Proof.
  intros Hc%list_elem_of_In. vm_compute in Hc.
  repeat (destruct Hc as [<-|Hc]; [reflexivity|]). done.
Qed.

Lemma str_of_int_ascii (n : Z) : forallb is_ascii (str_of_int n) = true.
Proof.
  apply forallb_forall. intros c Hc%list_elem_of_In. apply decimal_is_ascii.
  destruct (str_of_int_chars n) as [_ Hall].
  by apply (proj1 (Forall_forall _ _) Hall).
Qed.

Lemma last_in_suffix (a b : str) (d : N) : b ≠ [] → List.last (a ++ b) d ∈ b.
Proof.
  intros Hb. induction a as [|x a IH]; simpl.
  - clear -Hb. induction b as [|y b IH]; [done|].
    destruct b as [|z b]; [left|]. right. by apply IH.
  - destruct (a ++ b) eqn:Hab; [|done].
    by apply app_eq_nil in Hab as [_ ->].
Qed.

(** Text that ends with the decimal form of an [int] ends without
    whitespace. *)
Lemma last_of_int (a : str) (n : Z) (d : N) :
  isspace (List.last (a ++ str_of_int n) d) = false.
Proof.
  destruct (str_of_int_chars n) as [Hne Hall].
  apply decimal_not_space, (proj1 (Forall_forall _ _) Hall).
  by apply last_in_suffix.
Qed.

Lemma encode_ascii (s : str) :
  forallb is_ascii s = true → encode_utf8 s = Some (ascii_bytes s).
Proof.
  induction s as [|c s IH]; simpl; [done|].
  intros [Hc Hs]%andb_true_iff. rewrite IH by done.
  unfold utf8_char. unfold is_ascii in Hc. by rewrite Hc.
Qed.

Lemma command_of_sync (args : Namespace) :
  is_sync args = true → ∃ cmd, command_of args = Some cmd.
Proof. destruct args; simpl; eauto; done. Qed.

Lemma tidy_app_int (a : str) (n : Z) :
  isspace (hd 32%N a) = false → tidy (a ++ str_of_int n) = true.
Proof.
  destruct a as [|c a]; [done|]. cbn [hd]. intros Hc.
  change (negb (isspace c)
          && negb (isspace (List.last ((c :: a) ++ str_of_int n) c)) = true).
  by rewrite Hc, last_of_int.
Qed.

Lemma command_of_plain (args : Namespace) (cmd : str) :
  command_of args = Some cmd →
  tidy cmd = true ∧ forallb is_ascii cmd = true.
Proof.
  destruct args; cbn [command_of]; try done;
    intros Heq; apply (inj Some) in Heq; subst cmd; split;
    try (rewrite ?app_assoc; apply tidy_app_int; reflexivity);
    rewrite ?forallb_app, ?str_of_int_ascii; reflexivity.
Qed.

Lemma command_payload (args : Namespace) (cmd : str) :
  command_of args = Some cmd →
  strip cmd = cmd
  ∧ encode_utf8 (strip cmd ++ [10%N])
    = Some (ascii_bytes cmd ++ ["010"%byte]).
Proof.
  intros [Htidy Hascii]%command_of_plain.
  rewrite (strip_id _ Htidy). split; [done|].
  rewrite encode_ascii by (by rewrite forallb_app, Hascii).
  unfold ascii_bytes. by rewrite fmap_app.
Qed.

(** X13. The command text [main] builds for a sync subcommand, whatever
    the integers given, has no whitespace at either end and is ASCII:
    framing leaves it as it is and encoding it cannot fail, so the payload
    is the text byte for byte, followed by one newline. *)
Theorem main_command_framing (args : Namespace) (cmd : str) :
  command_of args = Some cmd →
  strip cmd = cmd
  ∧ Forall (fun c => (c < 128)%N) cmd
  ∧ encode_utf8 (strip cmd ++ [10%N])
    = Some (ascii_bytes cmd ++ ["010"%byte]).
Proof.
  intros Hcmd. destruct (command_payload args cmd Hcmd) as [Hstrip Henc].
  split; [done|]. split; [|done].
  apply command_of_plain in Hcmd as [_ Hascii].
  apply Forall_forall. intros c Hc%list_elem_of_In.
  apply (proj1 (forallb_forall _ _) Hascii) in Hc.
  unfold is_ascii in Hc. by apply N.ltb_lt.
Qed.

Lemma main_command_framing_witness :
  strip (lit "sync wave 3 800 30 -25") = lit "sync wave 3 800 30 -25"
  ∧ Forall (fun c => (c < 128)%N) (lit "sync wave 3 800 30 -25")
  ∧ encode_utf8 (strip (lit "sync wave 3 800 30 -25") ++ [10%N])
    = Some (ascii_bytes (lit "sync wave 3 800 30 -25") ++ ["010"%byte]).
Proof.
  apply (main_command_framing (cmd_sync_wave 3 800 30 (-25) None)).
  reflexivity.
Defined.

(** The run of a broadcast from any world: its result and its trace. *)
Lemma broadcast_run_at boards cmd w :
  broadcast_command boards cmd w
  = (match table (opened boards (next_fd w)) [] with
     | [] => Ret ()
     | _ =>
         match encode_utf8 (strip cmd ++ [10%N]) with
         | Some _ => Ret ()
         | None => Raise UnicodeEncodeError
         end
     end,
     {| next_fd := next_fd w + length (opened boards (next_fd w));
        trace := trace w ++ broadcast_trace_at (next_fd w) boards cmd |}).
Proof.
  unfold broadcast_command, broadcast_trace_at.
  erewrite bind_run by apply open_all_run.
  set (sers := table (opened boards (next_fd w)) []).
  set (w1 := {| next_fd := _; trace := _ |}).
  assert (Hclose : ∀ w', for_each sers close_one w'
                         = (Ret (), log w' (flat_map close_events sers)))
    by (apply for_each_run, close_one_run).
  cbv zeta. fold sers. clearbody sers.
  destruct sers as [|item sers'].
  - erewrite finally_run; [|apply emit_run|apply Hclose].
    subst w1. unfold log. cbn [next_fd trace flat_map].
    by rewrite app_nil_r, <- !app_assoc.
  - cbv beta iota. remember (item :: sers') as l eqn:Hl. clear Hl.
    unfold encode. destruct (encode_utf8 (strip cmd ++ [10%N])) as [payload|].
    + erewrite finally_run; [| |apply Hclose].
      2: { erewrite bind_run by reflexivity.
           erewrite bind_run by reflexivity.
           erewrite bind_run
             by apply (for_each_run (write_one payload) (write_events payload)),
                      write_one_run.
           erewrite bind_run
             by apply (for_each_run flush_one flush_events), flush_one_run.
           erewrite bind_run by reflexivity.
           apply (for_each_run read_one read_events), read_one_run. }
      rewrite !log_log. subst w1. unfold log. cbn [next_fd trace].
      by rewrite <- !app_assoc.
    + erewrite finally_run; [| |apply Hclose].
      2: { erewrite bind_run by reflexivity.
           erewrite bind_raise by reflexivity. reflexivity. }
      subst w1. unfold log. cbn [next_fd trace].
      by rewrite app_nil_l, <- !app_assoc.
Qed.

Lemma all_closed_no_open (tr : list event) :
  Forall (fun ev => ∀ n p, ev ≠ Open n p) tr → all_closed tr = true.
Proof.
  induction 1 as [|ev tr Hev _ IH]; [done|].
  destruct ev; simpl; try done. by destruct (Hev fd0 port0).
Qed.

Lemma no_open_flat_map {A} (f : A → list event) (l : list A) :
  (∀ x, Forall (fun ev => ∀ n p, ev ≠ Open n p) (f x)) →
  Forall (fun ev => ∀ n p, ev ≠ Open n p) (flat_map f l).
Proof.
  intros Hf. induction l as [|x l IH]; simpl; [done|].
  apply Forall_app. split; [apply Hf|done].
Qed.

Lemma all_closed_opens boards n sers tail :
  (∀ k, k ∈ fds (opened boards n) → Close k ∈ tail) →
  all_closed tail = true →
  all_closed (open_events boards n sers ++ tail) = true.
Proof.
  revert n sers. induction boards as [|[b s] rest IH];
    intros n sers Hin Htail; simpl; [done|].
  simpl in Hin. destruct (s_open s); simpl; [|by apply IH..].
  apply andb_true_iff. split.
  - apply existsb_exists. exists (Close n). split.
    + apply in_or_app. right. apply list_elem_of_In, Hin.
      unfold fds. rewrite fmap_cons. left.
    + simpl. by apply bool_decide_eq_true_2.
  - rewrite <- app_assoc.
    assert (Hrest : all_closed
                      (open_events rest (S n)
                         (dict_set (board_id b)
                            {| fd := n; ser_port := port b; session := s |}
                            sers) ++ tail) = true).
    { apply IH; [|done]. intros k Hk. apply Hin.
      unfold fds. rewrite fmap_cons. by right. }
    unfold displaced. by destruct (dict_get (board_id b) sers).
Qed.

(** A broadcast to boards with pairwise distinct ids closes every
    transport it opens, from any world. *)
Lemma broadcast_all_closed_at n boards cmd :
  NoDup (ids boards) → all_closed (broadcast_trace_at n boards cmd) = true.
Proof.
  intros Hnd. unfold broadcast_trace_at. cbv zeta.
  rewrite (table_distinct _ (opened_ids boards n Hnd)).
  set (sers := _ <$> opened boards n).
  assert (Hdone : Forall (fun ev => ∀ n p, ev ≠ Open n p)
                    (flat_map close_events sers))
    by (apply no_open_flat_map; intros x; by repeat constructor).
  apply all_closed_opens.
  - intros k ([b ser] & -> & Hin)%list_elem_of_fmap.
    apply elem_of_app. right. apply elem_of_flat_map.
    exists (board_id b, ser). split; [|left].
    subst sers. apply list_elem_of_fmap. by exists (b, ser).
  - apply all_closed_no_open, Forall_app. split; [|done].
    destruct sers as [|item sers'] eqn:Hsers; [by repeat constructor|].
    remember (item :: sers') as l eqn:Hl. clear Hl.
    destruct (encode_utf8 (strip cmd ++ [10%N])) as [payload|]; [|done].
    rewrite !Forall_app. repeat split; apply no_open_flat_map; intros x.
    + unfold write_events. apply Forall_app. split; [by repeat constructor|].
      destruct (s_write (session x.2)); by repeat constructor.
    + by repeat constructor.
    + unfold read_events. apply Forall_cons. split; [done|].
      destruct (read_lines _); by repeat constructor.
Qed.

(** Discovery with the default settle delay returns the boards
    [discovered]. *)
Lemma discover_settled `{UnicodeData} ports_all :
  ∃ n, discover_boards None ports_all start
       = (Ret (discovered ports_all),
          {| next_fd := n;
             trace := scan_trace None (in_scope ports_all) 0 |}).
Proof.
  destruct (discover_run None ports_all) as [n Hn]. exists n.
  by rewrite Hn, scan_result_settled.
Qed.

Lemma send_run args boards reopen cmd w :
  command_of args = Some cmd →
  send args boards reopen w
  = (Ret (TargetBoards :: (TargetLine <$> boards) ++ [Broadcasting cmd], 0%Z),
     {| next_fd := next_fd w
                   + length (opened ((fun b => (b, reopen b)) <$> boards)
                                    (next_fd w));
        trace := trace w
                 ++ broadcast_trace_at (next_fd w)
                      ((fun b => (b, reopen b)) <$> boards) cmd |}).
Proof.
  intros Hcmd. unfold send. rewrite Hcmd.
  destruct (command_payload args cmd Hcmd) as [_ Henc].
  unfold mbind, M_bind. rewrite broadcast_run_at, Henc.
  by destruct (table _ _).
Qed.

Lemma filter_want (only : list str) (boards : list Board) :
  List.filter (fun b => bool_decide (board_id b ∈ (list_to_set only : gset str)))
              boards
  = List.filter (fun b => bool_decide (board_id b ∈ only)) boards.
Proof.
  apply List.filter_ext. intros b. apply bool_decide_ext.
  apply elem_of_list_to_set.
Qed.

(** The run of [main] on a sync subcommand. *)
Lemma main_sync_run `{UnicodeData} args ports_all reopen cmd :
  command_of args = Some cmd →
  ∃ n,
    main args ports_all reopen start
    = match discovered ports_all,
            targets (only_of args) (discovered ports_all) with
      | [], _ =>
          (Ret ([NoBoardsDiscovered; TryPorts], 2%Z),
           {| next_fd := n;
              trace := scan_trace None (in_scope ports_all) 0 |})
      | _, [] =>
          (Ret ([NoMatchingBoards], 2%Z),
           {| next_fd := n;
              trace := scan_trace None (in_scope ports_all) 0 |})
      | _, tg =>
          (Ret (TargetBoards :: (TargetLine <$> tg) ++ [Broadcasting cmd],
                0%Z),
           {| next_fd := n + length (opened ((fun b => (b, reopen b)) <$> tg) n);
              trace := scan_trace None (in_scope ports_all) 0
                       ++ broadcast_trace_at n
                            ((fun b => (b, reopen b)) <$> tg) cmd |})
      end.
Proof.
  intros Hcmd. destruct (discover_settled ports_all) as [n Hn]. exists n.
  assert (Hmain :
    main args ports_all reopen start
    = match discovered ports_all with
      | [] =>
          (Ret ([NoBoardsDiscovered; TryPorts], 2%Z),
           {| next_fd := n;
              trace := scan_trace None (in_scope ports_all) 0 |})
      | boards =>
          match only_of args with
          | None | Some [] =>
              send args boards reopen
                {| next_fd := n;
                   trace := scan_trace None (in_scope ports_all) 0 |}
          | Some only =>
              match List.filter (fun b => bool_decide (board_id b ∈ only))
                                boards with
              | [] =>
                  (Ret ([NoMatchingBoards], 2%Z),
                   {| next_fd := n;
                      trace := scan_trace None (in_scope ports_all) 0 |})
              | tg =>
                  send args tg reopen
                    {| next_fd := n;
                       trace := scan_trace None (in_scope ports_all) 0 |}
              end
          end
      end).
  { destruct args; try done; unfold main, mbind, M_bind; rewrite Hn;
      (destruct (discovered ports_all) as [|b0 bs]; [done|]);
      cbn [only_of]; (destruct only as [[|i0 i1]|]; [done| |done]);
      cbv zeta; rewrite filter_want;
      by destruct (List.filter _ _). }
  rewrite Hmain. destruct (discovered ports_all) as [|b0 bs]; [done|].
  unfold targets.
  destruct (only_of args) as [[|i0 i1]|].
  - by rewrite (send_run _ _ _ cmd).
  - destruct (List.filter _ _) as [|t0 ts]; [done|].
    by rewrite (send_run _ _ _ cmd).
  - by rewrite (send_run _ _ _ cmd).
Qed.

Lemma main_ports_run `{UnicodeData} ports_all reopen :
  main cmd_ports ports_all reopen start
  = (Ret (list_all_ports (fst <$> ports_all), 0%Z), start).
Proof. done. Qed.

Lemma main_list_run `{UnicodeData} ports_all reopen :
  ∃ n,
    main cmd_list ports_all reopen start
    = (Ret (match discovered ports_all with
            | [] => ([NoBoardsDiscovered; TryPorts], 2%Z)
            | boards => (DiscoveredBoards :: (BoardLine <$> boards), 0%Z)
            end),
       {| next_fd := n; trace := scan_trace None (in_scope ports_all) 0 |}).
Proof.
  destruct (discover_settled ports_all) as [n Hn]. exists n.
  unfold main, mbind, M_bind. rewrite Hn.
  by destruct (discovered ports_all).
Qed.

Lemma filter_nil {A} (f : A → bool) (l : list A) :
  List.filter f l = [] ↔ ∀ x, x ∈ l → f x = false.
Proof.
  induction l as [|a l IH]; simpl.
  - split; [by intros _ x ?%elem_of_nil|done].
  - destruct (f a) eqn:Hfa.
    + split; [done|]. intros Hall. specialize (Hall a). rewrite Hfa in Hall.
      discriminate Hall. left.
    + rewrite IH. split.
      * intros Hall x [->|Hx]%elem_of_cons; auto.
      * intros Hall x Hx. apply Hall. by right.
Qed.

Lemma targets_nil (only : option (list str)) (boards : list Board) :
  boards ≠ [] →
  targets only boards = [] ↔
  ∃ ids, only = Some ids ∧ ids ≠ []
         ∧ ∀ b, b ∈ boards → board_id b ∉ ids.
Proof.
  intros Hne. destruct only as [[|i0 i1]|]; unfold targets.
  - split; [done|]. by intros (ids & [= <-] & ? & _).
  - rewrite filter_nil. split.
    + intros Hall. exists (i0 :: i1). split; [done|]. split; [done|].
      intros b Hb. by apply (bool_decide_eq_false_1 _), Hall.
    + intros (ids & [= <-] & _ & Hall) b Hb.
      by apply bool_decide_eq_false_2, Hall.
  - split; [done|]. by intros (ids & [= ] & _).
Qed.

(** X14. [main] always returns, with exit status 0 or 2, whatever the
    ports and the transports do: no exception of the discovery or of the
    broadcast reaches it.  The status is 2 exactly when a subcommand other
    than [ports] finds no board, or when a sync subcommand is given a
    non-empty [--only] list that names none of the boards found. *)
Theorem main_exit_status `{UnicodeData} (args : Namespace)
    (ports_all : list (ListPortInfo * Session)) (reopen : Board → Session) :
  ∃ out code w,
    main args ports_all reopen start = (Ret (out, code), w)
    ∧ (code = 0 ∨ code = 2)%Z
    ∧ (code = 2%Z ↔
       args ≠ cmd_ports
       ∧ (discovered ports_all = []
          ∨ ∃ ids, only_of args = Some ids ∧ ids ≠ []
                   ∧ ∀ b, b ∈ discovered ports_all → board_id b ∉ ids)).
Proof.
  destruct (is_sync args) eqn:Hsync.
  - destruct (command_of_sync args Hsync) as [cmd Hcmd].
    destruct (main_sync_run args ports_all reopen cmd Hcmd) as [n Hrun].
    assert (Hargs : args ≠ cmd_ports) by (by intros ->).
    destruct (discovered ports_all) as [|b0 bs] eqn:Hfound.
    { eexists _, _, _. split; [exact Hrun|]. split; [by right|].
      split; [|done]. intros _. split; [done|]. by left. }
    pose proof (targets_nil (only_of args) (b0 :: bs)) as Hnil.
    destruct (targets (only_of args) (b0 :: bs)) as [|t0 ts] eqn:Htg.
    + eexists _, _, _. split; [exact Hrun|]. split; [by right|].
      split; [|done]. intros _. split; [done|]. right. by apply Hnil.
    + eexists _, _, _. split; [exact Hrun|]. split; [by left|].
      split; [done|]. intros [_ [?|Hnone]]; [done|].
      by apply Hnil in Hnone.
  - destruct args; try done.
    + eexists _, _, _. split; [apply main_ports_run|]. split; [by left|].
      split; [done|]. by intros [? _].
    + destruct (main_list_run ports_all reopen) as [n Hrun].
      destruct (discovered ports_all) as [|b0 bs] eqn:Hfound.
      * eexists _, _, _. split; [exact Hrun|]. split; [by right|].
        split; [|done]. intros _. split; [done|]. by left.
      * eexists _, _, _. split; [exact Hrun|]. split; [by left|].
        split; [done|]. by intros [_ [?|(ids & ? & _)]].
Qed.

Lemma NoDup_fmap_filter {A B} (f : A → B) (g : A → bool) (l : list A) :
  NoDup (f <$> l) → NoDup (f <$> List.filter g l).
Proof.
  induction l as [|a l IH]; simpl; [done|].
  intros [Hnot Hnd]%NoDup_cons. destruct (g a); [|by apply IH].
  rewrite fmap_cons. apply NoDup_cons. split; [|by apply IH].
  intros (x & Hfx & Hx%list_elem_of_In)%list_elem_of_fmap.
  apply filter_In in Hx as [Hx%list_elem_of_In _].
  apply Hnot, list_elem_of_fmap. by exists x.
Qed.

(** The boards a sync subcommand addresses have pairwise distinct ids. *)
Lemma targets_distinct `{UnicodeData} only ports_all reopen :
  NoDup (ids ((fun b => (b, reopen b))
              <$> targets only (discovered ports_all))).
Proof.
  unfold ids. rewrite <- list_fmap_compose.
  assert (Hnd : NoDup (board_id <$> discovered ports_all))
    by apply dedupe_NoDup.
  unfold targets. destruct only as [[|i0 i1]|]; [done| |done].
  by apply (NoDup_fmap_filter board_id).
Qed.

(** X15. Whatever the subcommand, the ports and the transports, every
    transport a run of [main] opens, for discovery or for the broadcast,
    is closed again before [main] returns: the boards it broadcasts to
    come out of discovery with pairwise distinct ids, so no handle is
    displaced from the table of the broadcast. *)
Theorem main_closes_transports `{UnicodeData} (args : Namespace)
    (ports_all : list (ListPortInfo * Session)) (reopen : Board → Session) :
  all_closed (trace (main args ports_all reopen start).2) = true.
Proof.
  destruct (is_sync args) eqn:Hsync.
  - destruct (command_of_sync args Hsync) as [cmd Hcmd].
    destruct (main_sync_run args ports_all reopen cmd Hcmd) as [n ->].
    pose proof (targets_distinct (only_of args) ports_all reopen) as Hnd.
    destruct (discovered ports_all) as [|b0 bs];
      [apply all_closed_scan|].
    destruct (targets (only_of args) (b0 :: bs)) as [|t0 ts];
      [apply all_closed_scan|].
    cbn [snd trace]. apply all_closed_app; [apply all_closed_scan|].
    by apply broadcast_all_closed_at.
  - destruct args; try done.
    destruct (main_list_run ports_all reopen) as [n ->].
    apply all_closed_scan.
Qed.

Lemma probe_result_settled p s : ∃ found, probe_result None p s = Ret found.
Proof. unfold probe_result. destruct (s_open s); eauto. Qed.

Lemma attempts_scan_settled ports n :
  attempts (scan_trace None ports n) = (fun c => device c.1) <$> ports.
Proof.
  revert n. induction ports as [|[p s] rest IH]; intros n; simpl; [done|].
  rewrite attempts_app, attempts_probe.
  destruct (probe_result_settled p s) as [found ->]. by rewrite IH.
Qed.

Lemma attempts_open_events boards n sers :
  attempts (open_events boards n sers) = (fun bs => port bs.1) <$> boards.
Proof.
  revert n sers. induction boards as [|[b s] rest IH]; intros n sers; simpl;
    [done|].
  destruct (s_open s); simpl; rewrite ?attempts_app, IH; [|done..].
  unfold displaced. by destruct (dict_get (board_id b) sers).
Qed.

Lemma attempts_items {A} (f : A → list event) (l : list A) :
  (∀ x, attempts (f x) = []) → attempts (flat_map f l) = [].
Proof.
  intros Hf. induction l as [|x l IH]; simpl; [done|].
  by rewrite attempts_app, Hf, IH.
Qed.

Lemma attempts_broadcast n boards cmd :
  attempts (broadcast_trace_at n boards cmd) = (fun bs => port bs.1) <$> boards.
Proof.
  unfold broadcast_trace_at. cbv zeta.
  rewrite !attempts_app, attempts_open_events.
  rewrite (attempts_items close_events) by done.
  destruct (table _ _) as [|item sers]; [by rewrite app_nil_r|].
  remember (item :: sers) as l eqn:Hl. clear Hl.
  destruct (encode_utf8 (strip cmd ++ [10%N])) as [payload|];
    [|by rewrite app_nil_r].
  rewrite !attempts_app, (attempts_items flush_events) by done.
  rewrite (attempts_items (write_events payload)), (attempts_items read_events).
  - by rewrite app_nil_r.
  - intros x. unfold read_events. by destruct (read_lines _).
  - intros x. unfold write_events. by destruct (s_write (session x.2)).
Qed.

Lemma targets_none (only : option (list str)) : targets only [] = [].
Proof. by destruct only as [[|i0 i1]|]. Qed.

(** The calls of [main] on a sync subcommand. *)
Lemma main_sync_trace `{UnicodeData} args ports_all reopen cmd :
  command_of args = Some cmd →
  ∃ n,
    trace (main args ports_all reopen start).2
    = scan_trace None (in_scope ports_all) 0
      ++ match targets (only_of args) (discovered ports_all) with
         | [] => []
         | tg => broadcast_trace_at n ((fun b => (b, reopen b)) <$> tg) cmd
         end.
Proof.
  intros Hcmd.
  destruct (main_sync_run args ports_all reopen cmd Hcmd) as [n ->].
  exists n. destruct (discovered ports_all) as [|b0 bs].
  - by rewrite targets_none, app_nil_r.
  - destruct (targets (only_of args) (b0 :: bs)); [|done].
    by rewrite app_nil_r.
Qed.

(** X16. The ports a run of [main] tries to open, in order: none for
    [ports]; for [list] every port the filter accepts, once; for a sync
    subcommand every port the filter accepts, once, and then the port of
    every board it addresses, once, these being all the boards found or,
    with a non-empty [--only] list, those of them it names.  ([--only]
    without ids addresses all the boards found.) *)
Theorem main_opens `{UnicodeData} (args : Namespace)
    (ports_all : list (ListPortInfo * Session)) (reopen : Board → Session) :
  let tr := trace (main args ports_all reopen start).2 in
  let scanned := (fun c => device c.1) <$> in_scope ports_all in
  attempts tr
  = match args with
    | cmd_ports => []
    | cmd_list => scanned
    | _ =>
        scanned
        ++ (port <$> targets (only_of args) (discovered ports_all))
    end.
Proof.
  cbv zeta. destruct (is_sync args) eqn:Hsync.
  - destruct (command_of_sync args Hsync) as [cmd Hcmd].
    destruct (main_sync_trace args ports_all reopen cmd Hcmd) as [n ->].
    rewrite attempts_app, attempts_scan_settled.
    assert (Hsent :
      attempts
        match targets (only_of args) (discovered ports_all) with
        | [] => []
        | tg => broadcast_trace_at n ((fun b => (b, reopen b)) <$> tg) cmd
        end
      = port <$> targets (only_of args) (discovered ports_all)).
    { destruct (targets _ _) as [|t0 ts]; [done|].
      by rewrite attempts_broadcast, <- list_fmap_compose. }
    rewrite Hsent. by destruct args.
  - destruct args; try done.
    destruct (main_list_run ports_all reopen) as [n ->].
    cbn [snd trace]. apply attempts_scan_settled.
Qed.

Lemma payloads_app a b : payloads (a ++ b) = payloads a ++ payloads b.
Proof. unfold payloads. apply flat_map_app. Qed.

Lemma payloads_probe p s n :
  payloads (probe_events None p s n) = []
  ∨ payloads (probe_events None p s n) = [challenge].
Proof.
  unfold probe_events, clear_events, ask_events, read_id_events, asked,
    payloads, challenge.
  destruct (s_open s); [|by left..].
  destruct (s_reset_input_buffer s), (s_write s), (s_flush s),
    (first_id_line (read_lines (nth 0 (s_windows s) []))); simpl; auto.
Qed.

Lemma payloads_scan ports n :
  ∃ k, k ≤ length ports
       ∧ payloads (scan_trace None ports n) = replicate k challenge.
Proof.
  revert n. induction ports as [|[p s] rest IH]; intros n; simpl.
  - by exists 0.
  - destruct (probe_result_settled p s) as [found ->].
    destruct (IH (n + opens s)) as (k & Hk & Heq).
    rewrite payloads_app, Heq.
    destruct (payloads_probe p s n) as [-> | ->].
    + exists k. split; [lia|done].
    + exists (S k). split; [lia|done].
Qed.

Lemma payloads_open_events boards n sers :
  payloads (open_events boards n sers) = [].
Proof.
  revert n sers. induction boards as [|[b s] rest IH]; intros n sers; simpl;
    [done|].
  destruct (s_open s); simpl; rewrite ?payloads_app, IH; [|done..].
  unfold displaced. by destruct (dict_get (board_id b) sers).
Qed.

Lemma payloads_items {A} (f : A → list event) (l : list A) :
  (∀ x, payloads (f x) = []) → payloads (flat_map f l) = [].
Proof.
  intros Hf. induction l as [|x l IH]; simpl; [done|].
  by rewrite payloads_app, Hf, IH.
Qed.

Lemma payloads_writes payload (sers : dict) :
  payloads (flat_map (write_events payload) sers)
  = replicate (length sers) payload.
Proof.
  induction sers as [|x l IH]; simpl; [done|].
  rewrite payloads_app, IH. unfold write_events.
  by destruct (s_write (session x.2)).
Qed.

(** The payloads of a broadcast to boards with pairwise distinct ids: one
    for each port that opens. *)
Lemma payloads_broadcast n boards cmd payload :
  NoDup (ids boards) →
  encode_utf8 (strip cmd ++ [10%N]) = Some payload →
  payloads (broadcast_trace_at n boards cmd)
  = replicate (length (opened boards n)) payload.
Proof.
  intros Hnd Henc. unfold broadcast_trace_at. cbv zeta.
  rewrite (table_distinct _ (opened_ids boards n Hnd)), Henc.
  rewrite !payloads_app, payloads_open_events.
  rewrite (payloads_items close_events) by done.
  destruct (opened boards n) as [|h hs]; [done|].
  remember (h :: hs) as l eqn:Hl. clear Hl.
  assert (Hsers : match (fun bh : Board * Serial => (board_id bh.1, bh.2)) <$> l
                  with
                  | [] => [Print NoPortsCouldBeOpened]
                  | _ =>
                      flat_map (write_events payload)
                        ((fun bh => (board_id bh.1, bh.2)) <$> l)
                      ++ flat_map flush_events
                           ((fun bh => (board_id bh.1, bh.2)) <$> l)
                      ++ flat_map read_events
                           ((fun bh => (board_id bh.1, bh.2)) <$> l)
                  end
                  = (match l with
                     | [] => [Print NoPortsCouldBeOpened]
                     | _ => []
                     end)
                    ++ flat_map (write_events payload)
                         ((fun bh => (board_id bh.1, bh.2)) <$> l)
                    ++ flat_map flush_events
                         ((fun bh => (board_id bh.1, bh.2)) <$> l)
                    ++ flat_map read_events
                         ((fun bh => (board_id bh.1, bh.2)) <$> l))
    by (by destruct l).
  rewrite Hsers, !payloads_app, payloads_writes.
  rewrite (payloads_items flush_events) by done.
  rewrite (payloads_items read_events)
    by (intros x; unfold read_events; by destruct (read_lines _)).
  rewrite length_fmap, !app_nil_r. by destruct l.
Qed.

Lemma opened_reachable reopen boards n :
  length (opened ((fun b => (b, reopen b)) <$> boards) n)
  = length (reachable reopen boards).
Proof.
  revert n. induction boards as [|b rest IH]; intros n; simpl; [done|].
  destruct (s_open (reopen b)); simpl; by rewrite IH.
Qed.

(** X17. Everything a run of [main] on a sync subcommand writes to a
    serial port: the challenge, at most once for each port the filter
    accepts, and after that the command it built followed by a newline,
    byte for byte, once for each board it addresses whose port opens.
    Nothing else is written, and no port gets the command before all
    challenges are out. *)
Theorem main_writes `{UnicodeData} (args : Namespace) (cmd : str)
    (ports_all : list (ListPortInfo * Session)) (reopen : Board → Session) :
  command_of args = Some cmd →
  let tr := trace (main args ports_all reopen start).2 in
  let sent := reachable reopen
                (targets (only_of args) (discovered ports_all)) in
  ∃ k, k ≤ length (in_scope ports_all)
       ∧ payloads tr
         = replicate k challenge
           ++ replicate (length sent) (ascii_bytes cmd ++ ["010"%byte]).
Proof.
  intros Hcmd. cbv zeta.
  destruct (main_sync_trace args ports_all reopen cmd Hcmd) as [n ->].
  destruct (command_payload args cmd Hcmd) as [_ Henc].
  destruct (payloads_scan (in_scope ports_all) 0) as (k & Hk & Hscan).
  exists k. split; [done|]. rewrite payloads_app, Hscan. f_equal.
  pose proof (targets_distinct (only_of args) ports_all reopen) as Hnd.
  destruct (targets (only_of args) (discovered ports_all)) as [|t0 ts];
    [done|].
  by rewrite (payloads_broadcast _ _ _ _ Hnd Henc), opened_reachable.
Qed.

Lemma main_writes_witness :
  ∃ k, k ≤ length (@in_scope ascii_case
                     [(usb_port "COM7",
                       answers [bytes "ID B1 FW 1.2 CAPS wave"])])
       ∧ payloads
           (trace (@main ascii_case (cmd_sync_stop 200 None)
                     [(usb_port "COM7",
                       answers [bytes "ID B1 FW 1.2 CAPS wave"])]
                     (fun _ => quiet) start).2)
         = replicate k challenge
           ++ replicate
                (length (reachable (fun _ => quiet)
                           (targets None
                              (@discovered ascii_case
                                 [(usb_port "COM7",
                                   answers [bytes "ID B1 FW 1.2 CAPS wave"])]))))
                (ascii_bytes (lit "sync stop 200") ++ ["010"%byte]).
Proof.
  apply (main_writes (H:=ascii_case) (cmd_sync_stop 200 None)
           (lit "sync stop 200")
           [(usb_port "COM7", answers [bytes "ID B1 FW 1.2 CAPS wave"])]
           (fun _ => quiet)).
  reflexivity.
Defined.

(** X18. [main] uses the ids given with [--only] as a set: two lists with
    the same members, in any order and with any repetitions, give the same
    run; and [--only] without ids gives the run without [--only]. *)
Theorem main_only_as_set `{UnicodeData} (args : Namespace)
    (ids1 ids2 : list str)
    (ports_all : list (ListPortInfo * Session)) (reopen : Board → Session) :
  (∀ i, i ∈ ids1 ↔ i ∈ ids2) →
  main (with_only (Some ids1) args) ports_all reopen start
  = main (with_only (Some ids2) args) ports_all reopen start
  ∧ main (with_only (Some []) args) ports_all reopen start
    = main (with_only None args) ports_all reopen start.
Proof.
  intros Hsame. split; [|by destruct args].
  destruct ids1 as [|i1 l1], ids2 as [|i2 l2]; [done| | |].
  - exfalso. apply (not_elem_of_nil i2), Hsame. left.
  - exfalso. apply (not_elem_of_nil i1), Hsame. left.
  - assert (Hset : (list_to_set (i1 :: l1) : gset str) = list_to_set (i2 :: l2)).
    { apply set_eq. intros i. by rewrite !elem_of_list_to_set. }
    destruct args; try done; unfold main; cbn [with_only only_of];
      cbv zeta; by rewrite Hset.
Qed.

Lemma main_only_as_set_witness :
  @main ascii_case
    (with_only (Some [lit "B2"; lit "B1"; lit "B2"]) (cmd_sync_stop 200 None))
    [(usb_port "COM7", answers [bytes "ID B1 FW 1.2 CAPS wave"])]
    (fun _ => quiet) start
  = @main ascii_case
      (with_only (Some [lit "B1"; lit "B2"]) (cmd_sync_stop 200 None))
      [(usb_port "COM7", answers [bytes "ID B1 FW 1.2 CAPS wave"])]
      (fun _ => quiet) start
  ∧ @main ascii_case (with_only (Some []) (cmd_sync_stop 200 None))
      [(usb_port "COM7", answers [bytes "ID B1 FW 1.2 CAPS wave"])]
      (fun _ => quiet) start
    = @main ascii_case (with_only None (cmd_sync_stop 200 None))
        [(usb_port "COM7", answers [bytes "ID B1 FW 1.2 CAPS wave"])]
        (fun _ => quiet) start.
Proof.
  apply (main_only_as_set (H:=ascii_case)).
  intros i. rewrite !elem_of_cons, !elem_of_nil. tauto.
Defined.

(** ** Text on the wire *)

Lemma to_N_byte_of (n : N) : (n < 256)%N → Byte.to_N (byte_of n) = n.
Proof.
  intros Hn. unfold byte_of. destruct (Byte.of_N n) eqn:Hb.
  - by apply Byte.to_of_N.
  - apply Byte.of_N_None_iff in Hb. lia.
Qed.

Ltac decide_tests :=
  repeat (match goal with
          | |- context [(?a <? ?b)%N] =>
              destruct (N.ltb_spec a b); try (exfalso; lia)
          | |- context [(?a <=? ?b)%N] =>
              destruct (N.leb_spec a b); try (exfalso; lia)
          | |- context [(?a =? ?b)%N] =>
              destruct (N.eqb_spec a b); try (exfalso; lia)
          end; cbn [andb]).

(** [c] in base 64: its last digit and the rest. *)
Lemma base64 (c : N) :
  (c = 64 * (c / 64) + c mod 64 ∧ c mod 64 < 64)%N.
Proof. split; [by apply N.div_mod|by apply N.mod_lt]. Qed.

(** The bytes of one encoded code point decode to it. *)
Lemma decode_utf8_char (c : N) (bs : list byte) (rest : list N) :
  utf8_char c = Some bs →
  decode_go 0 (map Byte.to_N bs ++ rest) = c :: decode_go 0 rest.
Proof.
  unfold utf8_char.
  replace (c / 262144)%N with (c / 64 / 64 / 64)%N
    by (by rewrite !N.Div0.div_div).
  replace (c / 4096)%N with (c / 64 / 64)%N by (by rewrite !N.Div0.div_div).
  destruct (base64 c) as [Hc Hr]. destruct (base64 (c / 64)) as [Hc1 Hr1].
  destruct (base64 (c / 64 / 64)) as [Hc2 Hr2].
  revert Hc Hr Hc1 Hr1 Hc2 Hr2.
  generalize (c mod 64)%N (c / 64 mod 64)%N (c / 64 / 64 mod 64)%N
             (c / 64 / 64 / 64)%N.
  generalize (c / 64 / 64)%N. generalize (c / 64)%N.
  intros q1 q2 r r1 r2 q3 Hc Hr Hc1 Hr1 Hc2 Hr2.
  destruct (N.ltb_spec c 128) as [H1|H1].
  { intros [= <-]. cbn [map app decode_go].
    rewrite to_N_byte_of by lia. unfold decode_at.
    by rewrite (proj2 (N.ltb_lt c 128) H1). }
  destruct (N.ltb_spec c 2048) as [H2|H2].
  { intros [= <-]. cbn [map app decode_go].
    rewrite !to_N_byte_of by lia. unfold decode_at, is_cont.
    assert (Hv : ((192 + q1 - 192) * 64 + (128 + r - 128) = c)%N) by lia.
    rewrite Hv. assert (2 <= q1 < 32)%N by lia.
    clear Hc Hc1 Hc2 H1 H2 Hv. by decide_tests. }
  destruct ((55296 <=? c)%N && (c <=? 57343)%N) eqn:Hsur; [done|].
  assert (Hns : (c < 55296 ∨ 57343 < c)%N).
  { apply andb_false_iff in Hsur as [?%N.leb_gt|?%N.leb_gt]; lia. }
  clear Hsur.
  destruct (N.ltb_spec c 65536) as [H3|H3].
  { intros [= <-]. cbn [map app decode_go].
    rewrite !to_N_byte_of by lia. unfold decode_at, second_ok, is_cont.
    assert (Hv : ((224 + q2 - 224) * 4096 + (128 + r1 - 128) * 64
                  + (128 + r - 128) = c)%N) by lia.
    rewrite Hv.
    assert (q2 < 16 ∧ (q2 = 0 → 32 <= r1) ∧ (q2 = 13 → r1 < 32))%N
      as (? & ? & ?) by lia.
    clear Hc Hc1 Hc2 H1 H2 H3 Hns Hv. by decide_tests. }
  destruct (N.ltb_spec c 1114112) as [H4|H4]; [|done].
  intros [= <-]. cbn [map app decode_go].
  rewrite !to_N_byte_of by lia. unfold decode_at, second_ok, is_cont.
  assert (Hv : ((240 + q3 - 240) * 262144 + (128 + r2 - 128) * 4096
                + (128 + r1 - 128) * 64 + (128 + r - 128) = c)%N) by lia.
  rewrite Hv.
  assert (q3 < 5 ∧ (q3 = 0 → 16 <= r2) ∧ (q3 = 4 → r2 < 16))%N
    as (? & ? & ?) by lia.
  clear Hc Hc1 Hc2 H1 H2 H3 H4 Hns Hv. by decide_tests.
Qed.

Lemma decode_encode (s : str) (raw : list byte) :
  encode_utf8 s = Some raw → decode_ignore raw = s.
Proof.
  unfold decode_ignore. revert raw.
  induction s as [|c s IH]; intros raw; simpl.
  - by intros [= <-].
  - destruct (utf8_char c) as [bs|] eqn:Hc; [|done].
    destruct (encode_utf8 s) as [more|]; [|done]. intros [= <-].
    rewrite map_app, (decode_utf8_char c bs _ Hc). f_equal. by apply IH.
Qed.

(** X20. Text survives the wire: the bytes Python's UTF-8 encoder gives
    for a text decode, with [errors="ignore"], to that text, nothing
    dropped.  So a line that arrives as the encoding of a text is read as
    that text stripped of whitespace at its ends, and not at all if
    nothing is left. *)
Theorem read_lines_decodes (s : str) (raw : list byte) :
  encode_utf8 s = Some raw →
  decode_ignore raw = s
  ∧ read_lines [Line raw] = match strip s with
                            | [] => []
                            | line => [line]
                            end.
Proof.
  intros Henc. pose proof (decode_encode s raw Henc) as Hdec.
  split; [done|]. cbn [read_lines]. destruct raw as [|b raw'].
  - destruct s as [|c s']; [done|]. simpl in Henc.
    destruct (utf8_char c) as [bs|] eqn:Hc; [|done].
    destruct (encode_utf8 s'); [|done]. injection Henc as Hnil.
    apply app_eq_nil in Hnil as [-> _]. unfold utf8_char in Hc.
    by repeat (destruct (_ <? _)%N || destruct (_ && _)).
  - rewrite Hdec. by destruct (strip s).
Qed.

Lemma read_lines_decodes_witness :
  decode_ignore (bytes "ID B1 FW 1.2 CAPS wave" ++ ["013"%byte; "010"%byte])
  = lit "ID B1 FW 1.2 CAPS wave" ++ [13%N; 10%N]
  ∧ read_lines
      [Line (bytes "ID B1 FW 1.2 CAPS wave" ++ ["013"%byte; "010"%byte])]
    = match strip (lit "ID B1 FW 1.2 CAPS wave" ++ [13%N; 10%N]) with
      | [] => []
      | line => [line]
      end.
Proof.
  apply (read_lines_decodes (lit "ID B1 FW 1.2 CAPS wave" ++ [13%N; 10%N])).
  reflexivity.
Defined.
